(** * sescrp: page classification, link extraction and URL normalisation

    A shallow embedding of the Go program [sescrp] (a scraper for the
    Standard Ebooks site) and the proofs of its specified properties.

    Go strings are byte sequences: they are modelled by [string] (a list of
    [ascii], one per byte).  Go maps are [gmap]s.  The packages the program
    imports ([net/url], [golang.org/x/net/html], [net/http], [time]) are
    interfaces of the embedding: classes whose fields are the calls the
    program makes. *)

From Stdlib Require Import Ascii ZArith.
From stdpp Require Import base list strings gmap sorting.

Set Warnings "-register-all,-clear-no-such-hyp".
Local Open Scope nat_scope.

(** ** The [strings] package *)

(** The double quote, which [fmt.Errorf] writes around [%s] in some messages. *)
Definition dquote : string := String "034"%char EmptyString.

(** Tail of [s] from byte [n] on: the Go slice [s[n:]] for [n <= len(s)]. *)
Fixpoint string_drop (n : nat) (s : string) : string :=
  match n, s with
  | O, _ => s
  | S n', String _ s' => string_drop n' s'
  | S _, EmptyString => EmptyString
  end.

(** [strings.HasSuffix(s, suffix)]:
    [len(s) >= len(suffix) && s[len(s)-len(suffix):] == suffix]. *)
Definition HasSuffix (s suffix : string) : bool :=
  (String.length suffix <=? String.length s) &&
  String.eqb (string_drop (String.length s - String.length suffix) s) suffix.

(** [strings.Split(s, sep)] for a separator of one byte: the fields of [s]
    between the separators.  The result is never empty: a string without
    the separator (the empty string too) is its own single field. *)
Fixpoint SplitOn (sep : ascii) (s : string) : list string :=
  match s with
  | EmptyString => [EmptyString]
  | String c s' =>
      if Ascii.eqb c sep then EmptyString :: SplitOn sep s'
      else match SplitOn sep s' with
           | t :: ts => String c t :: ts
           | [] => [String c EmptyString]
           end
  end.

(** [strings.Split(s, ",")]. *)
Definition Split_comma (s : string) : list string := SplitOn ","%char s.

(** ** Format testers (parsers.go) *)

(** [TesterFunction]: a test on a string. *)
Definition TesterFunction : Type := string → bool.

Definition test_epub : TesterFunction := λ name,
  HasSuffix name ".epub" && negb (HasSuffix name ".kepub.epub")
    && negb (HasSuffix name "_advanced.epub").

Definition test_azw3 : TesterFunction := λ name, HasSuffix name ".azw3".

Definition test_kepub : TesterFunction := λ name, HasSuffix name ".kepub.epub".

Definition test_aepub : TesterFunction := λ name, HasSuffix name "_advanced.epub".

(** [FormatsTesters]: the map from a format name to its tester. *)
Definition FormatsTesters : gmap string TesterFunction :=
  list_to_map [("epub", test_epub); ("azw3", test_azw3);
               ("kepub", test_kepub); ("aepub", test_aepub)].

(** The formats whose tester accepts [name]: what the map classifies
    [name] as. *)
Definition matchingFormats (name : string) : list string :=
  (map_to_list (filter (λ kv, kv.2 name = true) FormatsTesters)).*1.

(** [EbookPageParser]: the testers of the active formats. *)
Record EbookPageParser : Type := { extensionsTesters : list TesterFunction }.

(** The loop of [NewEbookPageParser] over the fields of the format list:
    the first field that is no key of [FormatsTesters] ends it with the
    error that quotes the field. *)
Fixpoint collectTesters (extensionsSlice : list string)
    (extensionsTesters : list TesterFunction) : list TesterFunction + string :=
  match extensionsSlice with
  | [] => inl extensionsTesters
  | ext :: rest =>
      match FormatsTesters !! ext with
      | None => inr ("the extension " +:+ dquote +:+ ext +:+ dquote +:+ " is not supported")
      | Some fun_ => collectTesters rest (extensionsTesters ++ [fun_])
      end
  end.

(** [NewEbookPageParser(extensions)]. *)
Definition NewEbookPageParser (extensions : string) : EbookPageParser + string :=
  match collectTesters (Split_comma extensions) [] with
  | inl ts => inl {| extensionsTesters := ts |}
  | inr e => inr e
  end.

(** [ebookParser.urlMatches(url)]: some active tester accepts [url]. *)
Definition urlMatches (ebookParser : EbookPageParser) (url : string) : bool :=
  existsb (λ test, test url) (extensionsTesters ebookParser).

(** ** The older parser of ebook pages (src/unnamed/part_000)

    The repository holds an earlier version of the same file: the formats
    are kept as suffixes, [epub3] stands where [aepub] now does, and a URL
    matches by what follows the first dot of its last path element. *)

Module Legacy.

(** [strings.Join(elems, ".")]. *)
Fixpoint Join_dot (elems : list string) : string :=
  match elems with
  | [] => EmptyString
  | [e] => e
  | e :: rest => e +:+ "." +:+ Join_dot rest
  end.

(** [path] without its trailing slashes. *)
Fixpoint stripTrailingSlashes (path : string) : string :=
  match path with
  | EmptyString => EmptyString
  | String c rest =>
      match stripTrailingSlashes rest with
      | EmptyString => if Ascii.eqb c "/"%char then EmptyString else String c EmptyString
      | t => String c t
      end
  end.

(** [path.Base(path)]: the last element of the path, after trailing
    slashes are removed; [.] for the empty path and [/] for slashes only. *)
Definition Base (path : string) : string :=
  if String.eqb path EmptyString then "."
  else
    let last_ := List.last (SplitOn "/"%char (stripTrailingSlashes path)) EmptyString in
    if String.eqb last_ EmptyString then "/" else last_.

(** [IsIn(value, slice)]. *)
Definition IsIn (value : string) (slice : list string) : bool :=
  existsb (String.eqb value) slice.

Record EbookPageParser : Type := { extensions : list string }.

(** The [switch] of [NewEbookPageParser]: the suffix of a format name. *)
Definition suffixOf (ext : string) : option string :=
  if String.eqb ext "epub" then Some ".epub"
  else if String.eqb ext "azw3" then Some ".azw3"
  else if String.eqb ext "kepub" then Some ".kepub.epub"
  else if String.eqb ext "epub3" then Some ".epub3"
  else None.

(** The loop that replaces each field by its suffix, in place. *)
Fixpoint replaceBySuffix (extensionsSlice : list string) : list string + string :=
  match extensionsSlice with
  | [] => inl []
  | ext :: rest =>
      match suffixOf ext with
      | None => inr ("the extension " +:+ dquote +:+ ext +:+ dquote +:+ " is not supported")
      | Some suffix =>
          match replaceBySuffix rest with
          | inl suffixes => inl (suffix :: suffixes)
          | inr e => inr e
          end
      end
  end.

Definition NewEbookPageParser (extensions : string) : EbookPageParser + string :=
  match replaceBySuffix (Split_comma extensions) with
  | inl suffixes => inl {| extensions := suffixes |}
  | inr e => inr e
  end.

Definition urlMatches (ebookParser : EbookPageParser) (url : string) : bool :=
  let exts := SplitOn "."%char (Base url) in
  if length exts <? 2 then false
  else if 2 <? length exts then
    IsIn ("." +:+ Join_dot (drop 1 exts)) (extensions ebookParser)
  else IsIn ("." +:+ default EmptyString (exts !! 1)) (extensions ebookParser).

End Legacy.

(** ** Regular expressions (the [regexp] package)

    The syntax the program's four patterns use: literal bytes, [.], bracket
    classes with ranges and escapes, the postfix operators [*], [+] and [?],
    and [$].  Without flags, [.] matches any byte but the newline and [$]
    matches at the end of the text only. *)

Inductive regex : Type :=
  | Empty                                   (* matches nothing *)
  | Eps                                     (* the empty string *)
  | Chr (c : ascii)                         (* a literal byte *)
  | AnyNotNL                                (* [.] *)
  | Class (ranges : list (ascii * ascii))   (* [[...]], as ranges lo-hi *)
  | EndText                                 (* [$] *)
  | Cat (r1 r2 : regex)
  | Alt (r1 r2 : regex)
  | Star (r : regex).

Definition Plus (r : regex) : regex := Cat r (Star r).
Definition Quest (r : regex) : regex := Alt r Eps.

Definition newline : ascii := "010"%char.

Definition inClass (c : ascii) (ranges : list (ascii * ascii)) : bool :=
  existsb (λ lh, (nat_of_ascii lh.1 <=? nat_of_ascii c) && (nat_of_ascii c <=? nat_of_ascii lh.2)) ranges.

(** The items of a bracket class, read after the opening bracket up to the
    closing one: [\c] is the byte [c], [a-b] a range, any other byte itself. *)
Fixpoint parseClass (fuel : nat) (s : string) (acc : list (ascii * ascii))
    : option (list (ascii * ascii) * string) :=
  match fuel with
  | O => None
  | S fuel' =>
      match s with
      | EmptyString => None
      | String "]" rest => Some (acc, rest)
      | String "\" (String c rest) => parseClass fuel' rest (acc ++ [(c, c)])
      | String lo (String "-" (String hi rest)) =>
          if Ascii.eqb hi "]"%char then parseClass fuel' (String "-" (String hi rest)) (acc ++ [(lo, lo)])
          else parseClass fuel' rest (acc ++ [(lo, hi)])
      | String c rest => parseClass fuel' rest (acc ++ [(c, c)])
      end
  end.

(** A postfix operator after the atom [r], when there is one. *)
Definition parsePostfix (r : regex) (s : string) : regex * string :=
  match s with
  | String "*" rest => (Star r, rest)
  | String "+" rest => (Plus r, rest)
  | String "?" rest => (Quest r, rest)
  | _ => (r, s)
  end.

(** A sequence of atoms, each with its postfix operator. *)
Fixpoint parseSeq (fuel : nat) (s : string) : option regex :=
  match fuel with
  | O => None
  | S fuel' =>
      match s with
      | EmptyString => Some Eps
      | String c rest =>
          let atom :=
            match c with
            | "."%char => Some (AnyNotNL, rest)
            | "$"%char => Some (EndText, rest)
            | "["%char =>
                match parseClass fuel' rest [] with
                | Some (ranges, rest') => Some (Class ranges, rest')
                | None => None
                end
            | "\"%char =>
                match rest with
                | String d rest' => Some (Chr d, rest')
                | EmptyString => None
                end
            | "*"%char | "+"%char | "?"%char | "("%char | ")"%char | "|"%char
            | "{"%char | "}"%char | "^"%char | "]"%char => None
            | _ => Some (Chr c, rest)
            end in
          match atom with
          | None => None
          | Some (r, rest1) =>
              let '(r', rest2) := parsePostfix r rest1 in
              match rest2 with
              | EmptyString => Some r'
              | _ => match parseSeq fuel' rest2 with
                     | Some k => Some (Cat r' k)
                     | None => None
                     end
              end
          end
      end
  end.

(** [regexp.MustCompile(pattern)]; a pattern outside the syntax above
    compiles to [Empty] here (the program has no such pattern). *)
Definition MustCompile (pattern : string) : regex :=
  default Empty (parseSeq (S (String.length pattern)) pattern).

(** The empty string matches [r]; [atEnd] tells whether the position is the
    end of the text. *)
Fixpoint nullable (atEnd : bool) (r : regex) : bool :=
  match r with
  | Empty | Chr _ | AnyNotNL | Class _ => false
  | Eps | Star _ => true
  | EndText => atEnd
  | Cat a b => nullable atEnd a && nullable atEnd b
  | Alt a b => nullable atEnd a || nullable atEnd b
  end.

(** What is left of [r] after the byte [c] (Brzozowski's derivative).  A
    byte follows, so the position before it is not the end of the text. *)
Fixpoint deriv (c : ascii) (r : regex) : regex :=
  match r with
  | Empty | Eps | EndText => Empty
  | Chr d => if Ascii.eqb c d then Eps else Empty
  | AnyNotNL => if Ascii.eqb c newline then Empty else Eps
  | Class ranges => if inClass c ranges then Eps else Empty
  | Cat a b =>
      if nullable false a then Alt (Cat (deriv c a) b) (deriv c b)
      else Cat (deriv c a) b
  | Alt a b => Alt (deriv c a) (deriv c b)
  | Star a => Cat (deriv c a) (Star a)
  end.

(** A match of [r] starts at the head of [s], where [s] is the text from
    some position to its end. *)
Fixpoint matchHere (r : regex) (s : string) : bool :=
  match s with
  | EmptyString => nullable true r
  | String c s' => nullable false r || matchHere (deriv c r) s'
  end.

(** [re.MatchString(s)]: a match of [re] starts somewhere in [s]. *)
Fixpoint MatchString (re : regex) (s : string) : bool :=
  matchHere re s ||
  match s with
  | EmptyString => false
  | String _ s' => MatchString re s'
  end.

(** ** The patterns and the kinds of page (sescrp.go) *)

Definition StandardEbooksMainRegex : regex :=
  Eval vm_compute in MustCompile "https://standardebooks.org/.*[/]?$".
Definition EbookURLRegex : regex :=
  Eval vm_compute in MustCompile "https://standardebooks.org/ebooks/[A-Za-z\-]+/.*[/]?$".
Definition AuthorURLRegex : regex :=
  Eval vm_compute in MustCompile "https://standardebooks.org/ebooks/[A-Za-z\-]+[/]?$".
Definition CollectionURLRegex : regex :=
  Eval vm_compute in MustCompile "https://standardebooks.org/collections/.*[/]?$".

(** Which branch of [NormalizeURLs] a raw URL takes. *)
Inductive PageKind : Type := Ebook | Collection | Author.

(** The tests [NormalizeURLs] makes on a raw URL, in its order: the site
    pattern, then the ebook, collection and author patterns; the two errors
    are those it returns. *)
Definition classify (rawURL : string) : PageKind + string :=
  if negb (MatchString StandardEbooksMainRegex rawURL) then
    inr (rawURL +:+ " is not a valid StandardEbook book")
  else if MatchString EbookURLRegex rawURL then inl Ebook
  else if MatchString CollectionURLRegex rawURL then inl Collection
  else if MatchString AuthorURLRegex rawURL then inl Author
  else inr (rawURL +:+ " was not recognized as a valid URL format").

(** A regex for the bytes of [s] followed by [k]. *)
Fixpoint lit (s : string) (k : regex) : regex :=
  match s with
  | EmptyString => k
  | String c s' => Cat (Chr c) (lit s' k)
  end.

Definition slugClass : regex := Class [("A", "Z"); ("a", "z"); ("-", "-")]%char.
Definition tailRegex : regex :=
  Cat (Star AnyNotNL) (Cat (Quest (Class [("/", "/")%char])) EndText).

(** ** The [net/url] package *)

(** The calls the program makes on [*url.URL]: [url.Parse] (its error as
    [%v] prints it), [String] and [ResolveReference]. *)
Class UrlPkg : Type := {
  URL : Type;
  url_Parse : string → URL + string;
  URL_String : URL → string;
  ResolveReference : URL → URL → URL;
}.

(** ** The [html] package: parse trees *)

Inductive NodeType : Type :=
  | ErrorNode | TextNode | DocumentNode | ElementNode
  | CommentNode | DoctypeNode | RawNode.

Global Instance NodeType_eq_dec : EqDecision NodeType.
Proof. solve_decision. Defined.

Record Attribute : Type := { Namespace : string; Key : string; Val : string }.

(** [html.Node]: the list of children stands for the chain
    [FirstChild], [NextSibling]; the [Parent] pointer of a node is the node
    it is a child of, which a traversal knows from the path it came by. *)
Inductive Node : Type :=
  | MkNode (type : NodeType) (data : string) (attr : list Attribute) (children : list Node).

Definition Type_ (n : Node) : NodeType := let 'MkNode t _ _ _ := n in t.
Definition Data (n : Node) : string := let 'MkNode _ d _ _ := n in d.
Definition Attr (n : Node) : list Attribute := let 'MkNode _ _ a _ := n in a.
Definition Children (n : Node) : list Node := let 'MkNode _ _ _ c := n in c.

(** [html.Parse(r)]: the root of the tree, a [DocumentNode], or the error
    of reading [r]. *)
Class HtmlPkg : Type := {
  Reader : Type;
  html_Parse : Reader → Node + string;
}.

(** [n.Type == html.ElementNode && n.Data == "a"]. *)
Definition isAnchor (n : Node) : bool :=
  bool_decide (Type_ n = ElementNode) && String.eqb (Data n) "a".

(** ** The page parsers (parsers.go) *)

(** The variables the closure [parseF] captures and assigns. *)
Record walk `{UrlPkg} : Type := { finalUrls : list URL; err : option string }.

(** How a Go call ends: it returns, it panics (a nil pointer is
    dereferenced), it blocks for ever (a receive from a channel nothing will
    send on), or the process exits ([log.Fatal]). *)
Inductive Outcome (A : Type) : Type :=
  | Done (a : A)
  | Panic
  | Blocked
  | Fatal (msg : string).
Global Arguments Done {A} a.
Global Arguments Panic {A}.
Global Arguments Blocked {A}.
Global Arguments Fatal {A} msg.

Section PageParsers.
Context `{U : UrlPkg} `{H : HtmlPkg}.

(** The loop of the ebook parser over the attributes of an anchor.  The
    boolean tells that [parseF] executed [return]. *)
Fixpoint ebookAttrs (ebookParser : EbookPageParser) (attrs : list Attribute) (st : walk)
    : walk * bool :=
  match attrs with
  | [] => (st, false)
  | attr :: rest =>
      if String.eqb (Key attr) "href" && urlMatches ebookParser (Val attr) then
        match url_Parse (Val attr) with
        | inr localError =>
            ({| finalUrls := finalUrls st;
                err := Some ("while processing " +:+ Val attr +:+ ": " +:+ localError) |}, true)
        | inl newURL =>
            ebookAttrs ebookParser rest {| finalUrls := finalUrls st ++ [newURL]; err := err st |}
        end
      else ebookAttrs ebookParser rest st
  end.

(** [parseF] of [EbookPageParser.Parse]: the anchor's attributes, then the
    children in order, unless the attribute loop returned. *)
Fixpoint ebookParseF (ebookParser : EbookPageParser) (n : Node) (st : walk) : walk :=
  let '(st1, returned) :=
    if isAnchor n then ebookAttrs ebookParser (Attr n) st else (st, false) in
  if returned then st1
  else
    (fix children (cs : list Node) (st : walk) : walk :=
       match cs with
       | [] => st
       | c :: cs' => children cs' (ebookParseF ebookParser c st)
       end) (let 'MkNode _ _ _ cs := n in cs) st1.

(** [EbookPageParser.Parse(htmlReader)]: the slice and the error it returns. *)
Definition EbookPageParser_Parse (ebookParser : EbookPageParser) (htmlReader : Reader)
    : list URL * option string :=
  match html_Parse htmlReader with
  | inr e => ([], Some e)
  | inl doc =>
      let st := ebookParseF ebookParser doc {| finalUrls := []; err := None |} in
      (finalUrls st, err st)
  end.

(** The test the collection and author parsers make on an anchor [n], given
    the path from its parent up to the root: [n.Parent] is the head of the
    path and [n.Parent.Parent] the next node.  [&&] evaluates from the left
    and stops at the first false; a field of a nil pointer panics ([None]). *)
Definition inListItemParagraph (path : list Node) : option bool :=
  match path with
  | [] => None
  | parent :: above =>
      if bool_decide (Type_ parent = ElementNode) && String.eqb (Data parent) "p"
         && (length (Attr parent) =? 0)
      then match above with
           | [] => None
           | grand :: _ =>
               Some (bool_decide (Type_ grand = ElementNode) && String.eqb (Data grand) "li")
           end
      else Some false
  end.

(** The loop of the collection and author parsers over the attributes of
    an anchor that passed the test. *)
Fixpoint linkAttrs (attrs : list Attribute) (st : walk) : walk * bool :=
  match attrs with
  | [] => (st, false)
  | attr :: rest =>
      if String.eqb (Key attr) "href" then
        match url_Parse (Val attr) with
        | inr localErr =>
            ({| finalUrls := finalUrls st;
                err := Some ("while processing " +:+ Val attr +:+ ": " +:+ localErr) |}, true)
        | inl newURL =>
            linkAttrs rest {| finalUrls := finalUrls st ++ [newURL]; err := err st |}
        end
      else linkAttrs rest st
  end.

(** [parseF] of [CollectionPageParser.Parse]. *)
Fixpoint collectionParseF (path : list Node) (n : Node) (st : walk) : Outcome walk :=
  let anchor : Outcome (walk * bool) :=
    if isAnchor n then
      match inListItemParagraph path with
      | None => Panic
      | Some true => Done (linkAttrs (Attr n) st)
      | Some false => Done (st, false)
      end
    else Done (st, false) in
  match anchor with
  | Done (st1, returned) =>
      if returned then Done st1
      else
        (fix children (cs : list Node) (st : walk) : Outcome walk :=
           match cs with
           | [] => Done st
           | c :: cs' =>
               match collectionParseF (n :: path) c st with
               | Done st' => children cs' st'
               | o => o
               end
           end) (let 'MkNode _ _ _ cs := n in cs) st1
  | Panic => Panic
  | Blocked => Blocked
  | Fatal m => Fatal m
  end.

(** [CollectionPageParser.Parse(htmlReader)]. *)
Definition CollectionPageParser_Parse (htmlReader : Reader)
    : Outcome (list URL * option string) :=
  match html_Parse htmlReader with
  | inr e => Done ([], Some e)
  | inl doc =>
      match collectionParseF [] doc {| finalUrls := []; err := None |} with
      | Done st => Done (finalUrls st, err st)
      | Panic => Panic
      | Blocked => Blocked
      | Fatal m => Fatal m
      end
  end.

(** [parseF] of [AuthorPageParser.Parse]: the same rule as for collections,
    written out on its own as in the source. *)
Fixpoint authorParseF (path : list Node) (n : Node) (st : walk) : Outcome walk :=
  let anchor : Outcome (walk * bool) :=
    if isAnchor n then
      match inListItemParagraph path with
      | None => Panic
      | Some true => Done (linkAttrs (Attr n) st)
      | Some false => Done (st, false)
      end
    else Done (st, false) in
  match anchor with
  | Done (st1, returned) =>
      if returned then Done st1
      else
        (fix children (cs : list Node) (st : walk) : Outcome walk :=
           match cs with
           | [] => Done st
           | c :: cs' =>
               match authorParseF (n :: path) c st with
               | Done st' => children cs' st'
               | o => o
               end
           end) (let 'MkNode _ _ _ cs := n in cs) st1
  | Panic => Panic
  | Blocked => Blocked
  | Fatal m => Fatal m
  end.

(** [AuthorPageParser.Parse(htmlReader)]. *)
Definition AuthorPageParser_Parse (htmlReader : Reader)
    : Outcome (list URL * option string) :=
  match html_Parse htmlReader with
  | inr e => Done ([], Some e)
  | inl doc =>
      match authorParseF [] doc {| finalUrls := []; err := None |} with
      | Done st => Done (finalUrls st, err st)
      | Panic => Panic
      | Blocked => Blocked
      | Fatal m => Fatal m
      end
  end.

End PageParsers.

(** ** The set of URLs and the helpers *)

(** [URLSet]: a map from the string form of a URL to the URL. *)
Record URLSet `{UrlPkg} : Type := { set : gmap string URL }.

Section Sets.
Context `{U : UrlPkg}.

Definition NewURLSet : URLSet := {| set := ∅ |}.

(** [uset.Add(urls...)]: [uset.set[u.String()] = u] for each [u] in order. *)
Definition Add (uset : URLSet) (urls : list URL) : URLSet :=
  {| set := foldl (λ m u, <[URL_String u := u]> m) (set uset) urls |}.

(** [uset.ToSlice()]: the values of the map.  Go ranges over a map in an
    order it does not fix; the order here is that of [map_to_list], and
    the statements about [ToSlice] hold up to a permutation. *)
Definition ToSlice (uset : URLSet) : list URL := (map_to_list (set uset)).*2.

(** Every entry is filed under the string form of its URL. *)
Definition keyed (s : URLSet) : Prop :=
  ∀ k u, set s !! k = Some u → URL_String u = k.

End Sets.

(** The loop of [RemoveStringDuplicates]. *)
Fixpoint removeDuplicatesFrom (slice : list string) (returnSlice : list string)
    (seen : gset string) : list string :=
  match slice with
  | [] => returnSlice
  | s :: rest =>
      if bool_decide (s ∈ seen) then removeDuplicatesFrom rest returnSlice seen
      else removeDuplicatesFrom rest (returnSlice ++ [s]) ({[s]} ∪ seen)
  end.

Definition RemoveStringDuplicates (slice : list string) : list string :=
  removeDuplicatesFrom slice [] ∅.

(** [MustParseURL(rawURL)]. *)
Definition MustParseURL `{UrlPkg} (rawURL : string) : Outcome URL :=
  match url_Parse rawURL with
  | inl u => Done u
  | inr _ => Panic
  end.

(** ** Time, the timer and the HTTP client *)

(** What a run does that the outside can see, with the time of each step:
    a receive from [timer.C] returns, [client.Get] is called, the body of
    the last response has been read to its end, [timer.Reset(d)] is called. *)
Inductive Event : Type :=
  | EvWait (t : Z)
  | EvGet (url : string) (t : Z)
  | EvBodyRead (t : Z)
  | EvReset (t : Z) (d : Z).

(** The clock, the timer and the steps so far.  [timerC = Some t]: the timer
    sends (or has sent) on its channel at time [t] and nothing has received
    it yet; [None]: the channel is empty and the timer is not running. *)
Record World : Type := { now : Z; timerC : option Z; trace : list Event }.

(** The HTTP client and the bodies of its responses: what [client.Get(url)]
    returns after the steps so far (the body of the response, or the error
    as [%v] prints it), the status code of the response (the source never
    reads it: a response with a status other than 2xx is no error of
    [client.Get]), the time the call takes, the time the reads of a body
    take, and the error at which [io.Copy] of a body to a file stops, if any
    (a read of the body or a write to the file that failed). *)
Class HttpPkg `{HtmlPkg} : Type := {
  Get_result : list Event → string → Reader + string;
  Get_status : list Event → string → Z;
  Get_time : list Event → string → N;
  read_time : Reader → N;
  Copy_error : Reader → option string;
}.

(** A call that may change the world. *)
Definition Run (A : Type) : Type := World → Outcome A * World.

Global Instance Run_ret : MRet Run := λ A a w, (Done a, w).
Global Instance Run_bind : MBind Run := λ A B k m w,
  match m w with
  | (Done a, w') => k a w'
  | (Panic, w') => (Panic, w')
  | (Blocked, w') => (Blocked, w')
  | (Fatal msg, w') => (Fatal msg, w')
  end.

(** [time.NewTimer(d)] at the current time. *)
Definition NewTimer (d : Z) (w : World) : World :=
  {| now := now w; timerC := Some (now w + d)%Z; trace := trace w |}.

(** [<-timer.C]: returns when the timer has sent, and empties the channel. *)
Definition timer_wait : Run unit := λ w,
  match timerC w with
  | None => (Blocked, w)
  | Some fire =>
      let t := Z.max (now w) fire in
      (Done (), {| now := t; timerC := None; trace := trace w ++ [EvWait t] |})
  end.

(** [timer.Reset(d)]: the timer sends [d] from now. *)
Definition timer_Reset (d : Z) : Run unit := λ w,
  (Done (), {| now := now w; timerC := Some (now w + d)%Z;
               trace := trace w ++ [EvReset (now w) d] |}).

Section Orchestrator.
Context `{U : UrlPkg} `{H : HtmlPkg} `{C : !HttpPkg}.

(** [client.Get(url)]. *)
Definition client_Get (url : string) : Run (Reader + string) := λ w,
  (Done (Get_result (trace w) url),
   {| now := (now w + Z.of_N (Get_time (trace w) url))%Z; timerC := timerC w;
      trace := trace w ++ [EvGet url (now w)] |}).

(** The reads [html.Parse] makes of a body: to its end when it returns a
    tree, up to the failing read otherwise. *)
Definition readByParse (body : Reader) : Run unit := λ w,
  let t := (now w + Z.of_N (read_time body))%Z in
  (Done (), {| now := t; timerC := timerC w;
               trace := trace w ++ match html_Parse body with
                                   | inl _ => [EvBodyRead t]
                                   | inr _ => []
                                   end |}).

(** [io.Copy(f, resp.Body)]: the body is read into the file, to its end
    unless a read or a write fails; it returns the error at which it
    stopped, if any. *)
Definition io_Copy (body : Reader) : Run (option string) := λ w,
  let t := (now w + Z.of_N (read_time body))%Z in
  (Done (Copy_error body),
   {| now := t; timerC := timerC w;
      trace := trace w ++ match Copy_error body with
                          | None => [EvBodyRead t]
                          | Some _ => []
                          end |}).

(** A page parser's result as a step of a run. *)
Definition liftOutcome {A} (o : Outcome A) : Run A := λ w, (o, w).

(** The global [StandardEbooksMainURL], set when the program starts. *)
Variable StandardEbooksMainURL : URL.

(** The closure of the ebook branch: the page of [rawURL] is fetched and
    its file links are added to [finalURLs]. *)
Definition ebookBranch (ebookParser : EbookPageParser) (connectionWait : Z)
    (rawURL : string) (finalURLs : URLSet) : Run (URLSet * option string) :=
  _ ← timer_wait;
  resp ← client_Get rawURL;
  match resp with
  | inr e => mret (finalURLs, Some ("while getting " +:+ rawURL +:+ ": " +:+ e))
  | inl body =>
      _ ← readByParse body;
      match EbookPageParser_Parse ebookParser body with
      | (_, Some e) => mret (finalURLs, Some ("while parsing " +:+ rawURL +:+ ": " +:+ e))
      | (urls, None) =>
          _ ← timer_Reset connectionWait;
          mret (Add finalURLs urls, None)
      end
  end.

(** The closure called on each book page of a collection or author page;
    [role] is the word the two copies in the source differ by
    ([collection] or [author]). *)
Definition bookPage (role : string) (ebookParser : EbookPageParser) (connectionWait : Z)
    (rawURL : string) (bookURL : URL) (finalURLs : URLSet) : Run (URLSet * option string) :=
  let completeBookURL := ResolveReference StandardEbooksMainURL bookURL in
  _ ← timer_wait;
  resp ← client_Get (URL_String completeBookURL);
  match resp with
  | inr e =>
      mret (finalURLs, Some ("while getting " +:+ URL_String bookURL +:+ " (" +:+ role +:+ ": "
                               +:+ rawURL +:+ "): " +:+ e))
  | inl body =>
      _ ← readByParse body;
      match EbookPageParser_Parse ebookParser body with
      | (_, Some e) =>
          mret (finalURLs, Some ("while parsing " +:+ URL_String bookURL +:+ " (" +:+ role +:+ ": "
                                   +:+ rawURL +:+ "): " +:+ e))
      | (urls, None) =>
          _ ← timer_Reset connectionWait;
          mret (Add finalURLs urls, None)
      end
  end.

(** The loop over the book pages: the first error breaks it. *)
Fixpoint booksLoop (role : string) (ebookParser : EbookPageParser) (connectionWait : Z)
    (rawURL : string) (booksURLs : list URL) (finalURLs : URLSet)
    : Run (URLSet * option string) :=
  match booksURLs with
  | [] => mret (finalURLs, None)
  | bookURL :: rest =>
      r ← bookPage role ebookParser connectionWait rawURL bookURL finalURLs;
      match r with
      | (finalURLs', Some e) => mret (finalURLs', Some e)
      | (finalURLs', None) => booksLoop role ebookParser connectionWait rawURL rest finalURLs'
      end
  end.

(** The closure of the collection and author branches: the page of
    [rawURL] is fetched and parsed by [pageParse] (the collection or the
    author parser), then every book page in turn. *)
Definition listingBranch (role : string)
    (pageParse : Reader → Outcome (list URL * option string))
    (ebookParser : EbookPageParser) (connectionWait : Z)
    (rawURL : string) (finalURLs : URLSet) : Run (URLSet * option string) :=
  _ ← timer_wait;
  resp ← client_Get rawURL;
  match resp with
  | inr e => mret (finalURLs, Some ("while getting " +:+ rawURL +:+ ": " +:+ e))
  | inl body =>
      _ ← readByParse body;
      parsed ← liftOutcome (pageParse body);
      match parsed with
      | (_, Some e) => mret (finalURLs, Some ("while parsing " +:+ rawURL +:+ ": " +:+ e))
      | (booksURLs, None) =>
          _ ← timer_Reset connectionWait;
          booksLoop role ebookParser connectionWait rawURL booksURLs finalURLs
      end
  end.

(** What [NormalizeURLs] does with one raw URL. *)
Definition oneURL (ebookParser : EbookPageParser) (connectionWait : Z)
    (rawURL : string) (finalURLs : URLSet) : Run (URLSet * option string) :=
  match classify rawURL with
  | inr e => mret (finalURLs, Some e)
  | inl Ebook => ebookBranch ebookParser connectionWait rawURL finalURLs
  | inl Collection =>
      listingBranch "collection" CollectionPageParser_Parse ebookParser connectionWait
        rawURL finalURLs
  | inl Author =>
      listingBranch "author" AuthorPageParser_Parse ebookParser connectionWait
        rawURL finalURLs
  end.

(** The loop of [NormalizeURLs] over the raw URLs: the first error returns. *)
Fixpoint urlsLoop (ebookParser : EbookPageParser) (connectionWait : Z)
    (rawURLs : list string) (finalURLs : URLSet) : Run (URLSet * option string) :=
  match rawURLs with
  | [] => mret (finalURLs, None)
  | rawURL :: rest =>
      r ← oneURL ebookParser connectionWait rawURL finalURLs;
      match r with
      | (finalURLs', Some e) => mret (finalURLs', Some e)
      | (finalURLs', None) => urlsLoop ebookParser connectionWait rest finalURLs'
      end
  end.

(** [NormalizeURLs(rawURLs, formats, connectionWait, timer, client)]: the
    set and the error it returns; the timer and the client are in the world. *)
Definition NormalizeURLs (rawURLs : list string) (formats : string) (connectionWait : Z)
    : Run (URLSet * option string) :=
  let rawURLs := RemoveStringDuplicates rawURLs in
  let finalURLs := NewURLSet in
  match NewEbookPageParser formats with
  | inr e => mret (finalURLs, Some ("while creating EbookPageParser: " +:+ e))
  | inl ebookParser => urlsLoop ebookParser connectionWait rawURLs finalURLs
  end.

(** The closure [main] calls on each file URL.  [createFails] stands for
    [os.Create] on the file name made from the URL: the error it returns,
    if any.  What [io.Copy] returns is dropped, and the timer is reset
    after it in either case. *)
Definition download (duration : Z) (createFails : string → option string)
    (ebookURL : URL) : Run unit :=
  let ebookURL := ResolveReference StandardEbooksMainURL ebookURL in
  match createFails (URL_String ebookURL) with
  | Some e => liftOutcome (Fatal e)
  | None =>
      _ ← timer_wait;
      resp ← client_Get (URL_String ebookURL);
      match resp with
      | inr e => liftOutcome (Fatal e)
      | inl body =>
          _ ← io_Copy body;
          timer_Reset duration
      end
  end.

Fixpoint downloads (duration : Z) (createFails : string → option string)
    (urls : list URL) : Run unit :=
  match urls with
  | [] => mret ()
  | ebookURL :: rest =>
      _ ← download duration createFails ebookURL;
      downloads duration createFails rest
  end.

(** [main] from the creation of the timer on: the timer expires at once,
    the raw URLs are normalised, then every file is downloaded. *)
Definition mainFromTimer (urlsToProcess : list string) (extensions : string) (duration : Z)
    (createFails : string → option string) : Run unit := λ w,
  (r ← NormalizeURLs urlsToProcess extensions duration;
   match r with
   | (_, Some e) => liftOutcome (Fatal e)
   | (urls, None) => downloads duration createFails (ToSlice urls)
   end) (NewTimer 0 w).

End Orchestrator.

(** ** More of the [strings], [sort] and [path] packages *)

(** [strings.Join(elems, sep)]. *)
Fixpoint Join (elems : list string) (sep : string) : string :=
  match elems with
  | [] => EmptyString
  | [e] => e
  | e :: rest => e +:+ sep +:+ Join rest sep
  end.

(** Head of [s] up to byte [n]: the Go slice [s[:n]] for [n <= len(s)]. *)
Fixpoint string_take (n : nat) (s : string) : string :=
  match n, s with
  | O, _ => EmptyString
  | S n', String c s' => String c (string_take n' s')
  | S _, EmptyString => EmptyString
  end.

(** [strings.TrimSuffix(s, suffix)]:
    [if HasSuffix(s, suffix) { return s[:len(s)-len(suffix)] }; return s]. *)
Definition TrimSuffix (s suffix : string) : string :=
  if HasSuffix s suffix then string_take (String.length s - String.length suffix) s else s.

(** The order of Go strings, byte by byte: [s <= t]. *)
Definition string_le (s t : string) : Prop := String.leb s t = true.

Global Instance string_le_dec : RelDecision string_le.
Proof. intros s t. unfold string_le. apply _. Defined.

(** [sort.Strings(keys)]: the strings in increasing order.  The order is
    total and antisymmetric, so the sorted slice does not depend on the
    sorting algorithm. *)
Definition sort_Strings (keys : list string) : list string := merge_sort string_le keys.

(** [fm.GetKeys()]: the keys the [range] over the map yields, sorted. *)
Definition GetKeys (fm : gmap string TesterFunction) : list string :=
  sort_Strings (map_to_list fm).*1.

(** ** More of [main] (sescrp.go) *)

(** An [int64] that a computation left its range with: Go wraps it around. *)
Definition wrap64 (z : Z) : Z := ((z + 2 ^ 63) mod 2 ^ 64 - 2 ^ 63)%Z.

(** [time.Second], in nanoseconds. *)
Definition Second : Z := 1000000000.

(** What [main] makes of the flag [-connection-wait]: the process exits
    with code 2 ([inr]) when it is negative; otherwise [duration] is the
    flag as a [time.Duration] times [time.Second], an [int64] product. *)
Definition durationOf (connectionWait : Z) : Z + Z :=
  if (connectionWait <? 0)%Z then inr 2%Z else inl (wrap64 (connectionWait * Second)).

(** The name [main] gives the file of the URL whose string form is
    [ebookURL], in the base directory: the last element of the URL
    ([path.Base]), without its [.epub] when [-trim-kepub] is set and the name
    ends in [.kepub.epub]. *)
Definition downloadName (trimKepub : bool) (ebookURL : string) : string :=
  let filename := Legacy.Base ebookURL in
  if trimKepub && HasSuffix filename ".kepub.epub" then TrimSuffix filename ".epub"
  else filename.

(** ** Sample instances of the interfaces, for the concrete runs *)

Module Sample.

(** [url.Parse] refuses a string that holds an ASCII control byte (below
    0x20, or 0x7f) before it looks at anything else. *)
Definition isCTL (c : ascii) : bool := (nat_of_ascii c <? 32) || (nat_of_ascii c =? 127).

Fixpoint stringContainsCTLByte (s : string) : bool :=
  match s with
  | EmptyString => false
  | String c s' => isCTL c || stringContainsCTLByte s'
  end.

(** URLs as their string forms: a string free of control bytes parses to
    itself, and a reference that starts with a slash resolves to the base
    followed by it. *)
Definition urls : UrlPkg := {|
  URL := string;
  url_Parse := λ s,
    if stringContainsCTLByte s then inr "net/url: invalid control character in URL" else inl s;
  URL_String := λ u, u;
  ResolveReference := λ base ref,
    match ref with
    | String "/" _ => base +:+ ref
    | _ => base +:+ "/" +:+ ref
    end;
|}.

(** A reader stands for what [html.Parse] makes of it. *)
Definition readers : HtmlPkg := {| Reader := Node + string; html_Parse := λ r, r |}.

(** A site: every request for [url] is answered by [site url], at once and
    with the status 200, and every copy of a body comes to its end. *)
Definition client (site : string → @Reader readers + string) : @HttpPkg readers := {|
  Get_result := λ _ url, site url;
  Get_status := λ _ _, 200%Z;
  Get_time := λ _ _, 0%N;
  read_time := λ _, 0%N;
  Copy_error := λ _, None;
|}.

(** Builders of parse trees. *)
Definition elem (tag : string) (attrs : list Attribute) (children : list Node) : Node :=
  MkNode ElementNode tag attrs children.
Definition attr (key val : string) : Attribute :=
  {| Namespace := EmptyString; Key := key; Val := val |}.
Definition a_href (href : string) : Node := elem "a" [attr "href" href] [].

(** The tree [html.Parse] builds around a body: the document node, [html],
    [head] and [body]. *)
Definition page (body : list Node) : Node :=
  MkNode DocumentNode EmptyString []
    [elem "html" [] [elem "head" [] []; elem "body" [] body]].

(** A malformed href: it holds the byte 0x7f. *)
Definition badHref : string := "bad" +:+ String "127"%char ".epub".

(** The document of the four links. *)
Definition fourLinks : Node :=
  page [a_href "book.epub"; a_href "book.kepub.epub"; a_href "book.azw3";
        a_href "book_advanced.epub"].

(** A page with a malformed href between two good ones. *)
Definition mixedLinks : Node := page [a_href "book.epub"; a_href badHref; a_href "other.epub"].

Definition onlyEpub : EbookPageParser := {| extensionsTesters := [test_epub] |}.

(** A site with one ebook page. *)
Definition goodPage : string := "https://standardebooks.org/ebooks/a/b".

Definition site (url : string) : @Reader readers + string :=
  if String.eqb url goodPage then inl (inl (page [a_href "/ebooks/a/b/downloads/b.epub"]))
  else inr "dial tcp: connection refused".

Definition start : World := NewTimer 0 {| now := 0; timerC := None; trace := [] |}.

Definition foreignPage : string := "https://example.org/x".

(** The file of the good page. *)
Definition goodFile : string := "https://standardebooks.org/ebooks/a/b/downloads/b.epub".

(** A page the sites do not have, and a page with a malformed href. *)
Definition missingPage : string := "https://standardebooks.org/ebooks/c/d".
Definition brokenPage : string := "https://standardebooks.org/ebooks/x/y".

(** A collection page with three books, the second of which is missing. *)
Definition shelfPage : string := "https://standardebooks.org/collections/shelf".

Definition shelf : Node :=
  page [elem "li" [] [elem "p" [] [a_href "/ebooks/a/b"]];
        elem "li" [] [elem "p" [] [a_href "/ebooks/c/d"]];
        elem "li" [] [elem "p" [] [a_href "/ebooks/e/f"]]].

(** A site with the good page and its file, the collection page and the
    page with the malformed href. *)
Definition library (url : string) : @Reader readers + string :=
  if String.eqb url shelfPage then inl (inl shelf)
  else if String.eqb url brokenPage then inl (inl mixedLinks)
  else if String.eqb url goodFile then inl (inl (page []))
  else site url.

(** A client no copy of which comes to its end. *)
Definition cutClient (site : string → @Reader readers + string) : @HttpPkg readers := {|
  Get_result := λ _ url, site url;
  Get_status := λ _ _, 200%Z;
  Get_time := λ _ _, 0%N;
  read_time := λ _, 0%N;
  Copy_error := λ _, Some "unexpected EOF";
|}.

(** A client to which the site answers every request: with the status 404
    and a page without links when it does not have the page. *)
Definition answeringClient (site : string → @Reader readers + string) : @HttpPkg readers := {|
  Get_result := λ _ url,
    match site url with
    | inl body => inl body
    | inr _ => inl (inl (page []))
    end;
  Get_status := λ _ url, match site url with inl _ => 200%Z | inr _ => 404%Z end;
  Get_time := λ _ _, 0%N;
  read_time := λ _, 0%N;
  Copy_error := λ _, None;
|}.

End Sample.

(** * The vocabulary of the statements *)

(** ** Formats *)

(** The error of [NewEbookPageParser] for the field [ext], and the names
    it accepts. *)
Definition unsupportedError (ext : string) : string :=
  "the extension " +:+ dquote +:+ ext +:+ dquote +:+ " is not supported".

Definition supported (ext : string) : Prop := is_Some (FormatsTesters !! ext).

(** ** Parse trees and traversals *)

(** The nodes of a tree in document order (a node before its children, the
    children from first to last), each with the path from its parent up to
    the root: the head of the path is the node's [Parent], the next node
    its [Parent.Parent]. *)
Fixpoint nodesWithPath (path : list Node) (n : Node) : list (list Node * Node) :=
  match n with
  | MkNode _ _ _ cs => (path, n) :: flat_map (nodesWithPath (n :: path)) cs
  end.

(** The values of the [href] attributes of a node, in order. *)
Definition hrefsOf (n : Node) : list string :=
  Val <$> filter (λ a, String.eqb (Key a) "href" = true) (Attr n).

(** The hrefs of all anchors of a tree, in document order. *)
Definition anchorHrefs (doc : Node) : list string :=
  flat_map (λ pn, if isAnchor pn.2 then hrefsOf pn.2 else []) (nodesWithPath [] doc).

(** An anchor whose parent is a paragraph element without attributes and
    whose parent's parent is a list-item element. *)
Definition listItemLink (path : list Node) (n : Node) : Prop :=
  isAnchor n = true ∧
  ∃ parent grand above, path = parent :: grand :: above
    ∧ Type_ parent = ElementNode ∧ Data parent = "p" ∧ Attr parent = []
    ∧ Type_ grand = ElementNode ∧ Data grand = "li".


Section Walk.
Context `{U : UrlPkg}.

(** The error [parseF] records for an href that [url.Parse] refuses. *)
Definition hrefError (href e : string) : string :=
  "while processing " +:+ href +:+ ": " +:+ e.

(** The three traversals are instances of one: [gate] says whether the
    attributes of a node are looked at ([None]: the test panics) and
    [want] which attributes are parsed as URLs. *)
Variable gate : list Node → Node → option bool.
Variable want : Attribute → bool.

Fixpoint walkAttrs (attrs : list Attribute) (st : walk) : walk * bool :=
  match attrs with
  | [] => (st, false)
  | attr :: rest =>
      if want attr then
        match url_Parse (Val attr) with
        | inr e => ({| finalUrls := finalUrls st; err := Some (hrefError (Val attr) e) |}, true)
        | inl newURL => walkAttrs rest {| finalUrls := finalUrls st ++ [newURL]; err := err st |}
        end
      else walkAttrs rest st
  end.

Fixpoint walkTree (path : list Node) (n : Node) (st : walk) : Outcome walk :=
  match gate path n with
  | None => Panic
  | Some g =>
      let '(st1, returned) := if g then walkAttrs (Attr n) st else (st, false) in
      if returned then Done st1
      else
        (fix children (cs : list Node) (st : walk) : Outcome walk :=
           match cs with
           | [] => Done st
           | c :: cs' =>
               match walkTree (n :: path) c st with
               | Done st' => children cs' st'
               | o => o
               end
           end) (let 'MkNode _ _ _ cs := n in cs) st1
  end.

Fixpoint walkChildren (path : list Node) (cs : list Node) (st : walk) : Outcome walk :=
  match cs with
  | [] => Done st
  | c :: cs' =>
      match walkTree path c st with
      | Done st' => walkChildren path cs' st'
      | o => o
      end
  end.

(** The hrefs a node contributes, and those of a whole tree in document
    order. *)
Definition picked (path : list Node) (n : Node) : list string :=
  match gate path n with
  | Some true => Val <$> filter (λ a, want a = true) (Attr n)
  | _ => []
  end.

Definition selected (path : list Node) (n : Node) : list string :=
  flat_map (λ pn, picked pn.1 pn.2) (nodesWithPath path n).

(** What a traversal that went from [st] to [st'] over the hrefs [hs] has
    done: the URLs it appended are parsed from hrefs of [hs]; either every
    href of [hs] was parsed, in order, and the error is untouched, or the
    error names an href of [hs] that [url.Parse] refused. *)
Definition walked (hs : list string) (st st' : walk) (failed : bool) : Prop :=
  ∃ new, finalUrls st' = finalUrls st ++ new
    ∧ Forall (λ u, ∃ h, h ∈ hs ∧ url_Parse h = inl u) new
    ∧ if failed
      then ∃ h e, h ∈ hs ∧ url_Parse h = inr e ∧ err st' = Some (hrefError h e)
      else err st' = err st ∧ Forall2 (λ h u, url_Parse h = inl u) hs new.

End Walk.

(** The ebook parser looks at every anchor and wants the hrefs an active
    format accepts. *)
Definition ebookGate : list Node → Node → option bool := λ _ n, Some (isAnchor n).
Definition ebookWant (ebookParser : EbookPageParser) : Attribute → bool :=
  λ a, String.eqb (Key a) "href" && urlMatches ebookParser (Val a).

(** The collection and author parsers look at the anchors that pass the
    test on the parent and its parent, and want every href. *)
Definition linkGate : list Node → Node → option bool :=
  λ path n, if isAnchor n then inListItemParagraph path else Some false.
Definition linkWant : Attribute → bool := λ a, String.eqb (Key a) "href".

(** ** Matches of a regular expression *)

(** [Matches r w rest]: [r] matches the bytes [w] at a position of the text
    after which [rest] follows to the end of the text. *)
Inductive Matches : regex → string → string → Prop :=
  | M_Eps rest : Matches Eps EmptyString rest
  | M_Chr c rest : Matches (Chr c) (String c EmptyString) rest
  | M_Any c rest : c ≠ newline → Matches AnyNotNL (String c EmptyString) rest
  | M_Class ranges c rest :
      inClass c ranges = true → Matches (Class ranges) (String c EmptyString) rest
  | M_End : Matches EndText EmptyString EmptyString
  | M_Cat a b w1 w2 rest :
      Matches a w1 (w2 +:+ rest) → Matches b w2 rest → Matches (Cat a b) (w1 +:+ w2) rest
  | M_AltL a b w rest : Matches a w rest → Matches (Alt a b) w rest
  | M_AltR a b w rest : Matches b w rest → Matches (Alt a b) w rest
  | M_Star0 a rest : Matches (Star a) EmptyString rest
  | M_StarS a w1 w2 rest :
      Matches a w1 (w2 +:+ rest) → Matches (Star a) w2 rest →
      Matches (Star a) (w1 +:+ w2) rest.

Definition atEnd (rest : string) : bool :=
  match rest with EmptyString => true | String _ _ => false end.

(** Every byte of [s] passes the test [P]. *)
Fixpoint string_forall (P : ascii → bool) (s : string) : bool :=
  match s with
  | EmptyString => true
  | String c s' => P c && string_forall P s'
  end.

Definition noNewline (s : string) : bool :=
  string_forall (λ c, negb (Ascii.eqb c newline)) s.

Definition slugBytes (s : string) : bool :=
  string_forall (λ c, inClass c [("A", "Z"); ("a", "z"); ("-", "-")]%char) s.

(** A raw URL that does not start with the site's address and holds an
    ebook-page URL further on. *)
Definition embeddedURL : string :=
  "http://mirror.example/?from=https://standardebooks.org/ebooks/some-slug/".

(** ** Paced traces *)

(** A trace made of complete rounds: a receive from the timer, a request,
    the body read to its end, the timer reset to the interval [d].  In a
    round cut short the reset follows the request and the body was not read
    to its end; [cut tr url] tells of which requests this may be: those for
    [url] made after the steps [tr].  [f] is the time the timer will send at
    after the trace and [n] the time of its last step; a round starts when
    the timer has sent. *)
Inductive Rounds (cut : list Event → string → Prop) (d : Z) : Z → Z → list Event → Prop :=
  | Rounds_nil f n : Rounds cut d f n []
  | Rounds_snoc f n tr tw url tg tb ts :
      Rounds cut d f n tr →
      (f ≤ tw)%Z → (n ≤ tw)%Z → (tw ≤ tg)%Z → (tg ≤ tb)%Z → (tb ≤ ts)%Z →
      Rounds cut d (ts + d) ts (tr ++ [EvWait tw; EvGet url tg; EvBodyRead tb; EvReset ts d])
  | Rounds_cut f n tr tw url tg ts :
      Rounds cut d f n tr → cut (tr ++ [EvWait tw]) url →
      (f ≤ tw)%Z → (n ≤ tw)%Z → (tw ≤ tg)%Z → (tg ≤ ts)%Z →
      Rounds cut d (ts + d) ts (tr ++ [EvWait tw; EvGet url tg; EvReset ts d]).

(** No round is cut short. *)
Definition noCut : list Event → string → Prop := λ _ _, False.

(** The start of a round that did not complete: the request failed, or the
    body could not be read or parsed. *)
Inductive Partial (f n : Z) : list Event → Prop :=
  | Partial_none : Partial f n []
  | Partial_requested tw url tg :
      (f ≤ tw)%Z → (n ≤ tw)%Z → (tw ≤ tg)%Z → Partial f n [EvWait tw; EvGet url tg]
  | Partial_read tw url tg tb :
      (f ≤ tw)%Z → (n ≤ tw)%Z → (tw ≤ tg)%Z → (tg ≤ tb)%Z →
      Partial f n [EvWait tw; EvGet url tg; EvBodyRead tb].

(** The trace of a run: complete rounds, then at most the start of one. *)
Definition Paced (cut : list Event → string → Prop) (d : Z) (tr : list Event) : Prop :=
  ∃ f n rounds last, tr = rounds ++ last ∧ Rounds cut d f n rounds ∧ Partial f n last.

(** A world between two rounds: the timer is set and the trace is made of
    complete rounds. *)
Definition Ready (cut : list Event → string → Prop) (d : Z) (w : World) : Prop :=
  ∃ f n, timerC w = Some f ∧ (n ≤ now w)%Z ∧ Rounds cut d f n (trace w).

(** The properties of a paced trace, place by place.  Every request comes
    right after a receive from the timer. *)
Definition waitBeforeGet (tr : list Event) : Prop :=
  ∀ i url t, tr !! i = Some (EvGet url t) →
    ∃ j tw, i = S j ∧ tr !! j = Some (EvWait tw) ∧ (tw ≤ t)%Z.

(** Every reset is to the interval, and comes right after the body was read
    to its end. *)
Definition resetAfterRead (d : Z) (tr : list Event) : Prop :=
  ∀ i t d', tr !! i = Some (EvReset t d') →
    d' = d ∧ ∃ j tb, i = S j ∧ tr !! j = Some (EvBodyRead tb) ∧ (tb ≤ t)%Z.

(** Of two requests the later one is made at least the interval after the
    body of the earlier one was read to its end. *)
Definition spaced (d : Z) (tr : list Event) : Prop :=
  ∀ i j url1 t1 url2 t2, i < j →
    tr !! i = Some (EvGet url1 t1) → tr !! j = Some (EvGet url2 t2) →
    ∃ tb, tr !! S i = Some (EvBodyRead tb) ∧ S i < j ∧ (t1 ≤ tb)%Z ∧ (tb + d ≤ t2)%Z.

(** Every reset is to the interval, and comes right after the body was read
    to its end, or right after the request when its round is cut short. *)
Definition resetAfterCopy (cut : list Event → string → Prop) (d : Z) (tr : list Event)
    : Prop :=
  ∀ i t d', tr !! i = Some (EvReset t d') →
    d' = d
    ∧ ∃ j, i = S j
        ∧ ((∃ tb, tr !! j = Some (EvBodyRead tb) ∧ (tb ≤ t)%Z)
           ∨ (∃ url tg, tr !! j = Some (EvGet url tg) ∧ (tg ≤ t)%Z ∧ cut (take j tr) url)).

(** Of two requests the later one is made at least the interval after a
    reset of the timer that follows the earlier one. *)
Definition spacedFromReset (d : Z) (tr : list Event) : Prop :=
  ∀ i j url1 t1 url2 t2, i < j →
    tr !! i = Some (EvGet url1 t1) → tr !! j = Some (EvGet url2 t2) →
    ∃ k ts, i < k ∧ k < j ∧ tr !! k = Some (EvReset ts d) ∧ (t1 ≤ ts)%Z ∧ (ts + d ≤ t2)%Z.

(** Every request comes right after a receive from the timer and is
    followed by a reset of the timer, made by the time [n], after which the
    timer sends by the time [f]. *)
Definition getsInRounds (d f n : Z) (tr : list Event) : Prop :=
  ∀ i url t, tr !! i = Some (EvGet url t) →
    ∃ j tw, i = S j ∧ tr !! j = Some (EvWait tw) ∧ (tw ≤ t)%Z
      ∧ ∃ k ts, i < k ∧ tr !! k = Some (EvReset ts d)
                ∧ (t ≤ ts)%Z ∧ (ts ≤ n)%Z ∧ (ts + d ≤ f)%Z.

(** A call made between two rounds leaves the world between two rounds
    when it succeeds ([ok]), and a paced trace when it does not; it never
    blocks. *)
Definition proceeds {A} (cut : list Event → string → Prop) (d : Z) (ok : A → bool)
    (m : Run A) : Prop :=
  ∀ w, Ready cut d w →
    match m w with
    | (Done a, w') => if ok a then Ready cut d w' else Paced cut d (trace w')
    | (Blocked, _) => False
    | (_, w') => Paced cut d (trace w')
    end.

Definition noError {A} (r : A * option string) : bool :=
  match r.2 with None => true | Some _ => false end.

Section Steps.
Context `{U : UrlPkg} `{H : HtmlPkg}.

(** What the orchestrator needs of a page parser: it does not block, and
    it returns no error only when [html.Parse] read the body to its end. *)
Definition readsBody (pageParse : Reader → Outcome (list URL * option string)) : Prop :=
  ∀ body, pageParse body ≠ Blocked
          ∧ ∀ urls, pageParse body = Done (urls, None) → ∃ doc, html_Parse body = inl doc.

(** A step that did not go through: it returned an error, panicked,
    blocked or ended the process. *)
Definition failed (r : Outcome (URLSet * option string) * World) : Prop :=
  match r.1 with
  | Done (_, None) => False
  | _ => True
  end.

End Steps.

Section Copies.
Context `{U : UrlPkg} `{H : HtmlPkg} `{C : !HttpPkg}.

(** The request for [url] made after the steps [tr] is answered with a body
    whose copy to a file stops at an error. *)
Definition copyFails (tr : list Event) (url : string) : Prop :=
  ∃ body e, Get_result tr url = inl body ∧ Copy_error body = Some e.

End Copies.

(** ** Failures *)

Section Failures.
Context `{U : UrlPkg} `{H : HtmlPkg} `{C : !HttpPkg}.

(** The parser [NormalizeURLs] uses on a page of each kind. *)
Definition parserOf (ebookParser : EbookPageParser) (kind : PageKind)
    : Reader → Outcome (list URL * option string) :=
  match kind with
  | Ebook => λ body, Done (EbookPageParser_Parse ebookParser body)
  | Collection => CollectionPageParser_Parse
  | Author => AuthorPageParser_Parse
  end.

(** The word by which the error of a book page names the kind of the page
    the book was found on. *)
Definition roleOf (kind : PageKind) : option string :=
  match kind with
  | Ebook => None
  | Collection => Some "collection"
  | Author => Some "author"
  end.

(** The worlds a request for [url] made from [w] leads to: that in which
    [client.Get] has returned, that in which [html.Parse] has made its
    reads of the body, and that in which the timer has been reset. *)
Definition afterGet (url : string) (w : World) : World :=
  ((_ ← timer_wait; client_Get url) w).2.

Definition afterRead (url : string) (body : Reader) (w : World) : World :=
  ((_ ← timer_wait; _ ← client_Get url; readByParse body) w).2.

Definition afterReset (d : Z) (url : string) (body : Reader) (w : World) : World :=
  ((_ ← timer_wait; _ ← client_Get url; _ ← readByParse body; timer_Reset d) w).2.

(** The request for the page at [url], made from the world [w] with the
    timer set, fails: [client.Get] returns the error [cause], or it returns
    a body and the parser of the page returns the error [cause].  [verb] is
    the word for what failed and [w'] the world the failure leaves: nothing
    is done after the call that failed. *)
Inductive pageFails (parse : Reader → Outcome (list URL * option string)) (url : string)
    (w : World) : string → string → World → Prop :=
  | getFails f cause :
      timerC w = Some f →
      Get_result (trace w ++ [EvWait (Z.max (now w) f)]) url = inr cause →
      pageFails parse url w "getting" cause (afterGet url w)
  | parseFails f body urls cause :
      timerC w = Some f →
      Get_result (trace w ++ [EvWait (Z.max (now w) f)]) url = inl body →
      parse body = Done (urls, Some cause) →
      pageFails parse url w "parsing" cause (afterRead url body w).

(** The run ends with the error [e]: [NormalizeURLs], called in the world
    [w], returns it, beside the set [fs] and in the world [w'], and [main],
    when it is [main] that called [NormalizeURLs], ends the process with
    it in that world, so that the set is dropped and nothing is downloaded. *)
Definition abortsWith (mainURL : URL) (rawURLs : list string) (formats : string) (d : Z)
    (w : World) (e : string) (fs : URLSet) (w' : World) : Prop :=
  NormalizeURLs mainURL rawURLs formats d w = (Done (fs, Some e), w')
  ∧ ∀ w0 createFails, w = NewTimer 0 w0 →
      mainFromTimer mainURL rawURLs formats d createFails w0 = (Fatal e, w').

End Failures.

(** ** Bytes and fields *)

(** The byte [sep] does not occur in [s]. *)
Definition noByte (sep : ascii) (s : string) : bool :=
  string_forall (λ c, negb (Ascii.eqb c sep)) s.

(** ** Where the links come from *)

Section Provenance.
Context `{U : UrlPkg} `{H : HtmlPkg} `{C : !HttpPkg}.

(** The URL [u] comes from a page of the run that ended with the trace
    [tr], from its place [from] on: a request of the trace was answered by
    a body that parsed to a document, and [u] is parsed from an href of an
    anchor of the document that the parser's formats accept. *)
Definition fromPageOf (ebookParser : EbookPageParser) (from : nat) (tr : list Event)
    (u : URL) : Prop :=
  ∃ i url t body doc h,
    tr !! i = Some (EvGet url t) ∧ from ≤ i
    ∧ Get_result (take i tr) url = inl body ∧ html_Parse body = inl doc
    ∧ h ∈ anchorHrefs doc ∧ urlMatches ebookParser h = true ∧ url_Parse h = inl u.

(** The members of a set come from pages of the run, and each is filed
    under its string form. *)
Definition gathered (ebookParser : EbookPageParser) (from : nat) (s : URLSet) (w : World)
    : Prop :=
  ∀ k u, set s !! k = Some u → URL_String u = k ∧ fromPageOf ebookParser from (trace w) u.

(** What a step of the run keeps: the members of the set it returns come
    from pages of the run. *)
Definition keeps (p : EbookPageParser) (from : nat)
    (r : Outcome (URLSet * option string) * World) : Prop :=
  match r with
  | (Done (s', _), w') => gathered p from s' w' ∧ from ≤ length (trace w')
  | _ => True
  end.

End Provenance.

(** ** Requests *)

(** The URLs requested in a trace, and the times of the requests, in order. *)
Definition requested (tr : list Event) : list string :=
  omap (λ e, match e with EvGet url _ => Some url | _ => None end) tr.

Definition getTimes (tr : list Event) : list Z :=
  omap (λ e, match e with EvGet _ t => Some t | _ => None end) tr.

(** ** The pages a run asks for *)

Section KnownPages.
Context `{U : UrlPkg} `{H : HtmlPkg} `{C : !HttpPkg}.






End KnownPages.

(** ** What a site yields *)

Section Yields.
Context `{U : UrlPkg} `{H : HtmlPkg}.

(** A site: the body a request for a URL is answered with, or the error. *)
Variable site : string → Reader + string.

(** The page at [url] is there and parses to a document, and [urls] are its
    file links: the hrefs of its anchors that an active format accepts,
    parsed, in document order. *)
Definition fileLinks (ebookParser : EbookPageParser) (url : string) (urls : list URL)
    : Prop :=
  ∃ body doc, site url = inl body ∧ html_Parse body = inl doc
    ∧ Forall2 (λ h u, url_Parse h = inl u)
        (filter (λ h, urlMatches ebookParser h = true) (anchorHrefs doc)) urls.

(** The collection or author page at [url] is there and parses to a
    document, and [books] are its book links, parsed, in document order. *)
Definition bookLinks (url : string) (books : list URL) : Prop :=
  ∃ body doc, site url = inl body ∧ html_Parse body = inl doc ∧ Type_ doc = DocumentNode
    ∧ Forall2 (λ h b, url_Parse h = inl b) (selected linkGate linkWant [] doc) books.

(** What a raw URL yields, page by page: the file links of an ebook page,
    or those of each book page of a collection or author page. *)
Definition yields (mainURL : URL) (ebookParser : EbookPageParser) (rawURL : string)
    (batches : list (list URL)) : Prop :=
  match classify rawURL with
  | inl Ebook => ∃ urls, fileLinks ebookParser rawURL urls ∧ batches = [urls]
  | inl _ =>
      ∃ books, bookLinks rawURL books
        ∧ Forall2 (λ b urls,
                     fileLinks ebookParser (URL_String (ResolveReference mainURL b)) urls)
            books batches
  | inr _ => False
  end.

End Yields.

(** A world in which the timer is set. *)
Definition armed (w : World) : Prop := is_Some (timerC w).

(** ** Tactics *)

(** Takes a [Forall2] over a list given element by element apart. *)
Ltac invert_Forall2 :=
  repeat match goal with
  | F : Forall2 _ (_ :: _) _ |- _ =>
      let u := fresh "u" in let Hu := fresh "Hu" in
      apply Forall2_cons_inv_l in F as (u & ? & Hu & F & ->)
  | F : Forall2 _ [] _ |- _ => apply Forall2_nil_inv_l in F as ->
  end.

(** Case analysis on the place of an event in a trace extended by a few
    events. *)
Ltac split_lookup Hl :=
  apply lookup_app_Some in Hl as [Hl|[? Hl]];
  [|repeat match type of Hl with
           | (_ :: _) !! (?i - ?n) = Some _ =>
               let E := fresh "E" in destruct (i - n) eqn:E; simpl in Hl
           | (_ :: _) !! ?k = Some _ => destruct k; simpl in Hl
           | [] !! _ = Some _ => by rewrite lookup_nil in Hl
           end; try discriminate Hl].

(** Unfolds the steps of a run. *)
Ltac run_steps :=
  unfold mbind, Run_bind, mret, Run_ret, timer_wait, client_Get, readByParse, io_Copy,
    timer_Reset, liftOutcome; simpl.

(** * Proofs *)

(** ** Evaluations *)

Example Split_comma_ex :
  Split_comma "epub,kepub,azw3" = ["epub"; "kepub"; "azw3"]
  ∧ Split_comma EmptyString = [EmptyString]
  ∧ Split_comma "a,,b," = ["a"; EmptyString; "b"; EmptyString].
Proof. repeat split; reflexivity. Qed.

Example FormatsTesters_ex :
  FormatsTesters !! "epub" = Some test_epub ∧ FormatsTesters !! "epub3" = None
  ∧ matchingFormats "book.kepub.epub" = ["kepub"]
  ∧ matchingFormats "book.txt" = [].
Proof. repeat split; vm_compute; reflexivity. Qed.

Example patterns_ast :
  StandardEbooksMainRegex = lit "https://standardebooks" (Cat AnyNotNL (lit "org/" tailRegex))
  ∧ EbookURLRegex = lit "https://standardebooks" (Cat AnyNotNL (lit "org/ebooks/"
      (Cat (Plus slugClass) (Cat (Chr "/") tailRegex))))
  ∧ AuthorURLRegex = lit "https://standardebooks" (Cat AnyNotNL (lit "org/ebooks/"
      (Cat (Plus slugClass) (Cat (Quest (Class [("/", "/")%char])) EndText))))
  ∧ CollectionURLRegex = lit "https://standardebooks" (Cat AnyNotNL (lit "org/collections/" tailRegex)).
Proof. repeat split; reflexivity. Qed.

Example classify_ex :
  classify "https://standardebooks.org/ebooks/jane-austen/emma" = inl Ebook
  ∧ classify "https://standardebooks.org/ebooks/jane-austen" = inl Author
  ∧ classify "https://standardebooks.org/collections/the-guardian" = inl Collection
  ∧ classify "https://standardebooks.org/about" =
      inr "https://standardebooks.org/about was not recognized as a valid URL format"
  ∧ classify "https://example.org/ebooks/x" =
      inr "https://example.org/ebooks/x is not a valid StandardEbook book"
  ∧ classify "https://standardebooksXorg/ebooks/jane-austen" = inl Author.
Proof. repeat split; vm_compute; reflexivity. Qed.


(** ** Strings *)

Lemma string_app_cons c s t : String c s +:+ t = String c (s +:+ t).
Proof. reflexivity. Qed.

Lemma string_app_nil_l s : EmptyString +:+ s = s.
Proof. reflexivity. Qed.

Lemma string_app_nil_r s : s +:+ EmptyString = s.
Proof. induction s as [|c s IH]; [done|]. by rewrite string_app_cons, IH. Qed.

Lemma string_app_assoc s t u : (s +:+ t) +:+ u = s +:+ t +:+ u.
Proof. induction s as [|c s IH]; [done|]. by rewrite !string_app_cons, IH. Qed.

Lemma string_length_app s t :
  String.length (s +:+ t) = String.length s + String.length t.
Proof. induction s as [|c s IH]; [done|]. rewrite string_app_cons. simpl. by rewrite IH. Qed.

Lemma string_drop_app p s : string_drop (String.length p) (p +:+ s) = s.
Proof. induction p as [|c p IH]; [done|]. by rewrite string_app_cons. Qed.

Lemma string_drop_split n s :
  n ≤ String.length s → ∃ p, s = p +:+ string_drop n s.
Proof.
  revert s. induction n as [|n IH]; intros s Hn.
  - by exists EmptyString.
  - destruct s as [|c s]; simpl in Hn; [lia|].
    destruct (IH s) as [p Hp]; [lia|].
    exists (String c p). rewrite string_app_cons. simpl. by rewrite <- Hp.
Qed.

Lemma HasSuffix_app p suffix : HasSuffix (p +:+ suffix) suffix = true.
Proof.
  unfold HasSuffix. rewrite string_length_app.
  replace (String.length p + String.length suffix - String.length suffix)
    with (String.length p) by lia.
  rewrite string_drop_app, String.eqb_refl, andb_true_r.
  apply Nat.leb_le. lia.
Qed.

Lemma HasSuffix_inv s suffix : HasSuffix s suffix = true → ∃ p, s = p +:+ suffix.
Proof.
  unfold HasSuffix. intros [Hlen Heq]%andb_true_iff.
  apply Nat.leb_le in Hlen. apply String.eqb_eq in Heq.
  destruct (string_drop_split (String.length s - String.length suffix) s) as [p Hp]; [lia|].
  exists p. by rewrite Heq in Hp.
Qed.

(** Two suffixes of one string: one is a suffix of the other. *)
Lemma HasSuffix_comparable s a b :
  HasSuffix s a = true → HasSuffix s b = true →
  HasSuffix a b = true ∨ HasSuffix b a = true.
Proof.
  intros [p Hp]%HasSuffix_inv [q Hq]%HasSuffix_inv. subst s.
  revert q Hq. induction p as [|c p IH]; intros q Hq.
  - left. rewrite string_app_nil_l in Hq. rewrite Hq. apply HasSuffix_app.
  - destruct q as [|d q].
    + right. rewrite string_app_nil_l in Hq. rewrite <- Hq. apply HasSuffix_app.
    + rewrite !string_app_cons in Hq. injection Hq as _ Hq. by apply IH with q.
Qed.

Lemma HasSuffix_exclusive s a b :
  HasSuffix a b = false → HasSuffix b a = false →
  HasSuffix s a = true → HasSuffix s b = false.
Proof.
  intros Hab Hba Ha. destruct (HasSuffix s b) eqn:Hb; [|done].
  destruct (HasSuffix_comparable s a b Ha Hb); congruence.
Qed.

(** ** The format testers *)

Lemma FormatsTesters_lookup k t :
  FormatsTesters !! k = Some t →
  (k = "epub" ∧ t = test_epub) ∨ (k = "azw3" ∧ t = test_azw3)
  ∨ (k = "kepub" ∧ t = test_kepub) ∨ (k = "aepub" ∧ t = test_aepub).
Proof.
  intros Hk. apply elem_of_list_to_map_2 in Hk.
  repeat (apply elem_of_cons in Hk as [Hk|Hk]; [simplify_eq; tauto|]).
  by apply elem_of_nil in Hk.
Qed.

Lemma testers_exclusive f :
  (test_epub f = true → test_azw3 f = false ∧ test_kepub f = false ∧ test_aepub f = false)
  ∧ (test_azw3 f = true → test_kepub f = false ∧ test_aepub f = false)
  ∧ (test_kepub f = true → test_aepub f = false).
Proof.
  unfold test_epub, test_azw3, test_kepub, test_aepub. split; [|split].
  - intros [[He Hk%negb_true_iff]%andb_true_iff Ha%negb_true_iff]%andb_true_iff.
    split; [|done]. by apply (HasSuffix_exclusive f ".epub" ".azw3").
  - intros Hz. split.
    + by apply (HasSuffix_exclusive f ".azw3" ".kepub.epub").
    + by apply (HasSuffix_exclusive f ".azw3" "_advanced.epub").
  - intros Hk. by apply (HasSuffix_exclusive f ".kepub.epub" "_advanced.epub").
Qed.

Lemma FormatsTesters_exclusive f k1 k2 t1 t2 :
  FormatsTesters !! k1 = Some t1 → FormatsTesters !! k2 = Some t2 →
  t1 f = true → t2 f = true → k1 = k2.
Proof.
  intros H1 H2 Ht1 Ht2.
  destruct (testers_exclusive f) as (He & Ha & Hk).
  apply FormatsTesters_lookup in H1, H2.
  destruct H1 as [[-> ->]|[[-> ->]|[[-> ->]|[-> ->]]]];
    destruct H2 as [[-> ->]|[[-> ->]|[[-> ->]|[-> ->]]]]; try reflexivity; exfalso;
    repeat match goal with
    | I : ?a = true → _, X : ?a = true |- _ => specialize (I X)
    | X : _ ∧ _ |- _ => destruct X
    | X : ?a = true, Y : ?a = false |- _ => rewrite X in Y; discriminate Y
    end.
Qed.
Lemma matchingFormats_elem f k :
  k ∈ matchingFormats f ↔ ∃ t, FormatsTesters !! k = Some t ∧ t f = true.
Proof.
  unfold matchingFormats. rewrite list_elem_of_fmap. split.
  - intros ([k' t] & -> & Hkt). apply elem_of_map_to_list in Hkt.
    apply map_lookup_filter_Some in Hkt as [Hk Ht]. by exists t.
  - intros (t & Hk & Ht). exists (k, t). split; [reflexivity|].
    apply elem_of_map_to_list, map_lookup_filter_Some. split; assumption.
Qed.
(** C1. For every filename the format testers accept it under at most one
    format name (exactly one format or none): two names whose testers both
    accept it are the same name; and a filename with the [.azw3] or the
    [_advanced.epub] suffix is never accepted as plain [epub]. *)
Theorem format_testers_exclusive (f : string) :
  length (matchingFormats f) ≤ 1
  ∧ (∀ k1 k2 t1 t2, FormatsTesters !! k1 = Some t1 → FormatsTesters !! k2 = Some t2 →
       t1 f = true → t2 f = true → k1 = k2)
  ∧ (test_azw3 f || test_aepub f) && test_epub f = false.
Proof.
  split; [|split].
  - assert (NoDup (matchingFormats f)) as Hnd by apply NoDup_fst_map_to_list.
    pose proof (matchingFormats_elem f) as Hel.
    destruct (matchingFormats f) as [|a [|b l]]; simpl; [lia..|].
    exfalso. apply NoDup_cons in Hnd as [Hnotin _]. apply Hnotin.
    destruct (proj1 (Hel a)) as (ta & Ha & Hta); [by left|].
    destruct (proj1 (Hel b)) as (tb & Hb & Htb); [right; by left|].
    rewrite (FormatsTesters_exclusive f a b ta tb Ha Hb Hta Htb). by left.
  - apply FormatsTesters_exclusive.
  - destruct (testers_exclusive f) as (He & _).
    destruct (test_epub f) eqn:E; [|by rewrite andb_false_r].
    destruct (He eq_refl) as (-> & _ & ->). reflexivity.
Qed.

(** ** The constructor of the ebook parser *)

Lemma collectTesters_spec l acc :
  match collectTesters l acc with
  | inl ts => ∃ fs, ts = acc ++ fs ∧ Forall2 (λ t f, FormatsTesters !! t = Some f) l fs
  | inr msg => ∃ before ext after,
      l = before ++ ext :: after ∧ Forall supported before
      ∧ FormatsTesters !! ext = None ∧ msg = unsupportedError ext
  end.
Proof.
  revert acc. induction l as [|t l IH]; intros acc; simpl.
  - exists []. split; [by rewrite app_nil_r|constructor].
  - destruct (FormatsTesters !! t) as [f|] eqn:Et.
    + specialize (IH (acc ++ [f])).
      destruct (collectTesters l (acc ++ [f])) as [ts|msg].
      * destruct IH as (fs & -> & Hfs). exists (f :: fs). split.
        -- by rewrite <- app_assoc.
        -- constructor; assumption.
      * destruct IH as (before & ext & after & -> & Hb & Hext & ->).
        exists (t :: before), ext, after. repeat split; try assumption.
        constructor; [|assumption]. unfold supported. rewrite Et. eauto.
    + exists [], t, l. repeat split; [constructor|assumption].
Qed.


Example NewEbookPageParser_ex :
  NewEbookPageParser "epub,kepub" = inl {| extensionsTesters := [test_epub; test_kepub] |}
  ∧ NewEbookPageParser "epub,mobi,pdf" = inr ("the extension " +:+ dquote +:+ "mobi" +:+ dquote +:+ " is not supported")
  ∧ NewEbookPageParser EmptyString = inr (unsupportedError EmptyString).
Proof. repeat split; vm_compute; reflexivity. Qed.

(** X22. The older constructor behaves alike on its own format names: the
    first field that is none of [epub], [azw3], [kepub], [epub3] is quoted
    in the error. *)
Lemma legacy_NewEbookPageParser_unsupported (extensions : string) :
  match Legacy.NewEbookPageParser extensions with
  | inl p => Forall2 (λ t suffix, Legacy.suffixOf t = Some suffix)
               (Split_comma extensions) (Legacy.extensions p)
  | inr msg => ∃ before ext after,
      Split_comma extensions = before ++ ext :: after
      ∧ Forall (λ t, is_Some (Legacy.suffixOf t)) before
      ∧ Legacy.suffixOf ext = None
      ∧ msg = "the extension " +:+ dquote +:+ ext +:+ dquote +:+ " is not supported"
  end.
Proof.
  unfold Legacy.NewEbookPageParser.
  induction (Split_comma extensions) as [|t l IH]; simpl; [constructor|].
  destruct (Legacy.suffixOf t) as [suffix|] eqn:Et.
  - destruct (Legacy.replaceBySuffix l) as [suffixes|msg]; simpl in *.
    + by constructor.
    + destruct IH as (before & ext & after & -> & Hb & Hext & ->).
      exists (t :: before), ext, after. repeat split; try done.
      constructor; [by rewrite Et|done].
  - exists [], t, l. repeat split; [constructor|done].
Qed.

(** The older [urlMatches] takes [book_advanced.epub] for a plain epub,
    and the older constructor does not know [aepub]: the four formats of
    the current parser are those of parsers.go. *)
Example legacy_urlMatches_ex :
  Legacy.NewEbookPageParser "epub" = inl {| Legacy.extensions := [".epub"] |}
  ∧ Legacy.urlMatches {| Legacy.extensions := [".epub"] |} "book.epub" = true
  ∧ Legacy.urlMatches {| Legacy.extensions := [".epub"] |} "book.kepub.epub" = false
  ∧ Legacy.urlMatches {| Legacy.extensions := [".epub"] |} "book_advanced.epub" = true
  ∧ Legacy.urlMatches {| Legacy.extensions := [".epub"] |} "/ebooks/a/b/downloads/b.epub" = true
  ∧ Legacy.NewEbookPageParser "epub,aepub"
    = inr ("the extension " +:+ dquote +:+ "aepub" +:+ dquote +:+ " is not supported").
Proof. repeat split; vm_compute; reflexivity. Qed.

(** ** The set of URLs *)

Section SetProofs.
Context `{U : UrlPkg}.

Lemma Add_app s us vs : Add s (us ++ vs) = Add (Add s us) vs.
Proof. unfold Add. simpl. by rewrite foldl_app. Qed.

(** [Add] lays the pairs of its arguments over the map, the last on top. *)
Lemma Add_union s us :
  set (Add s us) =
  list_to_map (reverse ((λ u, (URL_String u, u)) <$> us)) ∪ set s.
Proof.
  destruct s as [m]. unfold Add. simpl. revert m.
  induction us as [|u us IH]; intros m; simpl.
  - by rewrite (left_id_L ∅ (∪)).
  - rewrite IH, reverse_cons, list_to_map_app. simpl.
    rewrite <- (assoc_L (∪)). f_equal.
    rewrite insert_empty. apply insert_union_singleton_l.
Qed.

Lemma Add_idempotent s us : Add (Add s us) us = Add s us.
Proof.
  assert (∀ a b : URLSet, set a = set b → a = b) as Hext
    by (intros [a] [b]; simpl; congruence).
  apply Hext. rewrite (Add_union (Add s us)), (Add_union s).
  by rewrite (assoc_L (∪)), (idemp_L (∪)).
Qed.

Lemma Add_dom s us :
  dom (set (Add s us)) = list_to_set (URL_String <$> us) ∪ dom (set s).
Proof.
  destruct s as [m]. unfold Add. simpl. revert m.
  induction us as [|u us IH]; intros m; simpl.
  - by rewrite (left_id_L ∅ (∪)).
  - rewrite IH, dom_insert_L. set_solver.
Qed.

Lemma keyed_Add s us : keyed s → keyed (Add s us).
Proof.
  destruct s as [m]. unfold Add, keyed. simpl. revert m.
  induction us as [|u us IH]; intros m Hm; simpl; [done|].
  apply IH. intros k v. rewrite lookup_insert. case_decide; [|by apply Hm].
  intros [= <-]. done.
Qed.

(** The sets a run can build: batches added to a new set. *)
Lemma keyed_reachable (batches : list (list URL)) : keyed (foldl Add NewURLSet batches).
Proof.
  assert (∀ s, keyed s → keyed (foldl Add s batches)) as Hgen.
  { induction batches as [|b bs IH]; intros s Hs; simpl; [done|].
    apply IH. by apply keyed_Add. }
  apply Hgen. intros k u. unfold NewURLSet. simpl. by rewrite lookup_empty.
Qed.

Lemma dom_reachable (batches : list (list URL)) :
  dom (set (foldl Add NewURLSet batches)) = list_to_set (URL_String <$> concat batches).
Proof.
  assert (∀ s, dom (set (foldl Add s batches)) =
               list_to_set (URL_String <$> concat batches) ∪ dom (set s)) as Hgen.
  { induction batches as [|b bs IH]; intros s; simpl.
    - by rewrite (left_id_L ∅ (∪)).
    - rewrite IH, Add_dom, fmap_app, list_to_set_app_L. set_solver. }
  rewrite Hgen. unfold NewURLSet. simpl. rewrite dom_empty_L. set_solver.
Qed.

Lemma ToSlice_keys s : keyed s → URL_String <$> ToSlice s = (map_to_list (set s)).*1.
Proof.
  intros Hs. unfold ToSlice. rewrite <- list_fmap_compose.
  apply Forall_fmap_ext_1, Forall_forall. intros [k u] Hku.
  apply elem_of_map_to_list in Hku. simpl. by apply Hs.
Qed.

Lemma ToSlice_NoDup s : keyed s → NoDup (URL_String <$> ToSlice s).
Proof. intros Hs. rewrite ToSlice_keys by done. apply NoDup_fst_map_to_list. Qed.

Lemma ToSlice_elem s k :
  keyed s → k ∈ URL_String <$> ToSlice s ↔ k ∈ dom (set s).
Proof.
  intros Hs. rewrite ToSlice_keys by done. rewrite elem_of_dom, list_elem_of_fmap. split.
  - intros ([k' u] & -> & Hku). apply elem_of_map_to_list in Hku. by exists u.
  - intros [u Hu]. exists (k, u). split; [done|]. by apply elem_of_map_to_list.
Qed.

Lemma count_one {A} (f : A → string) (k : string) (l : list A) :
  NoDup (f <$> l) → k ∈ f <$> l → length (filter (λ x, f x = k) l) = 1.
Proof.
  induction l as [|x l IH]; simpl; intros Hnd Hk.
  - by apply elem_of_nil in Hk.
  - apply NoDup_cons in Hnd as [Hx Hnd]. rewrite filter_cons.
    destruct (decide (f x = k)) as [<-|Hne]; simpl.
    + f_equal. destruct (filter (λ y, f y = f x) l) as [|y l'] eqn:E; [done|].
      exfalso. assert (y ∈ filter (λ y, f y = f x) l) as Hy by (rewrite E; left).
      apply list_elem_of_filter in Hy as [Hfy Hy]. apply Hx. rewrite <- Hfy.
      by apply list_elem_of_fmap_2.
    + apply IH; [done|]. apply elem_of_cons in Hk as [Hk|Hk]; [congruence|done].
Qed.

(** C9. [Add] is idempotent: adding the same URLs again changes nothing.
    In a set built by [Add] from a new set, a string form added twice has
    one member; the string forms of [ToSlice] are without repeats (no two
    entries share a string form) and are, up to order, the distinct string
    forms added, so [ToSlice] has as many entries as there are distinct
    string forms. *)
Theorem URLSet_Add_idempotent (batches : list (list URL)) (us : list URL) (u u' : URL) :
  let uset := foldl Add NewURLSet batches in
  Add (Add uset us) us = Add uset us
  ∧ Add uset [u; u] = Add uset [u]
  ∧ (URL_String u = URL_String u' →
       length (filter (λ x, URL_String x = URL_String u) (ToSlice (Add (Add uset [u]) [u']))) = 1
       ∧ ToSlice (Add (Add NewURLSet [u]) [u']) = [u'])
  ∧ NoDup (URL_String <$> ToSlice uset)
  ∧ URL_String <$> ToSlice uset ≡ₚ remove_dups (URL_String <$> concat batches)
  ∧ length (ToSlice uset) = length (remove_dups (URL_String <$> concat batches)).
Proof.
  intros uset.
  assert (keyed uset) as Hkeyed by apply keyed_reachable.
  assert (URL_String <$> ToSlice uset ≡ₚ remove_dups (URL_String <$> concat batches)) as Hperm.
  { apply NoDup_Permutation.
    - by apply ToSlice_NoDup.
    - apply NoDup_remove_dups.
    - intros k. rewrite ToSlice_elem by done. unfold uset.
      by rewrite dom_reachable, elem_of_list_to_set, elem_of_remove_dups. }
  repeat split.
  - apply Add_idempotent.
  - change [u; u] with ([u] ++ [u]). rewrite Add_app. apply Add_idempotent.
  - assert (keyed (Add (Add uset [u]) [u'])) as Hk by by do 2 apply keyed_Add.
    apply count_one; [by apply ToSlice_NoDup|].
    apply ToSlice_elem; [done|]. rewrite !Add_dom. set_solver.
  - rename select (URL_String u = _) into Heq.
    unfold Add, ToSlice, NewURLSet. simpl. rewrite Heq, insert_insert_eq.
    by rewrite insert_empty, map_to_list_singleton.
  - by apply ToSlice_NoDup.
  - done.
  - rewrite <- (length_fmap URL_String). by rewrite Hperm.
Qed.

End SetProofs.

(** ** The page parsers *)

(** Structural induction on parse trees. *)
Lemma Node_ind' (P : Node → Prop) :
  (∀ t d a cs, Forall P cs → P (MkNode t d a cs)) → ∀ n, P n.
Proof.
  intros Hstep. fix IH 1. intros [t d a cs]. apply Hstep.
  induction cs as [|c cs IHcs]; constructor; [apply IH|exact IHcs].
Qed.

Section WalkProofs.
Context `{U : UrlPkg}.
Variable gate : list Node → Node → option bool.
Variable want : Attribute → bool.

Lemma walkTree_unfold path n st :
  walkTree gate want path n st =
  match gate path n with
  | None => Panic
  | Some g =>
      let '(st1, returned) := if g then walkAttrs want (Attr n) st else (st, false) in
      if returned then Done st1 else walkChildren gate want (n :: path) (Children n) st1
  end.
Proof.
  destruct n as [t d a cs]. simpl. destruct (gate path (MkNode t d a cs)) as [g|]; [|done].
  destruct (if g then walkAttrs want a st else (st, false)) as [st1 [|]]; [done|].
  generalize (MkNode t d a cs :: path) st1. intros path'.
  induction cs as [|c cs IH]; intros st2; simpl; [done|].
  destruct (walkTree gate want path' c st2); auto.
Qed.

Lemma walked_nil st : walked [] st st false.
Proof. exists []. rewrite app_nil_r. repeat split; constructor. Qed.

Lemma walked_app hs1 hs2 st st1 st2 f1 f2 :
  walked hs1 st st1 f1 → walked hs2 st1 st2 f2 → walked (hs1 ++ hs2) st st2 (f1 || f2).
Proof.
  intros (new1 & E1 & S1 & R1) (new2 & E2 & S2 & R2).
  exists (new1 ++ new2). split; [|split].
  - by rewrite E2, E1, app_assoc.
  - apply Forall_app. split; (eapply Forall_impl; [eassumption|]);
      intros u (h & Hh & Hu); exists h; (split; [set_solver|done]).
  - destruct f2; simpl.
    + rewrite orb_true_r. destruct R2 as (h & e & Hh & He & Herr).
      exists h, e. split; [set_solver|done].
    + rewrite orb_false_r. destruct R2 as [Herr R2]. destruct f1.
      * destruct R1 as (h & e & Hh & He & Herr1). exists h, e.
        split; [set_solver|]. split; [done|congruence].
      * destruct R1 as [Herr1 R1]. split; [congruence|]. by apply Forall2_app.
Qed.

(** A traversal that returned early has not seen the hrefs that follow. *)
Lemma walked_early hs1 hs2 st st1 : walked hs1 st st1 true → walked (hs1 ++ hs2) st st1 true.
Proof.
  intros (new1 & E1 & S1 & h & e & Hh & He & Herr). exists new1. split; [done|]. split.
  - eapply Forall_impl; [eassumption|]. intros u (h' & Hh' & Hu). exists h'. split; [set_solver|done].
  - exists h, e. split; [set_solver|done].
Qed.

Lemma walkAttrs_walked attrs st :
  walked (Val <$> filter (λ a, want a = true) attrs) st
    (walkAttrs want attrs st).1 (walkAttrs want attrs st).2.
Proof.
  revert st. induction attrs as [|attr rest IH]; intros st; simpl.
  - apply walked_nil.
  - rewrite filter_cons. destruct (want attr) eqn:Ew.
    + rewrite decide_True by done. rewrite fmap_cons.
      destruct (url_Parse (Val attr)) as [newURL|e] eqn:Ep; simpl.
      * change (Val attr :: ?l) with ([Val attr] ++ l).
        replace ((walkAttrs want rest _).2) with (false || (walkAttrs want rest
          {| finalUrls := finalUrls st ++ [newURL]; err := err st |}).2) by done.
        eapply walked_app; [|apply IH].
        exists [newURL]. simpl. repeat split; [|by repeat constructor].
        constructor; [|constructor]. exists (Val attr). split; [left|done].
      * exists []. simpl. rewrite app_nil_r. repeat split; [constructor|].
        exists (Val attr), e. split; [left|done].
    + rewrite decide_False by done. apply IH.
Qed.

Lemma selected_unfold path n :
  selected gate want path n
  = picked gate want path n ++ flat_map (selected gate want (n :: path)) (Children n).
Proof.
  destruct n as [t d a cs]. unfold selected at 1. simpl. f_equal.
  generalize (MkNode t d a cs :: path). intros path'.
  induction cs as [|c cs IH]; simpl; [done|].
  rewrite flat_map_app. by rewrite IH.
Qed.

Lemma walkTree_walked n :
  ∀ path st st', walkTree gate want path n st = Done st' → ∃ f, walked (selected gate want path n) st st' f.
Proof.
  induction n as [t d a cs IHcs] using Node_ind'. intros path st st'.
  rewrite walkTree_unfold, selected_unfold. unfold picked.
  set (n := MkNode t d a cs). destruct (gate path n) as [g|]; [|done].
  assert (∀ cs' path' st1 st2, Forall (λ c, ∀ path st st', walkTree gate want path c st = Done st' →
              ∃ f, walked (selected gate want path c) st st' f) cs' →
            walkChildren gate want path' cs' st1 = Done st2 →
            ∃ f, walked (flat_map (selected gate want path') cs') st1 st2 f) as Hkids.
  { clear. intros cs' path'. induction cs' as [|c cs' IH]; intros st1 st2 Hall; simpl.
    - intros [= <-]. exists false. apply walked_nil.
    - apply Forall_cons in Hall as [Hc Hall].
      destruct (walkTree gate want path' c st1) as [st1'| | |] eqn:Ec; try done. intros Hrest.
      destruct (Hc _ _ _ Ec) as [f1 H1]. destruct (IH _ _ Hall Hrest) as [f2 H2].
      exists (f1 || f2). by eapply walked_app. }
  destruct g.
  - pose proof (walkAttrs_walked a st) as Hattrs. simpl.
    destruct (walkAttrs want a st) as [st1 [|]]; simpl in *.
    + intros [= <-]. exists true. by apply walked_early.
    + intros Hrest. destruct (Hkids _ _ _ _ IHcs Hrest) as [f2 H2].
      exists (false || f2). by eapply walked_app.
  - simpl. intros Hrest. destruct (Hkids _ _ _ _ IHcs Hrest) as [f2 H2]. by exists f2.
Qed.

(** A traversal whose test never panics returns. *)
Lemma walkTree_returns n :
  ∀ path st, (∀ pn, pn ∈ nodesWithPath path n → gate pn.1 pn.2 ≠ None) →
             ∃ st', walkTree gate want path n st = Done st'.
Proof.
  induction n as [t d a cs IHcs] using Node_ind'. intros path st Hgate.
  rewrite walkTree_unfold. set (n := MkNode t d a cs) in *.
  destruct (gate path n) as [g|] eqn:Eg.
  2:{ exfalso. apply (Hgate (path, n)); [|done]. simpl. left. }
  destruct (if g then walkAttrs want (Attr n) st else (st, false)) as [st1 [|]]; [by eexists|].
  assert (∀ pn c, c ∈ cs → pn ∈ nodesWithPath (n :: path) c → gate pn.1 pn.2 ≠ None) as Hsub.
  { intros pn c Hc Hpn. apply Hgate. simpl. right. apply list_elem_of_In, in_flat_map.
    exists c. split; by apply list_elem_of_In. }
  simpl. clearbody n. clear Eg Hgate. revert st1.
  induction cs as [|c cs IH]; intros st1; simpl; [by eexists|].
  apply Forall_cons in IHcs as [Hc Hall].
  destruct (Hc (n :: path) st1) as [st2 ->]; [intros pn; apply Hsub; left|].
  apply IH; [done|]. intros pn c' Hc'. apply Hsub. by right.
Qed.

Lemma walked_all_parsed hs st st' f :
  walked hs st st' f → Forall (λ h, ∃ u, url_Parse h = inl u) hs →
  err st' = err st ∧ ∃ new, finalUrls st' = finalUrls st ++ new
                            ∧ Forall2 (λ h u, url_Parse h = inl u) hs new.
Proof.
  intros (new & E & S & R) Hall. destruct f.
  - destruct R as (h & e & Hh & He & _). rewrite Forall_forall in Hall.
    destruct (Hall h Hh) as [u Hu]. congruence.
  - destruct R as [Herr R]. split; [done|]. by exists new.
Qed.

Lemma walked_refused hs st st' f :
  walked hs st st' f → Exists (λ h, ∃ e, url_Parse h = inr e) hs →
  ∃ h e, h ∈ hs ∧ url_Parse h = inr e ∧ err st' = Some (hrefError h e).
Proof.
  intros (new & E & S & R) Hex. destruct f; [done|].
  destruct R as [_ R]. apply Exists_exists in Hex as (h & Hh & e & He).
  apply list_elem_of_lookup in Hh as [i Hi].
  destruct (Forall2_lookup_l _ _ _ _ _ R Hi) as (u & _ & Hu). congruence.
Qed.

Lemma walked_no_error hs st st' f :
  walked hs st st' f → err st' = None →
  ∃ new, finalUrls st' = finalUrls st ++ new ∧ Forall2 (λ h u, url_Parse h = inl u) hs new.
Proof.
  intros (new & E & S & R) Herr. destruct f.
  - destruct R as (h & e & _ & _ & Herr'). congruence.
  - destruct R as [_ R]. by exists new.
Qed.

Lemma walked_sound hs st st' f u :
  walked hs st st' f → finalUrls st = [] → u ∈ finalUrls st' →
  ∃ h, h ∈ hs ∧ url_Parse h = inl u.
Proof.
  intros (new & E & S & _) Hnil Hu. rewrite E, Hnil in Hu. simpl in Hu.
  rewrite Forall_forall in S. by apply S.
Qed.

End WalkProofs.

Section ParserProofs.
Context `{U : UrlPkg} `{H : HtmlPkg}.

Lemma ebookAttrs_walk ebookParser attrs st :
  ebookAttrs ebookParser attrs st = walkAttrs (ebookWant ebookParser) attrs st.
Proof.
  revert st. induction attrs as [|a rest IH]; intros st; simpl; [done|].
  unfold ebookWant at 1. destruct (_ && _); [|apply IH].
  destruct (url_Parse (Val a)); [apply IH|done].
Qed.

Lemma ebookParseF_walk ebookParser n :
  ∀ path st, walkTree ebookGate (ebookWant ebookParser) path n st
             = Done (ebookParseF ebookParser n st).
Proof.
  induction n as [t d a cs IHcs] using Node_ind'. intros path st.
  set (n := MkNode t d a cs). simpl. fold n. rewrite <- ebookAttrs_walk.
  destruct (if isAnchor n then ebookAttrs ebookParser a st else (st, false)) as [st1 [|]];
    [done|].
  generalize (n :: path). intros path'. clearbody n. revert st1.
  induction cs as [|c cs IH]; intros st1; [done|].
  apply Forall_cons in IHcs as [Hc Hall]. rewrite Hc. by apply IH.
Qed.

Lemma linkAttrs_walk attrs st : linkAttrs attrs st = walkAttrs linkWant attrs st.
Proof.
  revert st. induction attrs as [|a rest IH]; intros st; simpl; [done|].
  unfold linkWant at 1. destruct (String.eqb _ _); [|apply IH].
  destruct (url_Parse (Val a)); [apply IH|done].
Qed.

Lemma collectionParseF_walk n :
  ∀ path st, collectionParseF path n st = walkTree linkGate linkWant path n st.
Proof.
  induction n as [t d a cs IHcs] using Node_ind'. intros path st.
  set (n := MkNode t d a cs). simpl. fold n. unfold linkGate at 1.
  destruct (isAnchor n).
  - destruct (inListItemParagraph path) as [[|]|]; [| |done].
    + rewrite <- linkAttrs_walk. destruct (linkAttrs a st) as [st1 [|]]; [done|].
      generalize (n :: path). intros path'. clearbody n. revert st1.
      induction cs as [|c cs IH]; intros st1; [done|].
      apply Forall_cons in IHcs as [Hc Hall]. rewrite Hc.
      destruct (walkTree linkGate linkWant path' c st1); try done. by apply IH.
    + generalize (n :: path). intros path'. clearbody n. revert st.
      induction cs as [|c cs IH]; intros st1; [done|].
      apply Forall_cons in IHcs as [Hc Hall]. rewrite Hc.
      destruct (walkTree linkGate linkWant path' c st1); try done. by apply IH.
  - generalize (n :: path). intros path'. clearbody n. revert st.
    induction cs as [|c cs IH]; intros st1; [done|].
    apply Forall_cons in IHcs as [Hc Hall]. rewrite Hc.
    destruct (walkTree linkGate linkWant path' c st1); try done. by apply IH.
Qed.

(** The author parser is the collection parser, word for word. *)
Lemma authorParseF_collection : authorParseF = collectionParseF.
Proof. reflexivity. Qed.

Lemma AuthorPageParser_Parse_collection htmlReader :
  AuthorPageParser_Parse htmlReader = CollectionPageParser_Parse htmlReader.
Proof. reflexivity. Qed.

(** The paths of the nodes below [n0] end with [n0] and the path to it. *)
Lemma nodesWithPath_paths n0 :
  ∀ path0 p n, (p, n) ∈ nodesWithPath path0 n0 →
               (p = path0 ∧ n = n0) ∨ ∃ pre, p = pre ++ n0 :: path0.
Proof.
  induction n0 as [t d a cs IHcs] using Node_ind'. intros path0 p n.
  set (n0 := MkNode t d a cs) in *. simpl. fold n0.
  intros [[= -> ->]|Hin]%elem_of_cons; [by left|]. right.
  apply list_elem_of_In, in_flat_map in Hin as (c & Hc%list_elem_of_In & Hin%list_elem_of_In).
  rewrite Forall_forall in IHcs.
  destruct (IHcs c Hc _ _ _ Hin) as [[-> ->]|[pre ->]].
  - by exists [].
  - exists (pre ++ [c]). by rewrite <- app_assoc.
Qed.

Lemma inListItemParagraph_true path :
  inListItemParagraph path = Some true ↔
  ∃ parent grand above, path = parent :: grand :: above
    ∧ Type_ parent = ElementNode ∧ Data parent = "p" ∧ Attr parent = []
    ∧ Type_ grand = ElementNode ∧ Data grand = "li".
Proof.
  unfold inListItemParagraph. split.
  - destruct path as [|parent [|grand above]]; [done| |].
    + by destruct (_ && _).
    + destruct (bool_decide (Type_ parent = ElementNode) && String.eqb (Data parent) "p"
                && (length (Attr parent) =? 0)) eqn:Ep; [|done].
      intros [= Eg]. apply andb_true_iff in Ep as [[Hpt Hpd]%andb_true_iff Hpa].
      apply andb_true_iff in Eg as [Hgt Hgd].
      exists parent, grand, above. repeat split.
      * by apply bool_decide_eq_true in Hpt.
      * by apply String.eqb_eq.
      * apply Nat.eqb_eq in Hpa. by apply nil_length_inv.
      * by apply bool_decide_eq_true in Hgt.
      * by apply String.eqb_eq.
  - intros (parent & grand & above & -> & Hpt & Hpd & Hpa & Hgt & Hgd).
    rewrite Hpt, Hpd, Hpa, Hgt, Hgd. done.
Qed.

(** Below a document node the test never dereferences a nil pointer: the
    root is no element, and every other node has a parent; where the parent
    is a paragraph element it has a parent too. *)
Lemma linkGate_document doc pn :
  Type_ doc = DocumentNode → pn ∈ nodesWithPath [] doc → linkGate pn.1 pn.2 ≠ None.
Proof.
  intros Hdoc Hpn. destruct pn as [p n]. simpl. unfold linkGate.
  destruct (isAnchor n) eqn:Ea; [|done].
  destruct (nodesWithPath_paths doc [] p n Hpn) as [[-> ->]|[pre ->]].
  - unfold isAnchor in Ea. rewrite Hdoc in Ea. done.
  - unfold inListItemParagraph. destruct pre as [|parent [|grand pre]]; simpl.
    + rewrite Hdoc. done.
    + by destruct (_ && _).
    + by destruct (_ && _).
Qed.

Lemma elem_of_selected gate want path0 doc h :
  h ∈ selected gate want path0 doc ↔
  ∃ path n, (path, n) ∈ nodesWithPath path0 doc ∧ h ∈ picked gate want path n.
Proof.
  unfold selected. rewrite list_elem_of_In, in_flat_map. split.
  - intros ([path n] & Hin%list_elem_of_In & Hh%list_elem_of_In). by exists path, n.
  - intros (path & n & Hin & Hh). exists (path, n). by rewrite <- !list_elem_of_In.
Qed.

(** The hrefs the collection and author parsers select: those of the
    anchors in a paragraph without attributes in a list item. *)
Lemma link_picked path n h :
  h ∈ picked linkGate linkWant path n ↔ listItemLink path n ∧ h ∈ hrefsOf n.
Proof.
  unfold picked, linkGate, listItemLink, hrefsOf, linkWant.
  rewrite <- inListItemParagraph_true. destruct (isAnchor n).
  - destruct (inListItemParagraph path) as [[|]|] eqn:Ep.
    + naive_solver.
    + split; [by intros ?%elem_of_nil|]. by intros [[_ [=]] _].
    + split; [by intros ?%elem_of_nil|]. by intros [[_ [=]] _].
  - split; [by intros ?%elem_of_nil|]. by intros [[[=] _] _].
Qed.


(** The hrefs the ebook parser selects: those of the anchors that an active
    format accepts. *)
Lemma ebook_selected ebookParser doc :
  selected ebookGate (ebookWant ebookParser) [] doc
  = filter (λ h, urlMatches ebookParser h = true) (anchorHrefs doc).
Proof.
  unfold selected, anchorHrefs. induction (nodesWithPath [] doc) as [|[path n] l IH]; [done|].
  simpl. rewrite filter_app, IH. f_equal.
  unfold picked, ebookGate, hrefsOf, ebookWant. destruct (isAnchor n); [|done].
  induction (Attr n) as [|a attrs IHa]; [done|].
  rewrite !filter_cons. destruct (String.eqb (Key a) "href") eqn:Ek; simpl.
  - rewrite filter_cons.
    destruct (urlMatches ebookParser (Val a)) eqn:Em; simpl; [f_equal|]; exact IHa.
  - exact IHa.
Qed.

Lemma EbookPageParser_Parse_walked ebookParser htmlReader doc :
  html_Parse htmlReader = inl doc →
  ∃ st' f, EbookPageParser_Parse ebookParser htmlReader = (finalUrls st', err st')
    ∧ walked (filter (λ h, urlMatches ebookParser h = true) (anchorHrefs doc))
        {| finalUrls := []; err := None |} st' f.
Proof.
  intros Hparse. unfold EbookPageParser_Parse. rewrite Hparse.
  set (st0 := {| finalUrls := []; err := None |}).
  exists (ebookParseF ebookParser doc st0).
  destruct (walkTree_walked ebookGate (ebookWant ebookParser) doc [] st0
              (ebookParseF ebookParser doc st0)) as [f Hw]; [apply ebookParseF_walk|].
  exists f. split; [done|]. by rewrite <- ebook_selected.
Qed.

(** A parser made from supported names accepts what the tester of one of
    the names accepts. *)
Lemma urlMatches_testers tokens ts h :
  Forall2 (λ t f, FormatsTesters !! t = Some f) tokens ts →
  urlMatches {| extensionsTesters := ts |} h = true ↔
  ∃ t f, t ∈ tokens ∧ FormatsTesters !! t = Some f ∧ f h = true.
Proof.
  intros Hall. unfold urlMatches. simpl. rewrite existsb_exists. split.
  - intros (f & Hf%list_elem_of_In & Hfh). apply list_elem_of_lookup in Hf as [i Hi].
    destruct (Forall2_lookup_r _ _ _ _ _ Hall Hi) as (t & Ht & Hlook).
    exists t, f. split; [|done]. apply list_elem_of_lookup. by exists i.
  - intros (t & f & Ht & Hlook & Hfh). apply list_elem_of_lookup in Ht as [i Hi].
    destruct (Forall2_lookup_l _ _ _ _ _ Hall Hi) as (f' & Hf' & Hlook').
    assert (Some f' = Some f) as [= ->]
      by (transitivity (FormatsTesters !! t); [symmetry; exact Hlook'|exact Hlook]).
    exists f. split; [|done]. apply list_elem_of_In, list_elem_of_lookup. by exists i.
Qed.

(** C3. A document whose anchors carry the hrefs [book.epub],
    [book.kepub.epub], [book.azw3] and [book_advanced.epub], in this order:
    a parser made with the four formats active (in any order) returns the
    four links, a parser made with [epub] alone returns the first only. *)
Theorem ebook_parser_four_formats (htmlReader : Reader) (doc : Node) (formats : string)
    (u1 u2 u3 u4 : URL) :
  html_Parse htmlReader = inl doc →
  anchorHrefs doc = ["book.epub"; "book.kepub.epub"; "book.azw3"; "book_advanced.epub"] →
  url_Parse "book.epub" = inl u1 → url_Parse "book.kepub.epub" = inl u2 →
  url_Parse "book.azw3" = inl u3 → url_Parse "book_advanced.epub" = inl u4 →
  Split_comma formats ≡ₚ ["epub"; "azw3"; "kepub"; "aepub"] →
  ∃ all4 only,
    NewEbookPageParser formats = inl all4
    ∧ NewEbookPageParser "epub" = inl only
    ∧ EbookPageParser_Parse all4 htmlReader = ([u1; u2; u3; u4], None)
    ∧ EbookPageParser_Parse only htmlReader = ([u1], None).
Proof.
  intros Hparse Hhrefs H1 H2 H3 H4 Hperm.
  (* the parser with the four formats *)
  pose proof (collectTesters_spec (Split_comma formats) []) as Hspec.
  unfold NewEbookPageParser.
  destruct (collectTesters (Split_comma formats) []) as [ts|msg].
  2:{ exfalso. destruct Hspec as (before & ext & after & E & _ & Hext & _).
      assert (ext ∈ Split_comma formats) as Hin by (rewrite E; set_solver).
      rewrite Hperm in Hin.
      repeat (apply elem_of_cons in Hin as [->|Hin]; [by vm_compute in Hext|]).
      by apply elem_of_nil in Hin. }
  destruct Hspec as (fs & -> & Hfs). simpl in *.
  exists {| extensionsTesters := fs |}, {| extensionsTesters := [test_epub] |}.
  split; [done|]. split; [reflexivity|].
  assert (∀ t f h, t ∈ ["epub"; "azw3"; "kepub"; "aepub"] → FormatsTesters !! t = Some f →
            f h = true → urlMatches {| extensionsTesters := fs |} h = true) as Hall4.
  { intros t f h Ht Hlook Hfh. apply (urlMatches_testers _ _ _ Hfs).
    exists t, f. by rewrite Hperm. }
  assert (Forall (λ h, ∃ u, url_Parse h = inl u)
            ["book.epub"; "book.kepub.epub"; "book.azw3"; "book_advanced.epub"]) as Hok
    by (repeat constructor; eauto).
  split.
  - destruct (EbookPageParser_Parse_walked {| extensionsTesters := fs |} _ _ Hparse)
      as (st' & f & -> & Hw).
    rewrite Hhrefs in Hw.
    rewrite !filter_cons, filter_nil in Hw.
    rewrite (decide_True (P := urlMatches _ "book.epub" = true)) in Hw
      by (apply (Hall4 "epub" test_epub); [set_solver|reflexivity..]).
    rewrite (decide_True (P := urlMatches _ "book.kepub.epub" = true)) in Hw
      by (apply (Hall4 "kepub" test_kepub); [set_solver|reflexivity..]).
    rewrite (decide_True (P := urlMatches _ "book.azw3" = true)) in Hw
      by (apply (Hall4 "azw3" test_azw3); [set_solver|reflexivity..]).
    rewrite (decide_True (P := urlMatches _ "book_advanced.epub" = true)) in Hw
      by (apply (Hall4 "aepub" test_aepub); [set_solver|reflexivity..]).
    destruct (walked_all_parsed _ _ _ _ Hw Hok) as (-> & new & -> & Hnew).
    simpl. invert_Forall2. repeat f_equal; congruence.
  - destruct (EbookPageParser_Parse_walked {| extensionsTesters := [test_epub] |} _ _ Hparse)
      as (st' & f & -> & Hw).
    rewrite Hhrefs in Hw.
    assert (filter (λ h, urlMatches {| extensionsTesters := [test_epub] |} h = true)
              ["book.epub"; "book.kepub.epub"; "book.azw3"; "book_advanced.epub"]
            = ["book.epub"]) as Hfilter by reflexivity.
    rewrite Hfilter in Hw.
    destruct (walked_all_parsed _ _ _ _ Hw) as (-> & new & -> & Hnew);
      [repeat constructor; eauto|].
    simpl. invert_Forall2. repeat f_equal; congruence.
Qed.

End ParserProofs.

(** ** Regular expressions: what a match is *)

Lemma string_app_eq_nil s t : s +:+ t = EmptyString → s = EmptyString ∧ t = EmptyString.
Proof. destruct s; [done|]. by rewrite string_app_cons. Qed.

Lemma nullable_mono r : nullable false r = true → nullable true r = true.
Proof.
  induction r; simpl; try done.
  - intros [??]%andb_true_iff. apply andb_true_iff. auto.
  - intros [?|?]%orb_true_iff; apply orb_true_iff; auto.
Qed.

Lemma nullable_complete :
  ∀ r w rest, Matches r w rest → w = EmptyString → nullable (atEnd rest) r = true.
Proof.
  intros r0 w0 rest0 Hm.
  induction Hm as [ | | | | |a b w1 w2 rest Ha IHa _ IHb|a b w rest _ IH|a b w rest _ IH| |];
    intros E; simpl; try done.
  - apply string_app_eq_nil in E as [-> ->].
    rewrite string_app_nil_l in IHa. by rewrite IHa, IHb.
  - by rewrite IH.
  - rewrite IH by done. apply orb_true_r.
Qed.

Lemma deriv_complete :
  ∀ r w0 rest, Matches r w0 rest → ∀ c w, w0 = String c w → Matches (deriv c r) w rest.
Proof.
  intros r0 w0 rest0 Hm.
  induction Hm as [ |c' rest|c' rest Hc|ranges c' rest Hc| |a b w1 w2 rest Ha IHa Hb IHb
                   |a b w' rest _ IH|a b w' rest _ IH| |a w1 w2 rest Ha IHa Hs IHs];
    intros c w E; simpl; try done.
  - injection E as -> <-. rewrite Ascii.eqb_refl. constructor.
  - injection E as -> <-. apply Ascii.eqb_neq in Hc. rewrite Hc. constructor.
  - injection E as -> <-. rewrite Hc. constructor.
  - destruct w1 as [|c1 w1].
    + rewrite string_app_nil_l in E. subst w2.
      pose proof (nullable_complete _ _ _ Ha eq_refl) as Hn.
      rewrite string_app_cons in Hn. simpl in Hn. rewrite Hn.
      apply M_AltR. by apply IHb.
    + rewrite string_app_cons in E. injection E as -> <-.
      assert (Matches (Cat (deriv c a) b) (w1 +:+ w2) rest) as Hcat
        by (constructor; [by apply IHa|done]).
      destruct (nullable false a); [by apply M_AltL|done].
  - apply M_AltL. by apply IH.
  - apply M_AltR. by apply IH.
  - destruct w1 as [|c1 w1].
    + rewrite string_app_nil_l in E. by apply IHs.
    + rewrite string_app_cons in E. injection E as -> <-.
      constructor; [by apply IHa|done].
Qed.

Lemma matchHere_complete w : ∀ r rest, Matches r w rest → matchHere r (w +:+ rest) = true.
Proof.
  induction w as [|c w IH]; intros r rest Hm.
  - rewrite string_app_nil_l. pose proof (nullable_complete _ _ _ Hm eq_refl) as Hn.
    destruct rest; simpl in *; [done|]. by rewrite Hn.
  - rewrite string_app_cons. simpl. rewrite (IH (deriv c r) rest); [apply orb_true_r|].
    by eapply deriv_complete.
Qed.

(** The patterns are not anchored at the start: what is before a match
    does not matter. *)
Lemma MatchString_app_l re junk s :
  MatchString re s = true → MatchString re (junk +:+ s) = true.
Proof.
  intros Hs. induction junk as [|c junk IH]; [done|].
  rewrite string_app_cons. simpl. rewrite IH. apply orb_true_r.
Qed.

Lemma MatchString_complete re w : Matches re w EmptyString → MatchString re w = true.
Proof.
  intros Hm. apply matchHere_complete in Hm. rewrite string_app_nil_r in Hm.
  destruct w; simpl in *; by rewrite Hm.
Qed.

Lemma Matches_lit s k w rest : Matches k w rest → Matches (lit s k) (s +:+ w) rest.
Proof.
  intros Hk. induction s as [|c s IH]; [done|].
  simpl. rewrite string_app_cons. change (String c (s +:+ w)) with (String c EmptyString +:+ s +:+ w).
  constructor; [constructor|done].
Qed.

Lemma string_forall_app P s t :
  string_forall P (s +:+ t) = string_forall P s && string_forall P t.
Proof.
  induction s as [|c s IH]; [done|]. rewrite string_app_cons. simpl.
  by rewrite IH, andb_assoc.
Qed.

Lemma Matches_star_any w rest : noNewline w = true → Matches (Star AnyNotNL) w rest.
Proof.
  revert rest. induction w as [|c w IH]; intros rest Hw; [constructor|].
  simpl in Hw. apply andb_true_iff in Hw as [Hc Hw].
  change (String c w) with (String c EmptyString +:+ w). constructor; [|by apply IH].
  constructor. apply negb_true_iff, Ascii.eqb_neq in Hc. done.
Qed.

Lemma Matches_star_class ranges w rest :
  string_forall (λ c, inClass c ranges) w = true → Matches (Star (Class ranges)) w rest.
Proof.
  revert rest. induction w as [|c w IH]; intros rest Hw; [constructor|].
  simpl in Hw. apply andb_true_iff in Hw as [Hc Hw].
  change (String c w) with (String c EmptyString +:+ w). constructor; [|by apply IH].
  by constructor.
Qed.

Lemma Matches_slug slug rest :
  slug ≠ EmptyString → slugBytes slug = true → Matches (Plus slugClass) slug rest.
Proof.
  intros Hne Hs. destruct slug as [|c slug]; [done|].
  simpl in Hs. apply andb_true_iff in Hs as [Hc Hs].
  change (String c slug) with (String c EmptyString +:+ slug). constructor.
  - by constructor.
  - by apply Matches_star_class.
Qed.

Lemma Matches_tail w : noNewline w = true → Matches tailRegex w EmptyString.
Proof.
  intros Hw. rewrite <- (string_app_nil_r w). constructor.
  - rewrite string_app_nil_l. by apply Matches_star_any.
  - change EmptyString with (EmptyString +:+ EmptyString) at 1. constructor.
    + apply M_AltR. constructor.
    + constructor.
Qed.

Lemma slugBytes_noNewline s : slugBytes s = true → noNewline s = true.
Proof.
  unfold slugBytes, noNewline. induction s as [|c s IH]; [done|]. simpl.
  intros [Hc Hs]%andb_true_iff. rewrite IH by done. rewrite andb_true_r.
  apply negb_true_iff, Ascii.eqb_neq. intros ->. done.
Qed.

(** C5, as the code has it. A URL of the shape
    [https://standardebooks.org/ebooks/<slug>/...] whose slug is made of
    ASCII letters and dashes, at least one, and that holds no newline after
    the slug, takes the ebook branch, whatever the author pattern says of
    it: the ebook pattern is tested first.  The URL
    [https://standardebooks.org/ebooks/some-slug/] matches the author
    pattern too, and is an ebook page all the same. *)
Theorem ebook_shape_before_author (slug rest : string) :
  slug ≠ EmptyString → slugBytes slug = true → noNewline rest = true →
  classify ("https://standardebooks.org/ebooks/" +:+ slug +:+ "/" +:+ rest) = inl Ebook
  ∧ classify ("https://standardebooks.org/ebooks/" +:+ slug +:+ "/" +:+ rest) ≠ inl Author
  ∧ MatchString AuthorURLRegex "https://standardebooks.org/ebooks/some-slug/" = true
  ∧ classify "https://standardebooks.org/ebooks/some-slug/" = inl Ebook.
Proof.
  intros Hne Hslug Hrest.
  assert (classify ("https://standardebooks.org/ebooks/" +:+ slug +:+ "/" +:+ rest) = inl Ebook)
    as Hc.
  { unfold classify.
    assert (MatchString StandardEbooksMainRegex
              ("https://standardebooks.org/ebooks/" +:+ slug +:+ "/" +:+ rest) = true) as ->.
    { apply MatchString_complete.
      change StandardEbooksMainRegex with
        (lit "https://standardebooks" (Cat AnyNotNL (lit "org/" tailRegex))).
      change ("https://standardebooks.org/ebooks/" +:+ slug +:+ "/" +:+ rest) with
        ("https://standardebooks" +:+ "." +:+ "org/" +:+ "ebooks/" +:+ slug +:+ "/" +:+ rest).
      apply Matches_lit. constructor; [by constructor|].
      apply Matches_lit, Matches_tail. unfold noNewline in *.
      rewrite !string_forall_app. fold (noNewline slug).
      rewrite (slugBytes_noNewline slug Hslug), Hrest. reflexivity. }
    assert (MatchString EbookURLRegex
              ("https://standardebooks.org/ebooks/" +:+ slug +:+ "/" +:+ rest) = true) as ->.
    { apply MatchString_complete.
      change EbookURLRegex with
        (lit "https://standardebooks" (Cat AnyNotNL (lit "org/ebooks/"
           (Cat (Plus slugClass) (Cat (Chr "/") tailRegex))))).
      change ("https://standardebooks.org/ebooks/" +:+ slug +:+ "/" +:+ rest) with
        ("https://standardebooks" +:+ "." +:+ "org/ebooks/" +:+ slug +:+ "/" +:+ rest).
      apply Matches_lit. constructor; [by constructor|].
      apply Matches_lit. constructor; [by apply Matches_slug|].
      constructor; [constructor|]. by apply Matches_tail. }
    done. }
  split; [done|]. split; [by rewrite Hc|]. split; vm_compute; reflexivity.
Qed.

(** The page of a book is an ebook page. *)
Lemma ebook_shape_witness :
  classify ("https://standardebooks.org/ebooks/" +:+ "jane-austen" +:+ "/" +:+ "emma/text")
    = inl Ebook.
Proof.
  apply (ebook_shape_before_author "jane-austen" "emma/text"); [done|reflexivity..].
Defined.

(** ** The pace of the requests *)

Lemma Ready_Paced cut d w : Ready cut d w → Paced cut d (trace w).
Proof.
  intros (f & n & _ & _ & Hr). exists f, n, (trace w), [].
  rewrite app_nil_r. repeat split; [done|constructor].
Qed.

(** Rounds that may be cut short for fewer requests. *)
Lemma Rounds_mono (cut cut' : list Event → string → Prop) d f n tr :
  (∀ tr' url, cut tr' url → cut' tr' url) → Rounds cut d f n tr → Rounds cut' d f n tr.
Proof.
  intros Hcut. induction 1 as [|f n tr tw url tg tb ts Hr IH|f n tr tw url tg ts Hr IH Hc].
  - apply Rounds_nil.
  - by eapply Rounds_snoc.
  - eapply Rounds_cut; eauto.
Qed.

Lemma Paced_mono (cut cut' : list Event → string → Prop) d tr :
  (∀ tr' url, cut tr' url → cut' tr' url) → Paced cut d tr → Paced cut' d tr.
Proof.
  intros Hcut (f & n & rounds & last & -> & Hr & Hl). exists f, n, rounds, last.
  repeat split; [by eapply Rounds_mono|done].
Qed.

(** Rounds none of which is cut short. *)
Lemma Rounds_noCut_places d f n tr :
  Rounds noCut d f n tr →
  (∀ i url t, tr !! i = Some (EvGet url t) →
     ∃ j tw tb, i = S j ∧ tr !! j = Some (EvWait tw) ∧ (tw ≤ t)%Z
       ∧ tr !! S i = Some (EvBodyRead tb) ∧ (t ≤ tb)%Z ∧ (tb ≤ n)%Z ∧ (tb + d ≤ f)%Z)
  ∧ resetAfterRead d tr ∧ spaced d tr.
Proof.
  induction 1 as [|f n tr tw url tg tb ts Hr (IHa & IHb & IHc) Hf Hn Hwg Hgb Hbs
                  |f n tr tw url tg ts Hr _ Hcut]; [| |destruct Hcut].
  - split; [|split]; repeat intro;
      match goal with Hl : [] !! _ = Some _ |- _ => by rewrite lookup_nil in Hl end.
  - assert (∀ i e, tr !! i = Some e → i < length tr) as Hlt
      by (intros; by eapply lookup_lt_Some).
    split; [|split].
    + intros i url' t Hl. split_lookup Hl.
      * destruct (IHa _ _ _ Hl) as (j & tw' & tb' & -> & Hj & Hle & Hb & Htb & Hbn & Hbf).
        exists j, tw', tb'. repeat split; try done; try lia.
        -- by apply lookup_app_l_Some.
        -- by apply lookup_app_l_Some.
      * injection Hl as <- <-. exists (length tr), tw, tb.
        assert (i = S (length tr)) as -> by lia. repeat split; try lia.
        -- by rewrite lookup_app_r, Nat.sub_diag by lia.
        -- rewrite lookup_app_r by lia.
           by replace (S (S (length tr)) - length tr) with 2 by lia.
    + intros i t d' Hl. split_lookup Hl.
      * destruct (IHb _ _ _ Hl) as (-> & j & tb' & -> & Hj & Hle).
        split; [done|]. exists j, tb'. repeat split; try done. by apply lookup_app_l_Some.
      * injection Hl as <- <-. split; [done|]. exists (S (S (length tr))), tb.
        repeat split; try lia. rewrite lookup_app_r by lia.
        by replace (S (S (length tr)) - length tr) with 2 by lia.
    + intros i j url1 t1 url2 t2 Hij Hi Hj. split_lookup Hj.
      * assert (tr !! i = Some (EvGet url1 t1)) as Hi'.
        { apply Hlt in Hj as Hjlt. rewrite lookup_app_l in Hi by lia. done. }
        destruct (IHc _ _ _ _ _ _ Hij Hi' Hj) as (tb' & Hb & Hlt' & Hle & Hsp).
        exists tb'. repeat split; try done. by apply lookup_app_l_Some.
      * injection Hj as <- <-. assert (j = S (length tr)) as -> by lia.
        split_lookup Hi; [|lia..].
        destruct (IHa _ _ _ Hi) as (j' & tw' & tb' & -> & _ & _ & Hb & Htb & Hbn & Hbf).
        exists tb'. apply Hlt in Hb as Hblt. repeat split; try lia.
        by apply lookup_app_l_Some.
Qed.

Lemma Paced_noCut_places d tr :
  Paced noCut d tr → waitBeforeGet tr ∧ resetAfterRead d tr ∧ spaced d tr.
Proof.
  intros (f & n & rounds & last & -> & Hr & Hlast).
  destruct (Rounds_noCut_places d f n rounds Hr) as (Ha & Hb & Hc).
  assert (∀ i e, rounds !! i = Some e → i < length rounds) as Hlt
    by (intros; by eapply lookup_lt_Some).
  split; [|split].
  - intros i url t Hl. apply lookup_app_Some in Hl as [Hl|[Hge Hl]].
    + destruct (Ha _ _ _ Hl) as (j & tw & tb & -> & Hj & Hle & _).
      exists j, tw. repeat split; try done. by apply lookup_app_l_Some.
    + destruct Hlast as [|tw url' tg|tw url' tg tb];
        [by rewrite lookup_nil in Hl|..];
        (destruct (i - length rounds) as [|[|[|?]]] eqn:E; simpl in Hl; try discriminate Hl;
         injection Hl as <- <-; exists (length rounds), tw;
         assert (i = S (length rounds)) as -> by lia; repeat split; try lia;
         by rewrite lookup_app_r, Nat.sub_diag by lia).
  - intros i t d' Hl. apply lookup_app_Some in Hl as [Hl|[Hge Hl]].
    + destruct (Hb _ _ _ Hl) as (-> & j & tb & -> & Hj & Hle).
      split; [done|]. exists j, tb. repeat split; try done. by apply lookup_app_l_Some.
    + destruct Hlast as [|tw url' tg|tw url' tg tb];
        [by rewrite lookup_nil in Hl|..];
        by destruct (i - length rounds) as [|[|[|?]]].
  - intros i j url1 t1 url2 t2 Hij Hi Hj. apply lookup_app_Some in Hj as [Hj|[Hge Hj]].
    + assert (rounds !! i = Some (EvGet url1 t1)) as Hi'.
      { apply Hlt in Hj as Hjlt. rewrite lookup_app_l in Hi by lia. done. }
      destruct (Hc _ _ _ _ _ _ Hij Hi' Hj) as (tb' & Hb' & Hlt' & Hle & Hsp).
      exists tb'. repeat split; try done. by apply lookup_app_l_Some.
    + assert (j = S (length rounds) ∧ (f ≤ t2)%Z) as [-> Hft].
      { destruct Hlast as [|tw url' tg|tw url' tg tb];
          [by rewrite lookup_nil in Hj|..];
          (destruct (j - length rounds) as [|[|[|?]]] eqn:E; simpl in Hj;
           try discriminate Hj; injection Hj as <- <-; split; lia). }
      assert (rounds !! i = Some (EvGet url1 t1)) as Hi'.
      { apply lookup_app_Some in Hi as [Hi|[Hge' Hi]]; [done|].
        assert (i - length rounds = 0) as E by lia. rewrite E in Hi.
        destruct Hlast; simpl in Hi; discriminate Hi. }
      destruct (Ha _ _ _ Hi') as (j' & tw' & tb' & -> & _ & _ & Hb' & Htb & Hbn & Hbf).
      exists tb'. apply Hlt in Hb' as Hblt. repeat split; try lia.
      by apply lookup_app_l_Some.
Qed.

(** Rounds some of which may be cut short. *)
Lemma resetAfterCopy_app cut d tr more :
  resetAfterCopy cut d tr →
  (∀ i t d', more !! i = Some (EvReset t d') →
     d' = d
     ∧ ∃ j, length tr + i = S j
         ∧ ((∃ tb, (tr ++ more) !! j = Some (EvBodyRead tb) ∧ (tb ≤ t)%Z)
            ∨ (∃ url tg, (tr ++ more) !! j = Some (EvGet url tg) ∧ (tg ≤ t)%Z
                         ∧ cut (take j (tr ++ more)) url))) →
  resetAfterCopy cut d (tr ++ more).
Proof.
  intros Htr Hmore i t d' Hl. apply lookup_app_Some in Hl as [Hl|[Hge Hl]].
  - destruct (Htr _ _ _ Hl) as (-> & j & -> & Hj). split; [done|]. exists j. split; [done|].
    apply lookup_lt_Some in Hl.
    destruct Hj as [(tb & Hj & Hle)|(url & tg & Hj & Hle & Hcut)]; [left|right].
    + exists tb. split; [by apply lookup_app_l_Some|done].
    + exists url, tg. split; [by apply lookup_app_l_Some|]. split; [done|].
      by rewrite take_app_le by lia.
  - destruct (Hmore _ _ _ Hl) as (-> & j & Hj & Hcase). split; [done|]. exists j.
    split; [lia|done].
Qed.

Lemma round_places d f n tr tw url tg ts more :
  (f ≤ tw)%Z → (n ≤ tw)%Z → (tw ≤ tg)%Z → (tg ≤ ts)%Z →
  (more = [EvReset ts d] ∨ ∃ tb, more = [EvBodyRead tb; EvReset ts d]) →
  getsInRounds d f n tr → spacedFromReset d tr →
  getsInRounds d (ts + d) ts (tr ++ EvWait tw :: EvGet url tg :: more)
  ∧ spacedFromReset d (tr ++ EvWait tw :: EvGet url tg :: more).
Proof.
  intros Hf Hn Hwg Hgs Hmore IHa IHc.
  assert (∀ i e, tr !! i = Some e → i < length tr) as Hlt
    by (intros; by eapply lookup_lt_Some).
  assert (∃ k, length tr + 1 < k
               ∧ (tr ++ EvWait tw :: EvGet url tg :: more) !! k = Some (EvReset ts d))
    as (kr & Hkr & Hreset).
  { destruct Hmore as [->|[tb ->]].
    - exists (length tr + 2). split; [lia|]. rewrite lookup_app_r by lia.
      by replace (length tr + 2 - length tr) with 2 by lia.
    - exists (length tr + 3). split; [lia|]. rewrite lookup_app_r by lia.
      by replace (length tr + 3 - length tr) with 3 by lia. }
  assert (∀ i url' t, (EvWait tw :: EvGet url tg :: more) !! i = Some (EvGet url' t) →
            i = 1 ∧ url' = url ∧ t = tg) as Hone.
  { intros i url' t Hi. destruct Hmore as [->|[tb ->]];
      repeat (destruct i as [|i]; simpl in Hi; try discriminate Hi);
      by injection Hi as <- <-. }
  split.
  - intros i url' t Hl. apply lookup_app_Some in Hl as [Hl|[Hge Hl]].
    + destruct (IHa _ _ _ Hl) as (j & tw' & -> & Hj & Hle & k & ts' & Hk & Hr & H1 & H2 & H3).
      exists j, tw'. split; [done|]. split; [by apply lookup_app_l_Some|]. split; [done|].
      exists k, ts'. split; [done|]. split; [by apply lookup_app_l_Some|]. lia.
    + apply Hone in Hl as (Hi & -> & ->). exists (length tr), tw.
      split; [lia|]. split; [by rewrite lookup_app_r, Nat.sub_diag by lia|].
      split; [done|]. exists kr, ts. split; [lia|]. split; [done|]. lia.
  - intros i j url1 t1 url2 t2 Hij Hi Hj. apply lookup_app_Some in Hj as [Hj|[Hge Hj]].
    + assert (tr !! i = Some (EvGet url1 t1)) as Hi'.
      { apply Hlt in Hj as Hjlt. rewrite lookup_app_l in Hi by lia. done. }
      destruct (IHc _ _ _ _ _ _ Hij Hi' Hj) as (k & ts' & Hk1 & Hk2 & Hr & H1 & H2).
      exists k, ts'. repeat split; try done. by apply lookup_app_l_Some.
    + apply Hone in Hj as (Hj & -> & ->).
      apply lookup_app_Some in Hi as [Hi|[Hge' Hi]].
      * destruct (IHa _ _ _ Hi) as (j' & tw' & -> & _ & _ & k & ts' & Hk & Hr & H1 & H2 & H3).
        exists k, ts'. apply Hlt in Hr as Hklt. repeat split; try lia.
        by apply lookup_app_l_Some.
      * apply Hone in Hi as (Hi & _ & _). lia.
Qed.

Lemma Rounds_places cut d f n tr :
  Rounds cut d f n tr →
  getsInRounds d f n tr ∧ resetAfterCopy cut d tr ∧ spacedFromReset d tr.
Proof.
  induction 1 as [|f n tr tw url tg tb ts Hr (IHa & IHb & IHc) Hf Hn Hwg Hgb Hbs
                  |f n tr tw url tg ts Hr (IHa & IHb & IHc) Hcut Hf Hn Hwg Hgs].
  - split; [|split]; repeat intro;
      match goal with Hl : [] !! _ = Some _ |- _ => by rewrite lookup_nil in Hl end.
  - destruct (round_places d f n tr tw url tg ts [EvBodyRead tb; EvReset ts d]) as [Ha Hc];
      [lia..|by right; exists tb|done|done|].
    split; [exact Ha|]. split; [|exact Hc].
    apply resetAfterCopy_app; [done|]. intros i t d' Hl.
    destruct i as [|[|[|[|i]]]]; simpl in Hl; try discriminate Hl.
    injection Hl as <- <-. split; [done|]. exists (length tr + 2). split; [lia|]. left.
    exists tb. split; [|done]. rewrite lookup_app_r by lia.
    by replace (length tr + 2 - length tr) with 2 by lia.
  - destruct (round_places d f n tr tw url tg ts [EvReset ts d]) as [Ha Hc];
      [lia..|by left|done|done|].
    split; [exact Ha|]. split; [|exact Hc].
    apply resetAfterCopy_app; [done|]. intros i t d' Hl.
    destruct i as [|[|[|i]]]; simpl in Hl; try discriminate Hl.
    injection Hl as <- <-. split; [done|]. exists (length tr + 1). split; [lia|]. right.
    exists url, tg. split.
    { rewrite lookup_app_r by lia. by replace (length tr + 1 - length tr) with 1 by lia. }
    split; [done|]. rewrite take_app_ge by lia.
    by replace (length tr + 1 - length tr) with 1 by lia.
Qed.

Lemma Paced_places cut d tr :
  Paced cut d tr → waitBeforeGet tr ∧ resetAfterCopy cut d tr ∧ spacedFromReset d tr.
Proof.
  intros (f & n & rounds & last & -> & Hr & Hlast).
  destruct (Rounds_places cut d f n rounds Hr) as (Ha & Hb & Hc).
  assert (∀ i e, rounds !! i = Some e → i < length rounds) as Hlt
    by (intros; by eapply lookup_lt_Some).
  split; [|split].
  - intros i url t Hl. apply lookup_app_Some in Hl as [Hl|[Hge Hl]].
    + destruct (Ha _ _ _ Hl) as (j & tw & -> & Hj & Hle & _).
      exists j, tw. repeat split; try done. by apply lookup_app_l_Some.
    + destruct Hlast as [|tw url' tg|tw url' tg tb];
        [by rewrite lookup_nil in Hl|..];
        (destruct (i - length rounds) as [|[|[|?]]] eqn:E; simpl in Hl; try discriminate Hl;
         injection Hl as <- <-; exists (length rounds), tw;
         assert (i = S (length rounds)) as -> by lia; repeat split; try lia;
         by rewrite lookup_app_r, Nat.sub_diag by lia).
  - apply resetAfterCopy_app; [done|]. intros i t d' Hl.
    destruct Hlast as [|tw url' tg|tw url' tg tb];
      [by rewrite lookup_nil in Hl|..]; by destruct i as [|[|[|?]]].
  - intros i j url1 t1 url2 t2 Hij Hi Hj. apply lookup_app_Some in Hj as [Hj|[Hge Hj]].
    + assert (rounds !! i = Some (EvGet url1 t1)) as Hi'.
      { apply Hlt in Hj as Hjlt. rewrite lookup_app_l in Hi by lia. done. }
      destruct (Hc _ _ _ _ _ _ Hij Hi' Hj) as (k & ts & Hk1 & Hk2 & Hk & H1 & H2).
      exists k, ts. repeat split; try done. by apply lookup_app_l_Some.
    + assert (j = S (length rounds) ∧ (f ≤ t2)%Z) as [-> Hft].
      { destruct Hlast as [|tw url' tg|tw url' tg tb];
          [by rewrite lookup_nil in Hj|..];
          (destruct (j - length rounds) as [|[|[|?]]] eqn:E; simpl in Hj;
           try discriminate Hj; injection Hj as <- <-; split; lia). }
      assert (rounds !! i = Some (EvGet url1 t1)) as Hi'.
      { apply lookup_app_Some in Hi as [Hi|[Hge' Hi]]; [done|].
        assert (i - length rounds = 0) as E by lia. rewrite E in Hi.
        destruct Hlast; simpl in Hi; discriminate Hi. }
      destruct (Ha _ _ _ Hi') as (j' & tw' & -> & _ & _ & k & ts & Hk & Hreset & H1 & H2 & H3).
      exists k, ts. apply Hlt in Hreset as Hklt. repeat split; try lia.
      by apply lookup_app_l_Some.
Qed.

Lemma requested_app tr1 tr2 : requested (tr1 ++ tr2) = requested tr1 ++ requested tr2.
Proof. apply omap_app. Qed.

Section OrchestratorProofs.
Context `{U : UrlPkg} `{H : HtmlPkg} `{C : !HttpPkg}.
Variable StandardEbooksMainURL : URL.

Lemma Rounds_requested cut d f n tr url t :
  Rounds cut d f n tr → (n ≤ t)%Z →
  Paced cut d ((tr ++ [EvWait (Z.max t f)]) ++ [EvGet url (Z.max t f)]).
Proof.
  intros Hr Hn. exists f, n, tr, [EvWait (Z.max t f); EvGet url (Z.max t f)].
  rewrite <- app_assoc. repeat split; [done|]. constructor; lia.
Qed.

Lemma Rounds_read cut d f n tr url t tb :
  Rounds cut d f n tr → (n ≤ t)%Z → (Z.max t f ≤ tb)%Z →
  Paced cut d (((tr ++ [EvWait (Z.max t f)]) ++ [EvGet url (Z.max t f)]) ++ [EvBodyRead tb]).
Proof.
  intros Hr Hn Hb.
  exists f, n, tr, [EvWait (Z.max t f); EvGet url (Z.max t f); EvBodyRead tb].
  rewrite <- !app_assoc. repeat split; [done|]. constructor; lia.
Qed.

Lemma Rounds_round cut d f n tr url t tb :
  Rounds cut d f n tr → (n ≤ t)%Z → (Z.max t f ≤ tb)%Z →
  Ready cut d {| now := tb; timerC := Some (tb + d)%Z;
                 trace := (((tr ++ [EvWait (Z.max t f)]) ++ [EvGet url (Z.max t f)])
                            ++ [EvBodyRead tb]) ++ [EvReset tb d] |}.
Proof.
  intros Hr Hn Hb. exists (tb + d)%Z, tb. simpl. repeat split; [lia|].
  rewrite <- !app_assoc. simpl. eapply Rounds_snoc; try done; lia.
Qed.

(** A round cut short: the timer is reset right after the request. *)
Lemma Rounds_cut_round (cut : list Event → string → Prop) d f n tr url t ts :
  Rounds cut d f n tr → (n ≤ t)%Z → (Z.max t f ≤ ts)%Z →
  cut (tr ++ [EvWait (Z.max t f)]) url →
  Ready cut d {| now := ts; timerC := Some (ts + d)%Z;
                 trace := (((tr ++ [EvWait (Z.max t f)]) ++ [EvGet url (Z.max t f)]) ++ [])
                            ++ [EvReset ts d] |}.
Proof.
  intros Hr Hn Hb Hcut. exists (ts + d)%Z, ts. simpl. repeat split; [lia|].
  rewrite app_nil_r, <- !app_assoc. simpl. eapply Rounds_cut; try done; lia.
Qed.

Lemma ebookBranch_proceeds cut ebookParser d rawURL finalURLs :
  proceeds cut d noError (ebookBranch ebookParser d rawURL finalURLs).
Proof.
  intros w (f & n & Ht & Hn & Hr). unfold ebookBranch. run_steps. rewrite Ht. simpl.
  destruct (Get_result _ rawURL) as [body|e]; simpl.
  2:{ eapply Rounds_requested; [eassumption|lia]. }
  unfold EbookPageParser_Parse. destruct (html_Parse body) as [doc|e]; simpl.
  2:{ rewrite app_nil_r. eapply Rounds_requested; [eassumption|lia]. }
  destruct (err (ebookParseF ebookParser doc _)) as [e|]; simpl.
  - eapply Rounds_read; [eassumption|lia..].
  - eapply Rounds_round; [eassumption|lia..].
Qed.

Lemma bookPage_proceeds cut role ebookParser d rawURL bookURL finalURLs :
  proceeds cut d noError
    (bookPage StandardEbooksMainURL role ebookParser d rawURL bookURL finalURLs).
Proof.
  intros w (f & n & Ht & Hn & Hr). unfold bookPage. run_steps. rewrite Ht. simpl.
  destruct (Get_result _ _) as [body|e]; simpl.
  2:{ eapply Rounds_requested; [eassumption|lia]. }
  unfold EbookPageParser_Parse. destruct (html_Parse body) as [doc|e]; simpl.
  2:{ rewrite app_nil_r. eapply Rounds_requested; [eassumption|lia]. }
  destruct (err (ebookParseF ebookParser doc _)) as [e|]; simpl.
  - eapply Rounds_read; [eassumption|lia..].
  - eapply Rounds_round; [eassumption|lia..].
Qed.

Lemma booksLoop_proceeds cut role ebookParser d rawURL booksURLs :
  ∀ finalURLs,
    proceeds cut d noError
      (booksLoop StandardEbooksMainURL role ebookParser d rawURL booksURLs finalURLs).
Proof.
  induction booksURLs as [|bookURL rest IH]; intros finalURLs w Hw; simpl.
  - done.
  - pose proof (bookPage_proceeds cut role ebookParser d rawURL bookURL finalURLs w Hw) as Hb.
    unfold mbind, Run_bind.
    destruct (bookPage _ _ _ _ _ _ _ w) as [[[fs [e|]]| | |] w']; simpl in *; try done.
    by apply IH.
Qed.

Lemma listingBranch_proceeds cut role pageParse ebookParser d rawURL finalURLs :
  readsBody pageParse →
  proceeds cut d noError
    (listingBranch StandardEbooksMainURL role pageParse ebookParser d rawURL finalURLs).
Proof.
  intros Hpp w (f & n & Ht & Hn & Hr). unfold listingBranch. run_steps. rewrite Ht. simpl.
  destruct (Get_result _ rawURL) as [body|e]; simpl.
  2:{ eapply Rounds_requested; [eassumption|lia]. }
  destruct (Hpp body) as [Hnb Hok].
  destruct (pageParse body) as [[booksURLs [e|]]| | |] eqn:Ep; simpl; try done.
  - destruct (html_Parse body); [eapply Rounds_read; [eassumption|lia..]|].
    rewrite app_nil_r. eapply Rounds_requested; [eassumption|lia].
  - destruct (Hok _ eq_refl) as [doc ->].
    match goal with |- context [booksLoop _ _ _ _ _ _ _ ?w1] =>
      pose proof (booksLoop_proceeds cut role ebookParser d rawURL booksURLs finalURLs w1)
        as Hb
    end.
    apply Hb. eapply Rounds_round; [eassumption|lia..].
  - destruct (html_Parse body); [eapply Rounds_read; [eassumption|lia..]|].
    rewrite app_nil_r. eapply Rounds_requested; [eassumption|lia].
  - destruct (html_Parse body); [eapply Rounds_read; [eassumption|lia..]|].
    rewrite app_nil_r. eapply Rounds_requested; [eassumption|lia].
Qed.

Lemma walkTree_Done_or_Panic gate want n :
  ∀ path st, (∃ st', walkTree gate want path n st = Done st')
             ∨ walkTree gate want path n st = Panic.
Proof.
  induction n as [t d a cs IHcs] using Node_ind'. intros path st.
  rewrite walkTree_unfold. set (n := MkNode t d a cs).
  destruct (gate path n) as [g|]; [|by right].
  destruct (if g then walkAttrs want (Attr n) st else (st, false)) as [st1 [|]]; [by eauto|].
  simpl. generalize (n :: path). intros path'. clearbody n. revert st1.
  induction cs as [|c cs IH]; intros st1; simpl; [by eauto|].
  apply Forall_cons in IHcs as [Hc Hall].
  destruct (Hc path' st1) as [[st2 ->]| ->]; [by apply IH|by right].
Qed.

Lemma CollectionPageParser_Parse_readsBody : readsBody CollectionPageParser_Parse.
Proof.
  intros body. unfold CollectionPageParser_Parse.
  destruct (html_Parse body) as [doc|e]; [|split; [done|]; by intros urls [=]].
  rewrite collectionParseF_walk.
  destruct (walkTree_Done_or_Panic linkGate linkWant doc []
              {| finalUrls := []; err := None |}) as [[st' ->]| ->]; split; try done.
  all: intros; by exists doc.
Qed.

Lemma oneURL_proceeds cut ebookParser d rawURL finalURLs :
  proceeds cut d noError (oneURL StandardEbooksMainURL ebookParser d rawURL finalURLs).
Proof.
  unfold oneURL. destruct (classify rawURL) as [[| |]|e].
  - apply ebookBranch_proceeds.
  - apply listingBranch_proceeds, CollectionPageParser_Parse_readsBody.
  - apply listingBranch_proceeds, CollectionPageParser_Parse_readsBody.
  - intros w Hw. simpl. by apply Ready_Paced.
Qed.

Lemma urlsLoop_proceeds cut ebookParser d rawURLs :
  ∀ finalURLs,
    proceeds cut d noError (urlsLoop StandardEbooksMainURL ebookParser d rawURLs finalURLs).
Proof.
  induction rawURLs as [|rawURL rest IH]; intros finalURLs w Hw; simpl.
  - done.
  - pose proof (oneURL_proceeds cut ebookParser d rawURL finalURLs w Hw) as Hb.
    unfold mbind, Run_bind.
    destruct (oneURL _ _ _ _ _ w) as [[[fs [e|]]| | |] w']; simpl in *; try done.
    by apply IH.
Qed.

Lemma NormalizeURLs_proceeds cut rawURLs formats d :
  proceeds cut d noError (NormalizeURLs StandardEbooksMainURL rawURLs formats d).
Proof.
  unfold NormalizeURLs. destruct (NewEbookPageParser formats) as [ebookParser|e].
  - apply urlsLoop_proceeds.
  - intros w Hw. simpl. by apply Ready_Paced.
Qed.

Lemma download_proceeds d createFails ebookURL :
  proceeds copyFails d (λ _ : (), true)
    (download StandardEbooksMainURL d createFails ebookURL).
Proof.
  intros w (f & n & Ht & Hn & Hr). unfold download.
  destruct (createFails _) as [e|]; simpl.
  { apply Ready_Paced. by exists f, n. }
  run_steps. rewrite Ht. simpl.
  destruct (Get_result _ _) as [body|e] eqn:Eget; simpl.
  - destruct (Copy_error body) as [e|] eqn:Ecopy; simpl.
    + eapply Rounds_cut_round; [eassumption|lia..|]. by exists body, e.
    + eapply Rounds_round; [eassumption|lia..].
  - eapply Rounds_requested; [eassumption|lia].
Qed.

Lemma downloads_proceeds d createFails urls :
  proceeds copyFails d (λ _ : (), true)
    (downloads StandardEbooksMainURL d createFails urls).
Proof.
  induction urls as [|ebookURL rest IH]; intros w Hw; simpl.
  - done.
  - pose proof (download_proceeds d createFails ebookURL w Hw) as Hb.
    unfold mbind, Run_bind.
    destruct (download _ _ _ _ w) as [[[]| | |] w']; simpl in *; try done.
    by apply IH.
Qed.

(** The trace of a run of [main], and that it does not block. *)
Lemma mainFromTimer_Paced urlsToProcess extensions duration createFails t0 :
  let run := mainFromTimer StandardEbooksMainURL urlsToProcess extensions duration createFails
               {| now := t0; timerC := None; trace := [] |} in
  Paced copyFails duration (trace run.2) ∧ run.1 ≠ Blocked.
Proof.
  intros run. unfold run, mainFromTimer, NewTimer. simpl.
  set (w0 := {| now := t0; timerC := Some (t0 + 0)%Z; trace := [] |}).
  assert (Ready copyFails duration w0) as Hw0.
  { exists (t0 + 0)%Z, t0. simpl. repeat split; [lia|constructor]. }
  pose proof (NormalizeURLs_proceeds copyFails urlsToProcess extensions duration w0 Hw0)
    as Hn.
  unfold mbind, Run_bind.
  destruct (NormalizeURLs _ _ _ _ w0) as [[[urls [e|]]| | |] w1]; simpl in *; try done.
  pose proof (downloads_proceeds duration createFails (ToSlice urls) w1 Hn) as Hd.
  destruct (downloads _ _ _ _ w1) as [[[]| | |] w2]; simpl in *; try done.
  split; [by apply Ready_Paced|done].
Qed.

(** The trace of [NormalizeURLs] alone: no round is cut short. *)
Lemma NormalizeURLs_Paced rawURLs formats duration t0 :
  Paced noCut duration
    (trace (NormalizeURLs StandardEbooksMainURL rawURLs formats duration
              (NewTimer 0 {| now := t0; timerC := None; trace := [] |})).2).
Proof.
  unfold NewTimer. simpl.
  set (w0 := {| now := t0; timerC := Some (t0 + 0)%Z; trace := [] |}).
  assert (Ready noCut duration w0) as Hw0.
  { exists (t0 + 0)%Z, t0. simpl. repeat split; [lia|constructor]. }
  pose proof (NormalizeURLs_proceeds noCut rawURLs formats duration w0 Hw0) as Hn.
  destruct (NormalizeURLs _ _ _ _ w0) as [[[urls [e|]]| | |] w1]; simpl in *; try done.
  by apply Ready_Paced.
Qed.

(** C7, as the code has it. In every run of [main] from the creation of
    the timer on (the normalisation of the URLs, then the downloads): every
    request, for a page or for a file, comes right after a receive from the
    timer; every reset of the timer is to the configured interval and comes
    right after the body of the response was read to its end, or right
    after the request when [io.Copy] of the body stopped at an error, which
    [main] does not look at; of any two requests the later one is made at
    least the interval after a reset of the timer that follows the earlier
    one; the run never blocks on the timer.  In [NormalizeURLs] every reset
    comes after the body was read to its end, and a later request at least
    the interval after the body of an earlier one was read; the same holds
    of the whole run when no copy stops at an error. *)
Theorem requests_are_paced (urlsToProcess : list string) (extensions : string)
    (duration : Z) (createFails : string → option string) (t0 : Z) :
  let w0 := {| now := t0; timerC := None; trace := [] |} in
  let run := mainFromTimer StandardEbooksMainURL urlsToProcess extensions duration createFails
               w0 in
  let pages := NormalizeURLs StandardEbooksMainURL urlsToProcess extensions duration
                 (NewTimer 0 w0) in
  waitBeforeGet (trace run.2)
  ∧ resetAfterCopy copyFails duration (trace run.2)
  ∧ spacedFromReset duration (trace run.2)
  ∧ run.1 ≠ Blocked
  ∧ resetAfterRead duration (trace pages.2)
  ∧ spaced duration (trace pages.2)
  ∧ ((∀ body, Copy_error body = None) →
     resetAfterRead duration (trace run.2) ∧ spaced duration (trace run.2)).
Proof.
  intros w0 run pages.
  destruct (mainFromTimer_Paced urlsToProcess extensions duration createFails t0)
    as [Hp Hnb].
  fold w0 in Hp, Hnb. fold run in Hp, Hnb.
  destruct (Paced_places _ _ _ Hp) as (Ha & Hb & Hc).
  destruct (Paced_noCut_places _ _ (NormalizeURLs_Paced urlsToProcess extensions duration t0))
    as (_ & Hpb & Hpc).
  repeat (split; [done|]).
  intros Hcopy. apply Paced_noCut_places. apply (Paced_mono copyFails); [|done].
  intros tr url (body & e & _ & He). by rewrite Hcopy in He.
Qed.

(** *** The first failure ends the run *)

Lemma urlsLoop_first_failure ebookParser d before rawURL after :
  ∀ finalURLs w fs1 w1,
    urlsLoop StandardEbooksMainURL ebookParser d before finalURLs w = (Done (fs1, None), w1) →
    failed (oneURL StandardEbooksMainURL ebookParser d rawURL fs1 w1) →
    urlsLoop StandardEbooksMainURL ebookParser d (before ++ rawURL :: after) finalURLs w
    = oneURL StandardEbooksMainURL ebookParser d rawURL fs1 w1.
Proof.
  induction before as [|u before IH]; intros finalURLs w fs1 w1 Hbefore Hfail; simpl in *.
  - injection Hbefore as -> ->. unfold mbind, Run_bind, failed in *.
    destruct (oneURL _ _ _ _ _ w1) as [[[fs [e|]]| | |] w2]; simpl in *; done.
  - unfold mbind, Run_bind in *.
    destruct (oneURL _ _ _ u _ w) as [[[fs [e|]]| | |] w2]; simpl in *; try done.
    by apply IH.
Qed.

Lemma booksLoop_first_failure role ebookParser d rawURL before bookURL after :
  ∀ finalURLs w fs1 w1,
    booksLoop StandardEbooksMainURL role ebookParser d rawURL before finalURLs w
      = (Done (fs1, None), w1) →
    failed (bookPage StandardEbooksMainURL role ebookParser d rawURL bookURL fs1 w1) →
    booksLoop StandardEbooksMainURL role ebookParser d rawURL (before ++ bookURL :: after)
      finalURLs w
    = bookPage StandardEbooksMainURL role ebookParser d rawURL bookURL fs1 w1.
Proof.
  induction before as [|u before IH]; intros finalURLs w fs1 w1 Hbefore Hfail; simpl in *.
  - injection Hbefore as -> ->. unfold mbind, Run_bind, failed in *.
    destruct (bookPage _ _ _ _ _ bookURL _ w1) as [[[fs [e|]]| | |] w2]; simpl in *; done.
  - unfold mbind, Run_bind in *.
    destruct (bookPage _ _ _ _ _ u _ w) as [[[fs [e|]]| | |] w2]; simpl in *; try done.
    by apply IH.
Qed.

Lemma ebookBranch_pageFails ebookParser d rawURL finalURLs w verb cause w' :
  pageFails (parserOf ebookParser Ebook) rawURL w verb cause w' →
  ebookBranch ebookParser d rawURL finalURLs w
  = (Done (finalURLs, Some ("while " +:+ verb +:+ " " +:+ rawURL +:+ ": " +:+ cause)), w').
Proof.
  intros [f c Ht Hget|f body urls c Ht Hget Hparse];
    unfold ebookBranch, afterGet, afterRead; run_steps; rewrite Ht; simpl; rewrite Hget; simpl.
  - reflexivity.
  - simpl in Hparse. injection Hparse as Hparse. rewrite Hparse. reflexivity.
Qed.

Lemma listingBranch_pageFails role pageParse ebookParser d rawURL finalURLs w verb cause w' :
  pageFails pageParse rawURL w verb cause w' →
  listingBranch StandardEbooksMainURL role pageParse ebookParser d rawURL finalURLs w
  = (Done (finalURLs, Some ("while " +:+ verb +:+ " " +:+ rawURL +:+ ": " +:+ cause)), w').
Proof.
  intros [f c Ht Hget|f body urls c Ht Hget Hparse];
    unfold listingBranch, afterGet, afterRead; run_steps; rewrite Ht; simpl; rewrite Hget; simpl.
  - reflexivity.
  - rewrite Hparse. reflexivity.
Qed.

Lemma bookPage_pageFails role ebookParser d rawURL bookURL finalURLs w verb cause w' :
  pageFails (parserOf ebookParser Ebook)
    (URL_String (ResolveReference StandardEbooksMainURL bookURL)) w verb cause w' →
  bookPage StandardEbooksMainURL role ebookParser d rawURL bookURL finalURLs w
  = (Done (finalURLs,
           Some ("while " +:+ verb +:+ " " +:+ URL_String bookURL +:+ " (" +:+ role +:+ ": "
                   +:+ rawURL +:+ "): " +:+ cause)), w').
Proof.
  intros [f c Ht Hget|f body urls c Ht Hget Hparse];
    unfold bookPage, afterGet, afterRead; run_steps; rewrite Ht; simpl; rewrite Hget; simpl.
  - reflexivity.
  - simpl in Hparse. injection Hparse as Hparse. rewrite Hparse. reflexivity.
Qed.

(** A collection or author page that went through: the loop over its book
    pages starts when the timer has been reset. *)
Lemma listingBranch_books role pageParse ebookParser d rawURL finalURLs w f body booksURLs :
  timerC w = Some f →
  Get_result (trace w ++ [EvWait (Z.max (now w) f)]) rawURL = inl body →
  pageParse body = Done (booksURLs, None) →
  listingBranch StandardEbooksMainURL role pageParse ebookParser d rawURL finalURLs w
  = booksLoop StandardEbooksMainURL role ebookParser d rawURL booksURLs finalURLs
      (afterReset d rawURL body w).
Proof.
  intros Ht Hget Hparse. unfold listingBranch, afterReset. run_steps. rewrite Ht. simpl.
  rewrite Hget. simpl. rewrite Hparse. reflexivity.
Qed.

Lemma pageFails_requested parse url w verb cause w' :
  pageFails parse url w verb cause w' →
  requested (trace w') = requested (trace w) ++ [url].
Proof.
  intros [f c Ht Hget|f body urls c Ht Hget Hparse];
    unfold afterGet, afterRead; run_steps; rewrite Ht; simpl.
  - rewrite !requested_app. simpl. by rewrite app_nil_r.
  - rewrite !requested_app. simpl. destruct (html_Parse body); simpl; by rewrite !app_nil_r.
Qed.

Lemma oneURL_roleOf ebookParser d rawURL finalURLs kind role :
  classify rawURL = inl kind → roleOf kind = Some role →
  oneURL StandardEbooksMainURL ebookParser d rawURL finalURLs
  = listingBranch StandardEbooksMainURL role (parserOf ebookParser kind) ebookParser d
      rawURL finalURLs.
Proof.
  intros Hk Hrole. unfold oneURL. rewrite Hk.
  destruct kind; simpl in Hrole; [done|..]; by injection Hrole as <-.
Qed.

(** C6, as the code has it. The raw URLs (without repeats) before [rawURL]
    went through, and the step on [rawURL] meets the first failure of the
    run.  When [rawURL] is not classified, [NormalizeURLs] returns the
    error of the classification, in the world it was in.  When
    [client.Get] returns an error for the page of [rawURL], or the parser
    of the page does, it returns the error with the words [while getting]
    or [while parsing] and [rawURL] before it; the request for the page is
    the last of the run.  When [rawURL] is a collection or author page that
    went through, the book pages before [bookURL] went through, and
    [client.Get] or the parser returns an error for the page of [bookURL],
    it returns the error with the same words, [bookURL] and, in brackets,
    [collection] or [author] and [rawURL] before it; the request for the
    book page is the last of the run.  In each case the raw URLs and the
    book pages that come after are not looked at, the set returned beside
    the error is the one gathered before the failure, and [main] ends the
    process with the error and downloads nothing.  The failures are the
    errors that the classification, [client.Get] and the parsers return. *)
Theorem first_failure_aborts (rawURLs : list string) (formats : string) (d : Z)
    (ebookParser : EbookPageParser) (before after : list string) (rawURL : string)
    (w w1 : World) (fs1 : URLSet) :
  NewEbookPageParser formats = inl ebookParser →
  RemoveStringDuplicates rawURLs = before ++ rawURL :: after →
  urlsLoop StandardEbooksMainURL ebookParser d before NewURLSet w = (Done (fs1, None), w1) →
  (∀ e, classify rawURL = inr e →
     abortsWith StandardEbooksMainURL rawURLs formats d w e fs1 w1)
  ∧ (∀ kind verb cause w',
       classify rawURL = inl kind →
       pageFails (parserOf ebookParser kind) rawURL w1 verb cause w' →
       abortsWith StandardEbooksMainURL rawURLs formats d w
         ("while " +:+ verb +:+ " " +:+ rawURL +:+ ": " +:+ cause) fs1 w'
       ∧ requested (trace w') = requested (trace w1) ++ [rawURL])
  ∧ (∀ kind role f body pagesBefore bookURL pagesAfter fs2 w2 verb cause w',
       classify rawURL = inl kind → roleOf kind = Some role →
       timerC w1 = Some f →
       Get_result (trace w1 ++ [EvWait (Z.max (now w1) f)]) rawURL = inl body →
       parserOf ebookParser kind body = Done (pagesBefore ++ bookURL :: pagesAfter, None) →
       booksLoop StandardEbooksMainURL role ebookParser d rawURL pagesBefore fs1
         (afterReset d rawURL body w1) = (Done (fs2, None), w2) →
       pageFails (parserOf ebookParser Ebook)
         (URL_String (ResolveReference StandardEbooksMainURL bookURL)) w2 verb cause w' →
       abortsWith StandardEbooksMainURL rawURLs formats d w
         ("while " +:+ verb +:+ " " +:+ URL_String bookURL +:+ " (" +:+ role +:+ ": "
            +:+ rawURL +:+ "): " +:+ cause) fs2 w'
       ∧ requested (trace w')
         = requested (trace w2) ++ [URL_String (ResolveReference StandardEbooksMainURL bookURL)]).
Proof.
  intros Hparser Hurls Hbefore.
  assert (∀ e fs w',
            oneURL StandardEbooksMainURL ebookParser d rawURL fs1 w1 = (Done (fs, Some e), w') →
            abortsWith StandardEbooksMainURL rawURLs formats d w e fs w') as Hends.
  { intros e fs w' Hone.
    assert (NormalizeURLs StandardEbooksMainURL rawURLs formats d w = (Done (fs, Some e), w'))
      as Hn.
    { unfold NormalizeURLs. rewrite Hparser, Hurls, <- Hone.
      apply urlsLoop_first_failure; [done|]. unfold failed. by rewrite Hone. }
    split; [done|]. intros w0 createFails ->. unfold mainFromTimer, mbind, Run_bind.
    by rewrite Hn. }
  split; [|split].
  - intros e He. apply Hends. unfold oneURL. by rewrite He.
  - intros kind verb cause w' Hk Hfail. split; [|by eapply pageFails_requested].
    apply Hends. destruct kind.
    + unfold oneURL. rewrite Hk. by apply ebookBranch_pageFails.
    + rewrite (oneURL_roleOf _ _ _ _ _ _ Hk eq_refl). by apply listingBranch_pageFails.
    + rewrite (oneURL_roleOf _ _ _ _ _ _ Hk eq_refl). by apply listingBranch_pageFails.
  - intros kind role f body pagesBefore bookURL pagesAfter fs2 w2 verb cause w'
      Hk Hrole Ht Hget Hparse Hloop Hfail.
    split; [|by eapply pageFails_requested].
    apply Hends. rewrite (oneURL_roleOf _ _ _ _ _ _ Hk Hrole).
    rewrite (listingBranch_books _ _ _ _ _ _ _ _ _ _ Ht Hget Hparse).
    rewrite <- (bookPage_pageFails role ebookParser d rawURL bookURL fs2 w2 verb cause w' Hfail).
    apply booksLoop_first_failure; [done|].
    unfold failed. by rewrite (bookPage_pageFails _ _ _ _ _ _ _ _ _ _ Hfail).
Qed.


(** *** Malformed hrefs *)

Lemma ebookBranch_parse_error ebookParser d rawURL finalURLs w f body urls e :
  timerC w = Some f →
  Get_result (trace w ++ [EvWait (Z.max (now w) f)]) rawURL = inl body →
  EbookPageParser_Parse ebookParser body = (urls, Some e) →
  (ebookBranch ebookParser d rawURL finalURLs w).1
  = Done (finalURLs, Some ("while parsing " +:+ rawURL +:+ ": " +:+ e)).
Proof.
  intros Ht Hget Hparse. unfold ebookBranch. run_steps. rewrite Ht. simpl.
  rewrite Hget. simpl. by rewrite Hparse.
Qed.

Lemma listingBranch_parse_error role pageParse ebookParser d rawURL finalURLs w f body urls e :
  timerC w = Some f →
  Get_result (trace w ++ [EvWait (Z.max (now w) f)]) rawURL = inl body →
  pageParse body = Done (urls, Some e) →
  (listingBranch StandardEbooksMainURL role pageParse ebookParser d rawURL finalURLs w).1
  = Done (finalURLs, Some ("while parsing " +:+ rawURL +:+ ": " +:+ e)).
Proof.
  intros Ht Hget Hparse. unfold listingBranch. run_steps. rewrite Ht. simpl.
  rewrite Hget. simpl. by rewrite Hparse.
Qed.

(** C4, as the code has it. A parsed document in which a selected anchor
    carries an href that [url.Parse] refuses: the parser returns an error
    that names such an href of the document and the error of [url.Parse]
    for it.  Beside the error it returns the links it did parse, all from
    selected hrefs of the document; [NormalizeURLs] uses the error alone:
    the closure that called the parser returns the error, prefixed by the
    URL of the page, and the set of URLs as it was. *)
Theorem malformed_href_is_reported (ebookParser : EbookPageParser) (htmlReader : Reader)
    (doc : Node) :
  html_Parse htmlReader = inl doc → Type_ doc = DocumentNode →
  ((∃ h e, h ∈ anchorHrefs doc ∧ urlMatches ebookParser h = true ∧ url_Parse h = inr e) →
     ∃ urls h e,
       EbookPageParser_Parse ebookParser htmlReader
         = (urls, Some ("while processing " +:+ h +:+ ": " +:+ e))
       ∧ h ∈ anchorHrefs doc ∧ urlMatches ebookParser h = true ∧ url_Parse h = inr e
       ∧ (∀ u, u ∈ urls →
            ∃ h', h' ∈ anchorHrefs doc ∧ urlMatches ebookParser h' = true
                  ∧ url_Parse h' = inl u)
       ∧ (∀ d rawURL finalURLs w f,
            timerC w = Some f →
            Get_result (trace w ++ [EvWait (Z.max (now w) f)]) rawURL = inl htmlReader →
            (ebookBranch ebookParser d rawURL finalURLs w).1
            = Done (finalURLs, Some ("while parsing " +:+ rawURL +:+ ": "
                                       +:+ "while processing " +:+ h +:+ ": " +:+ e))))
  ∧ ((∃ path a h e, (path, a) ∈ nodesWithPath [] doc ∧ listItemLink path a
                    ∧ h ∈ hrefsOf a ∧ url_Parse h = inr e) →
     ∃ urls h e,
       CollectionPageParser_Parse htmlReader
         = Done (urls, Some ("while processing " +:+ h +:+ ": " +:+ e))
       ∧ AuthorPageParser_Parse htmlReader
         = Done (urls, Some ("while processing " +:+ h +:+ ": " +:+ e))
       ∧ (∃ path a, (path, a) ∈ nodesWithPath [] doc ∧ listItemLink path a ∧ h ∈ hrefsOf a)
       ∧ url_Parse h = inr e
       ∧ (∀ u, u ∈ urls →
            ∃ path a h', (path, a) ∈ nodesWithPath [] doc ∧ listItemLink path a
                         ∧ h' ∈ hrefsOf a ∧ url_Parse h' = inl u)
       ∧ (∀ role d rawURL finalURLs w f,
            timerC w = Some f →
            Get_result (trace w ++ [EvWait (Z.max (now w) f)]) rawURL = inl htmlReader →
            (listingBranch StandardEbooksMainURL role CollectionPageParser_Parse ebookParser
               d rawURL finalURLs w).1
            = Done (finalURLs, Some ("while parsing " +:+ rawURL +:+ ": "
                                       +:+ "while processing " +:+ h +:+ ": " +:+ e))
            ∧ (listingBranch StandardEbooksMainURL role AuthorPageParser_Parse ebookParser
               d rawURL finalURLs w).1
            = Done (finalURLs, Some ("while parsing " +:+ rawURL +:+ ": "
                                       +:+ "while processing " +:+ h +:+ ": " +:+ e)))).
Proof.
  intros Hparse Hdoc. split.
  - intros (h0 & e0 & Hh0 & Hm0 & He0).
    destruct (EbookPageParser_Parse_walked ebookParser _ _ Hparse) as (st' & f & HP & Hw).
    destruct (walked_refused _ _ _ _ Hw) as (h & e & Hh & He & Herr).
    { apply Exists_exists. exists h0. split; [|by exists e0].
      apply list_elem_of_filter. done. }
    apply list_elem_of_filter in Hh as [Hm Hh].
    exists (finalUrls st'), h, e. rewrite HP, Herr.
    split; [done|]. repeat split; try done.
    + intros u Hu. destruct (walked_sound _ _ _ _ _ Hw eq_refl Hu) as (h' & Hh' & Hp').
      apply list_elem_of_filter in Hh' as [Hm' Hh']. by exists h'.
    + intros d rawURL finalURLs w f' Ht Hget.
      eapply ebookBranch_parse_error; [done..|]. by rewrite HP, Herr.
  - intros (path0 & a0 & h0 & e0 & Hin0 & Hlink0 & Hh0 & He0).
    set (st0 := {| finalUrls := []; err := None |}).
    destruct (walkTree_returns linkGate linkWant doc [] st0) as [st' Hst'].
    { intros pn. by apply linkGate_document. }
    destruct (walkTree_walked _ _ _ _ _ _ Hst') as [f Hw].
    destruct (walked_refused _ _ _ _ Hw) as (h & e & Hh & He & Herr).
    { apply Exists_exists. exists h0. split; [|by exists e0].
      apply elem_of_selected. exists path0, a0. split; [done|]. by apply link_picked. }
    assert (CollectionPageParser_Parse htmlReader
            = Done (finalUrls st', Some ("while processing " +:+ h +:+ ": " +:+ e))) as Hc.
    { unfold CollectionPageParser_Parse. rewrite Hparse, collectionParseF_walk.
      fold st0. by rewrite Hst', Herr. }
    exists (finalUrls st'), h, e. split; [done|]. split; [exact Hc|].
    apply elem_of_selected in Hh as (path & a & Hin & Hpick).
    apply link_picked in Hpick as [Hlink Hhref].
    split; [by exists path, a|]. split; [done|]. split.
    + intros u Hu. destruct (walked_sound _ _ _ _ _ Hw eq_refl Hu) as (h' & Hh' & Hp').
      apply elem_of_selected in Hh' as (path' & a' & Hin' & Hpick').
      apply link_picked in Hpick' as [Hlink' Hhref']. by exists path', a', h'.
    + intros role d rawURL finalURLs w f' Ht Hget.
      split; eapply listingBranch_parse_error; done.
Qed.

End OrchestratorProofs.

(** ** Patterns without an anchor at the start *)

Lemma RemoveStringDuplicates_singleton s : RemoveStringDuplicates [s] = [s].
Proof.
  unfold RemoveStringDuplicates. simpl.
  by rewrite bool_decide_eq_false_2 by apply not_elem_of_empty.
Qed.

(** C10. There is a raw URL that does not begin with the address of
    Standard Ebooks and that [NormalizeURLs] does not reject: the patterns
    match anywhere in the string, so it passes the test of the site, is
    classified as an ebook page by the URL it holds further on (whatever
    text comes before it), and the first request of the run is made for it. *)
Theorem embedded_url_is_accepted :
  ∃ rawURL : string,
    String.prefix "https://standardebooks.org" rawURL = false
    ∧ MatchString StandardEbooksMainRegex rawURL = true
    ∧ classify rawURL = inl Ebook
    ∧ (∀ junk, classify (junk +:+ "https://standardebooks.org/ebooks/some-slug/") = inl Ebook)
    ∧ ∀ (U : UrlPkg) (H : HtmlPkg) (C : HttpPkg) (base : URL) (d : Z) (w : World),
        ∃ rest, trace (NormalizeURLs base [rawURL] "epub" d (NewTimer 0 w)).2
                = trace w ++ EvWait (now w) :: EvGet rawURL (now w) :: rest.
Proof.
  exists embeddedURL.
  assert (classify embeddedURL = inl Ebook) as Hclass by (vm_compute; reflexivity).
  split; [reflexivity|]. split; [vm_compute; reflexivity|]. split; [done|]. split.
  - intros junk. unfold classify.
    rewrite !MatchString_app_l by (vm_compute; reflexivity). done.
  - intros U H C base d w. unfold NormalizeURLs.
    rewrite RemoveStringDuplicates_singleton.
    change (NewEbookPageParser "epub") with
      (inl {| extensionsTesters := [test_epub] |} : EbookPageParser + string).
    cbn [urlsLoop]. unfold oneURL. rewrite Hclass. unfold ebookBranch, NewTimer.
    unfold mbind, Run_bind, mret, Run_ret, timer_wait, client_Get, readByParse,
      timer_Reset; simpl.
    replace (Z.max (now w) (now w + 0)) with (now w) by lia.
    destruct (Get_result _ embeddedURL) as [body|e]; simpl.
    2:{ eexists. rewrite <- !app_assoc. simpl. reflexivity. }
    unfold EbookPageParser_Parse.
    destruct (html_Parse body) as [doc|e]; simpl.
    2:{ eexists. rewrite <- !app_assoc. simpl. reflexivity. }
    destruct (err _); simpl; eexists; rewrite <- !app_assoc; simpl; reflexivity.
Qed.

(** * Further properties of the code *)

(** ** [RemoveStringDuplicates] *)

Lemma removeDuplicatesFrom_acc slice :
  ∀ acc seen, removeDuplicatesFrom slice acc seen = acc ++ removeDuplicatesFrom slice [] seen.
Proof.
  induction slice as [|s rest IH]; intros acc seen; simpl.
  - by rewrite app_nil_r.
  - case_bool_decide; [apply IH|].
    rewrite (IH (acc ++ [s])), (IH [s]). by rewrite <- app_assoc.
Qed.

Lemma removeDuplicatesFrom_seen slice :
  ∀ X seen : gset string,
    removeDuplicatesFrom slice [] (X ∪ seen)
    = filter (λ x, x ∉ X) (removeDuplicatesFrom slice [] seen).
Proof.
  induction slice as [|s rest IH]; intros X seen; simpl; [done|].
  destruct (decide (s ∈ seen)) as [Hs|Hs].
  - rewrite !bool_decide_eq_true_2 by set_solver. apply IH.
  - rewrite (bool_decide_eq_false_2 (s ∈ seen)) by done. simpl.
    rewrite !(removeDuplicatesFrom_acc rest [s]). simpl.
    destruct (decide (s ∈ X)) as [HX|HX].
    + rewrite bool_decide_eq_true_2 by set_solver.
      rewrite filter_cons_False by (intros Hn; by apply Hn).
      rewrite <- IH. f_equal. set_solver.
    + rewrite bool_decide_eq_false_2 by set_solver.
      rewrite filter_cons_True by done. f_equal.
      rewrite <- IH. f_equal. set_solver.
Qed.

Lemma RemoveStringDuplicates_cons s rest :
  RemoveStringDuplicates (s :: rest)
  = s :: filter (λ x, x ≠ s) (RemoveStringDuplicates rest).
Proof.
  unfold RemoveStringDuplicates. simpl.
  rewrite bool_decide_eq_false_2 by apply not_elem_of_empty.
  rewrite (removeDuplicatesFrom_acc rest [s]). simpl. f_equal.
  rewrite removeDuplicatesFrom_seen. apply list_filter_iff.
  intros x. by rewrite not_elem_of_singleton.
Qed.

Lemma RemoveStringDuplicates_elem slice s :
  s ∈ RemoveStringDuplicates slice ↔ s ∈ slice.
Proof.
  induction slice as [|x rest IH]; [done|].
  rewrite RemoveStringDuplicates_cons, !elem_of_cons, list_elem_of_filter, IH.
  destruct (decide (s = x)); naive_solver.
Qed.

Lemma RemoveStringDuplicates_NoDup slice : NoDup (RemoveStringDuplicates slice).
Proof.
  induction slice as [|x rest IH]; [constructor|].
  rewrite RemoveStringDuplicates_cons. constructor.
  - rewrite list_elem_of_filter. by intros [Hne _].
  - by apply NoDup_filter.
Qed.

Lemma filter_ne_id (s : string) (l : list string) : s ∉ l → filter (λ x, x ≠ s) l = l.
Proof.
  induction l as [|x l IH]; [done|]. intros Hs. apply not_elem_of_cons in Hs as [Hne Hs].
  rewrite filter_cons_True by done. by rewrite IH.
Qed.

Lemma RemoveStringDuplicates_fixed slice :
  NoDup slice → RemoveStringDuplicates slice = slice.
Proof.
  induction 1 as [|x l Hx Hnd IH]; [done|].
  rewrite RemoveStringDuplicates_cons, IH. by rewrite filter_ne_id.
Qed.

Lemma RemoveStringDuplicates_app l1 l2 :
  RemoveStringDuplicates (l1 ++ l2)
  = RemoveStringDuplicates l1 ++ filter (λ x, x ∉ l1) (RemoveStringDuplicates l2).
Proof.
  induction l1 as [|s l1 IH]; simpl.
  - induction (RemoveStringDuplicates l2) as [|x l IH]; [done|].
    rewrite filter_cons_True by apply not_elem_of_nil. by rewrite <- IH.
  - rewrite !RemoveStringDuplicates_cons, IH, filter_app, list_filter_filter. simpl.
    do 2 f_equal. apply list_filter_iff. intros x. rewrite not_elem_of_cons. tauto.
Qed.

(** X1. [RemoveStringDuplicates] keeps the first occurrence of every
    string, in the order of the slice: the result has no repeats and the
    same strings as the slice, is a subsequence of it, and starts with the
    head of the slice followed by what the function makes of the tail,
    without the head. *)
Theorem RemoveStringDuplicates_first_occurrences (slice : list string) :
  NoDup (RemoveStringDuplicates slice)
  ∧ (∀ s, s ∈ RemoveStringDuplicates slice ↔ s ∈ slice)
  ∧ RemoveStringDuplicates slice `sublist_of` slice
  ∧ RemoveStringDuplicates [] = []
  ∧ ∀ s rest, RemoveStringDuplicates (s :: rest)
              = s :: filter (λ x, x ≠ s) (RemoveStringDuplicates rest).
Proof.
  split; [apply RemoveStringDuplicates_NoDup|].
  split; [intros s; apply RemoveStringDuplicates_elem|].
  split; [|split; [done|apply RemoveStringDuplicates_cons]].
  induction slice as [|x rest IH]; [done|].
  rewrite RemoveStringDuplicates_cons. apply sublist_skip.
  etrans; [apply sublist_filter|]. exact IH.
Qed.

(** X2. A slice without repeats is returned as it is, so the function
    is idempotent; and of two slices appended, the second adds what the
    first does not hold: the URLs of the command line come before those
    read from files, and a URL given in both places keeps its place on the
    command line. *)
Theorem RemoveStringDuplicates_append (args files : list string) :
  RemoveStringDuplicates (RemoveStringDuplicates args) = RemoveStringDuplicates args
  ∧ RemoveStringDuplicates (args ++ files)
    = RemoveStringDuplicates args ++ filter (λ x, x ∉ args) (RemoveStringDuplicates files)
  ∧ (NoDup (args ++ files) ↔ RemoveStringDuplicates (args ++ files) = args ++ files).
Proof.
  split; [apply RemoveStringDuplicates_fixed, RemoveStringDuplicates_NoDup|].
  split; [apply RemoveStringDuplicates_app|]. split.
  - apply RemoveStringDuplicates_fixed.
  - intros <-. apply RemoveStringDuplicates_NoDup.
Qed.

(** ** The set of URLs: the last URL added under a string form stays *)

Section MoreSetProofs.
Context `{U : UrlPkg}.

Lemma Add_lookup s us k :
  set (Add s us) !! k
  = match last (filter (λ u, URL_String u = k) us) with
    | Some u => Some u
    | None => set s !! k
    end.
Proof.
  destruct s as [m]. unfold Add. simpl. revert m.
  induction us as [|u us IH]; intros m; simpl; [done|].
  rewrite IH, filter_cons. destruct (decide (URL_String u = k)) as [Hk|Hk].
  - rewrite last_cons. destruct (last (filter _ us)); [done|].
    by rewrite Hk, lookup_insert_eq.
  - by rewrite lookup_insert_ne.
Qed.

(** X3. [Add] writes its arguments into the map from first to last, so
    of the URLs with one string form the last one added is the member: a
    lookup finds the last argument filed under the key, or what the set
    held before; the members of a set made by one [Add] are the URLs that
    are the last of their string form among the arguments. *)
Theorem URLSet_last_added_stays (s : URLSet) (us : list URL) :
  (∀ k, set (Add s us) !! k
        = match last (filter (λ u, URL_String u = k) us) with
          | Some u => Some u
          | None => set s !! k
          end)
  ∧ (∀ u, u ∈ ToSlice (Add NewURLSet us)
          ↔ last (filter (λ v, URL_String v = URL_String u) us) = Some u).
Proof.
  split; [intros k; apply Add_lookup|].
  intros u. unfold ToSlice. rewrite list_elem_of_fmap. split.
  - intros ([k v] & -> & Hkv). apply elem_of_map_to_list in Hkv. simpl.
    rewrite Add_lookup in Hkv. unfold NewURLSet in Hkv. simpl in Hkv.
    rewrite lookup_empty in Hkv.
    destruct (last (filter (λ u, URL_String u = k) us)) as [v'|] eqn:El; [|done].
    injection Hkv as ->.
    assert (URL_String v = k) as <-; [|done].
    apply last_Some_elem_of, list_elem_of_filter in El. by destruct El.
  - intros Hl. exists (URL_String u, u). split; [done|].
    apply elem_of_map_to_list. by rewrite Add_lookup, Hl.
Qed.

End MoreSetProofs.

(** ** The sorted keys of the format map *)

Lemma string_le_cons c1 s1 c2 s2 :
  string_le (String c1 s1) (String c2 s2)
  ↔ (N_of_ascii c1 < N_of_ascii c2)%N ∨ (c1 = c2 ∧ string_le s1 s2).
Proof.
  unfold string_le, String.leb. simpl. unfold Ascii.compare.
  destruct (N.compare_spec (N_of_ascii c1) (N_of_ascii c2)) as [E|E|E].
  - assert (c1 = c2) as ->.
    { rewrite <- (ascii_N_embedding c1), <- (ascii_N_embedding c2). by rewrite E. }
    split; [by right|]. intros [?|[_ ?]]; [lia|done].
  - split; [by left|done].
  - split; [done|]. intros [?|[-> _]]; lia.
Qed.

Global Instance string_le_trans : Transitive string_le.
Proof.
  intros s1. induction s1 as [|c1 s1 IH]; intros [|c2 s2] [|c3 s3]; try done.
  rewrite !string_le_cons. intros [H12|[-> H12]] [H23|[-> H23]].
  - left. lia.
  - by left.
  - by left.
  - right. split; [done|]. by apply IH with s2.
Qed.

Global Instance string_le_total : Total string_le.
Proof. intros s t. apply String.leb_total. Qed.

Global Instance string_le_antisym : AntiSymm (=) string_le.
Proof. intros s t Hst Hts. by apply String.leb_antisym. Qed.

Lemma FormatsTesters_keys :
  (map_to_list FormatsTesters).*1 ≡ₚ ["epub"; "azw3"; "kepub"; "aepub"].
Proof.
  unfold FormatsTesters. rewrite map_to_list_to_map; [reflexivity|].
  simpl. apply (bool_decide_unpack _). vm_compute. exact I.
Qed.

Lemma supported_names t : supported t ↔ t ∈ ["epub"; "azw3"; "kepub"; "aepub"].
Proof.
  unfold supported. rewrite <- FormatsTesters_keys, list_elem_of_fmap. split.
  - intros [f Hf]. exists (t, f). split; [done|]. by apply elem_of_map_to_list.
  - intros ([k f] & -> & Hkf). apply elem_of_map_to_list in Hkf. by exists f.
Qed.

Lemma GetKeys_any_order (fm : gmap string TesterFunction) keys :
  keys ≡ₚ (map_to_list fm).*1 → sort_Strings keys = GetKeys fm.
Proof.
  intros Hperm. unfold GetKeys, sort_Strings.
  apply (Sorted_unique string_le); try apply Sorted_merge_sort; try apply _.
  by rewrite !merge_sort_Permutation.
Qed.

Lemma GetKeys_FormatsTesters : GetKeys FormatsTesters = ["aepub"; "azw3"; "epub"; "kepub"].
Proof.
  rewrite <- (GetKeys_any_order _ ["epub"; "azw3"; "kepub"; "aepub"]).
  - vm_compute. reflexivity.
  - symmetry. apply FormatsTesters_keys.
Qed.

(** X4. [GetKeys] returns the keys of the map, each once, in increasing
    order; whatever order the [range] over the map yields them in, the
    result is the same.  For [FormatsTesters] it is [aepub], [azw3],
    [epub], [kepub]. *)
Theorem GetKeys_sorted (fm : gmap string TesterFunction) :
  Sorted string_le (GetKeys fm)
  ∧ NoDup (GetKeys fm)
  ∧ (∀ k, k ∈ GetKeys fm ↔ is_Some (fm !! k))
  ∧ (∀ keys, keys ≡ₚ (map_to_list fm).*1 → sort_Strings keys = GetKeys fm)
  ∧ GetKeys FormatsTesters = ["aepub"; "azw3"; "epub"; "kepub"].
Proof.
  split; [apply Sorted_merge_sort; apply _|].
  split; [unfold GetKeys, sort_Strings; rewrite merge_sort_Permutation;
          apply NoDup_fst_map_to_list|].
  split; [|split; [apply GetKeys_any_order|apply GetKeys_FormatsTesters]].
  intros k. unfold GetKeys, sort_Strings.
  rewrite merge_sort_Permutation, list_elem_of_fmap. split.
  - intros ([k' f] & -> & Hkf). apply elem_of_map_to_list in Hkf. by exists f.
  - intros [f Hf]. exists (k, f). split; [done|]. by apply elem_of_map_to_list.
Qed.

(** ** Fields and separators *)

Lemma SplitOn_nonempty sep s : SplitOn sep s ≠ [].
Proof.
  destruct s as [|c s]; simpl; [done|].
  destruct (Ascii.eqb c sep); [done|]. by destruct (SplitOn sep s).
Qed.

Lemma SplitOn_field sep e rest :
  noByte sep e = true →
  SplitOn sep (e +:+ String sep rest) = e :: SplitOn sep rest.
Proof.
  induction e as [|c e IH]; simpl.
  - intros _. by rewrite Ascii.eqb_refl.
  - intros [Hc He]%andb_true_iff. apply negb_true_iff in Hc. rewrite Hc.
    by rewrite (IH He).
Qed.

Lemma SplitOn_single sep e : noByte sep e = true → SplitOn sep e = [e].
Proof.
  induction e as [|c e IH]; simpl; [done|].
  intros [Hc He]%andb_true_iff. apply negb_true_iff in Hc. rewrite Hc.
  by rewrite (IH He).
Qed.

(** [strings.Split] undoes [strings.Join] when no element holds the
    separator. *)
Lemma SplitOn_Join sep l :
  l ≠ [] → Forall (λ e, noByte sep e = true) l →
  SplitOn sep (Join l (String sep EmptyString)) = l.
Proof.
  induction l as [|e l IH]; [done|]. intros _ [He Hl]%Forall_cons.
  destruct l as [|e' l].
  - by apply SplitOn_single.
  - change (Join (e :: e' :: l) (String sep EmptyString))
      with (e +:+ String sep (Join (e' :: l) (String sep EmptyString))).
    rewrite SplitOn_field by done. f_equal. by apply IH.
Qed.

(** [strings.Join] undoes [strings.Split]. *)
Lemma Join_SplitOn sep s : Join (SplitOn sep s) (String sep EmptyString) = s.
Proof.
  induction s as [|c s IH]; [done|]. simpl.
  pose proof (SplitOn_nonempty sep s) as Hne.
  destruct (Ascii.eqb_spec c sep) as [->|Hc].
  - destruct (SplitOn sep s) as [|t ts]; [done|].
    change (Join (EmptyString :: t :: ts) (String sep EmptyString))
      with (String sep (Join (t :: ts) (String sep EmptyString))).
    by rewrite IH.
  - destruct (SplitOn sep s) as [|t [|t' ts]]; [done|..]; simpl in *; by rewrite <- IH.
Qed.

(** ** All the formats at once *)

Lemma HasSuffix_trans s a b : HasSuffix s a = true → HasSuffix a b = true → HasSuffix s b = true.
Proof.
  intros [p ->]%HasSuffix_inv [q ->]%HasSuffix_inv.
  rewrite <- string_app_assoc. apply HasSuffix_app.
Qed.

Lemma testers_cover h :
  test_epub h || test_azw3 h || test_kepub h || test_aepub h
  = HasSuffix h ".epub" || HasSuffix h ".azw3".
Proof.
  unfold test_epub, test_azw3, test_kepub, test_aepub.
  pose proof (HasSuffix_trans h ".kepub.epub" ".epub") as Hk.
  pose proof (HasSuffix_trans h "_advanced.epub" ".epub") as Ha.
  destruct (HasSuffix h ".kepub.epub"), (HasSuffix h "_advanced.epub");
    try rewrite Hk by reflexivity; try rewrite Ha by reflexivity;
    destruct (HasSuffix h ".epub"), (HasSuffix h ".azw3"); reflexivity.
Qed.

Lemma FormatsTesters_four :
  FormatsTesters !! "epub" = Some test_epub ∧ FormatsTesters !! "azw3" = Some test_azw3
  ∧ FormatsTesters !! "kepub" = Some test_kepub ∧ FormatsTesters !! "aepub" = Some test_aepub.
Proof. repeat split; vm_compute; reflexivity. Qed.

(** X5. A format list whose fields are the supported names (in any order,
    a name more than once or not): [NewEbookPageParser] accepts it, and the
    parser it makes matches a URL exactly when the URL ends in [.epub] or in
    [.azw3].  The default of the [-formats] flag, the sorted keys of
    [FormatsTesters] joined by commas, is such a list. *)
Theorem all_formats_match_epub_and_azw3 (formats : string) :
  (∀ t, t ∈ Split_comma formats ↔ supported t) →
  ∃ p, NewEbookPageParser formats = inl p
       ∧ ∀ h, urlMatches p h = HasSuffix h ".epub" || HasSuffix h ".azw3".
Proof.
  intros Hfields. unfold NewEbookPageParser.
  pose proof (collectTesters_spec (Split_comma formats) []) as Hspec.
  destruct (collectTesters (Split_comma formats) []) as [ts|msg].
  2:{ exfalso. destruct Hspec as (before & ext & after & E & _ & Hext & _).
      assert (supported ext) as [f Hf] by (apply Hfields; rewrite E; set_solver).
      assert (Some f = None) as [=]
        by (transitivity (FormatsTesters !! ext); [symmetry; exact Hf|exact Hext]). }
  destruct Hspec as (fs & -> & Hfs). simpl in *.
  exists {| extensionsTesters := fs |}. split; [reflexivity|]. intros h.
  rewrite <- testers_cover. destruct FormatsTesters_four as (He & Hz & Hk & Ha).
  apply Bool.eq_iff_eq_true. rewrite (urlMatches_testers _ _ h Hfs).
  rewrite !orb_true_iff. split.
  - intros (t & f & _ & Hlook & Hfh). apply FormatsTesters_lookup in Hlook.
    destruct Hlook as [[-> ->]|[[-> ->]|[[-> ->]|[-> ->]]]]; tauto.
  - assert (∀ t f, FormatsTesters !! t = Some f → f h = true →
              ∃ t f, t ∈ Split_comma formats ∧ FormatsTesters !! t = Some f ∧ f h = true)
      as Hin.
    { intros t f Hlook Hfh. exists t, f. split; [|by split].
      apply Hfields. exists f. exact Hlook. }
    intros [[[Hh|Hh]|Hh]|Hh];
      [exact (Hin _ _ He Hh)|exact (Hin _ _ Hz Hh)|exact (Hin _ _ Hk Hh)|exact (Hin _ _ Ha Hh)].
Qed.

Lemma defaultFormats_fields t :
  t ∈ Split_comma (Join (GetKeys FormatsTesters) ",") ↔ supported t.
Proof.
  rewrite GetKeys_FormatsTesters, supported_names.
  change (Split_comma (Join ["aepub"; "azw3"; "epub"; "kepub"] ","))
    with ["aepub"; "azw3"; "epub"; "kepub"].
  rewrite !elem_of_cons, !elem_of_nil. tauto.
Qed.

(** The default format list of the program. *)
Lemma all_formats_default :
  ∃ p, NewEbookPageParser (Join (GetKeys FormatsTesters) ",") = inl p
       ∧ ∀ h, urlMatches p h = HasSuffix h ".epub" || HasSuffix h ".azw3".
Proof.
  apply (all_formats_match_epub_and_azw3 (Join (GetKeys FormatsTesters) ",")).
  exact defaultFormats_fields.
Defined.

(** ** The ebook parser in general *)

Section MoreParserProofs.
Context `{U : UrlPkg} `{H : HtmlPkg}.

(** X6. What [EbookPageParser.Parse] returns, whatever the page: the error
    of [html.Parse] and no link when the body does not parse; for a
    document, when [url.Parse] accepts every href of an anchor that an
    active format matches, these hrefs parsed, in document order and as
    often as they occur, and no error; and whenever there is no error the
    links are these. *)
Theorem ebook_parser_returns_matching_links (ebookParser : EbookPageParser)
    (htmlReader : Reader) :
  match html_Parse htmlReader with
  | inr e => EbookPageParser_Parse ebookParser htmlReader = ([], Some e)
  | inl doc =>
      let hrefs := filter (λ h, urlMatches ebookParser h = true) (anchorHrefs doc) in
      (Forall (λ h, ∃ u, url_Parse h = inl u) hrefs →
         ∃ urls, EbookPageParser_Parse ebookParser htmlReader = (urls, None)
                 ∧ Forall2 (λ h u, url_Parse h = inl u) hrefs urls)
      ∧ (∀ urls, EbookPageParser_Parse ebookParser htmlReader = (urls, None) →
           Forall2 (λ h u, url_Parse h = inl u) hrefs urls)
  end.
Proof.
  destruct (html_Parse htmlReader) as [doc|e] eqn:Hparse.
  2:{ unfold EbookPageParser_Parse. by rewrite Hparse. }
  destruct (EbookPageParser_Parse_walked ebookParser _ _ Hparse) as (st' & f & -> & Hw).
  simpl. split.
  - intros Hall. destruct (walked_all_parsed _ _ _ _ Hw Hall) as (Herr & new & Hnew & HF).
    simpl in *. exists new. by rewrite Herr, Hnew.
  - intros urls [= <- Herr].
    destruct (walked_no_error _ _ _ _ Hw Herr) as (new & Hnew & HF). simpl in Hnew.
    by rewrite Hnew.
Qed.

(** Two parsers that match the same URLs parse alike. *)
Lemma ebookAttrs_ext p1 p2 attrs :
  (∀ h, urlMatches p1 h = urlMatches p2 h) →
  ∀ st, ebookAttrs p1 attrs st = ebookAttrs p2 attrs st.
Proof.
  intros Hext. induction attrs as [|a rest IH]; intros st; simpl; [done|].
  rewrite Hext. destruct (_ && _); [|apply IH].
  destruct (url_Parse (Val a)); [apply IH|done].
Qed.

Lemma ebookParseF_ext p1 p2 n :
  (∀ h, urlMatches p1 h = urlMatches p2 h) →
  ∀ st, ebookParseF p1 n st = ebookParseF p2 n st.
Proof.
  intros Hext. induction n as [t d a cs IHcs] using Node_ind'. intros st.
  set (n := MkNode t d a cs). simpl. fold n. rewrite (ebookAttrs_ext p1 p2 a Hext).
  destruct (if isAnchor n then ebookAttrs p2 a st else (st, false)) as [st1 [|]]; [done|].
  clearbody n. revert st1.
  induction cs as [|c cs IH]; intros st1; [done|].
  apply Forall_cons in IHcs as [Hc Hall]. rewrite Hc. by apply IH.
Qed.

Lemma EbookPageParser_Parse_ext p1 p2 htmlReader :
  (∀ h, urlMatches p1 h = urlMatches p2 h) →
  EbookPageParser_Parse p1 htmlReader = EbookPageParser_Parse p2 htmlReader.
Proof.
  intros Hext. unfold EbookPageParser_Parse. destruct (html_Parse htmlReader); [|done].
  by rewrite (ebookParseF_ext p1 p2 _ Hext).
Qed.

End MoreParserProofs.

Lemma same_fields_same_matches formats1 formats2 p1 :
  NewEbookPageParser formats1 = inl p1 →
  (∀ t, t ∈ Split_comma formats1 ↔ t ∈ Split_comma formats2) →
  ∃ p2, NewEbookPageParser formats2 = inl p2 ∧ ∀ h, urlMatches p1 h = urlMatches p2 h.
Proof.
  unfold NewEbookPageParser. intros Hp1 Hfields.
  pose proof (collectTesters_spec (Split_comma formats1) []) as Hspec1.
  pose proof (collectTesters_spec (Split_comma formats2) []) as Hspec2.
  destruct (collectTesters (Split_comma formats1) []) as [ts1|msg1]; [|done].
  injection Hp1 as <-. destruct Hspec1 as (fs1 & -> & Hfs1). simpl in *.
  destruct (collectTesters (Split_comma formats2) []) as [ts2|msg2].
  - destruct Hspec2 as (fs2 & -> & Hfs2). simpl in *.
    exists {| extensionsTesters := fs2 |}. split; [done|]. intros h.
    apply Bool.eq_iff_eq_true.
    rewrite (urlMatches_testers _ _ h Hfs1), (urlMatches_testers _ _ h Hfs2).
    split; intros (t & f & Ht & Hrest); exists t, f; (split; [by apply Hfields|done]).
  - exfalso. destruct Hspec2 as (before & ext & after & E & _ & Hext & _).
    assert (ext ∈ Split_comma formats1) as Hin by (apply Hfields; rewrite E; set_solver).
    apply list_elem_of_lookup in Hin as [i Hi].
    destruct (Forall2_lookup_l _ _ _ _ _ Hfs1 Hi) as (f & _ & Hf).
    assert (Some f = None) as [=]
      by (transitivity (FormatsTesters !! ext); [symmetry; exact Hf|exact Hext]).
Qed.

(** ** More of [NormalizeURLs] *)

Section MoreOrchestratorProofs.
Context `{U : UrlPkg} `{H : HtmlPkg} `{C : !HttpPkg}.
Variable StandardEbooksMainURL : URL.

Lemma ebookBranch_ext p1 p2 d rawURL finalURLs w :
  (∀ r, EbookPageParser_Parse p1 r = EbookPageParser_Parse p2 r) →
  ebookBranch p1 d rawURL finalURLs w = ebookBranch p2 d rawURL finalURLs w.
Proof.
  intros Hext. unfold ebookBranch. run_steps. destruct (timerC w); [simpl|done].
  destruct (Get_result _ _) as [body|e]; [simpl|done]. by rewrite Hext.
Qed.

Lemma bookPage_ext role p1 p2 d rawURL bookURL finalURLs w :
  (∀ r, EbookPageParser_Parse p1 r = EbookPageParser_Parse p2 r) →
  bookPage StandardEbooksMainURL role p1 d rawURL bookURL finalURLs w
  = bookPage StandardEbooksMainURL role p2 d rawURL bookURL finalURLs w.
Proof.
  intros Hext. unfold bookPage. run_steps. destruct (timerC w); [simpl|done].
  destruct (Get_result _ _) as [body|e]; [simpl|done]. by rewrite Hext.
Qed.

Lemma booksLoop_ext role p1 p2 d rawURL booksURLs :
  (∀ r, EbookPageParser_Parse p1 r = EbookPageParser_Parse p2 r) →
  ∀ finalURLs w,
    booksLoop StandardEbooksMainURL role p1 d rawURL booksURLs finalURLs w
    = booksLoop StandardEbooksMainURL role p2 d rawURL booksURLs finalURLs w.
Proof.
  intros Hext. induction booksURLs as [|bookURL rest IH]; intros finalURLs w; simpl; [done|].
  unfold mbind, Run_bind. rewrite (bookPage_ext role p1 p2) by done.
  destruct (bookPage _ _ p2 _ _ _ _ w) as [[[fs [e|]]| | |] w']; first [done|apply IH].
Qed.

Lemma listingBranch_ext role pageParse p1 p2 d rawURL finalURLs w :
  (∀ r, EbookPageParser_Parse p1 r = EbookPageParser_Parse p2 r) →
  listingBranch StandardEbooksMainURL role pageParse p1 d rawURL finalURLs w
  = listingBranch StandardEbooksMainURL role pageParse p2 d rawURL finalURLs w.
Proof.
  intros Hext. unfold listingBranch. run_steps. destruct (timerC w); [simpl|done].
  destruct (Get_result _ _) as [body|e]; [simpl|done].
  destruct (pageParse body) as [[booksURLs [e|]]| | |]; simpl; try done.
  by apply booksLoop_ext.
Qed.

Lemma oneURL_ext p1 p2 d rawURL finalURLs w :
  (∀ r, EbookPageParser_Parse p1 r = EbookPageParser_Parse p2 r) →
  oneURL StandardEbooksMainURL p1 d rawURL finalURLs w
  = oneURL StandardEbooksMainURL p2 d rawURL finalURLs w.
Proof.
  intros Hext. unfold oneURL. destruct (classify rawURL) as [[| |]|e]; [..|done].
  - by apply ebookBranch_ext.
  - by apply listingBranch_ext.
  - by apply listingBranch_ext.
Qed.

Lemma urlsLoop_ext p1 p2 d rawURLs :
  (∀ r, EbookPageParser_Parse p1 r = EbookPageParser_Parse p2 r) →
  ∀ finalURLs w,
    urlsLoop StandardEbooksMainURL p1 d rawURLs finalURLs w
    = urlsLoop StandardEbooksMainURL p2 d rawURLs finalURLs w.
Proof.
  intros Hext. induction rawURLs as [|rawURL rest IH]; intros finalURLs w; simpl; [done|].
  unfold mbind, Run_bind. rewrite (oneURL_ext p1 p2) by done.
  destruct (oneURL _ p2 _ _ _ w) as [[[fs [e|]]| | |] w']; first [done|apply IH].
Qed.

(** X7. The order of the formats in the list, and how often each is named,
    do not matter: two lists with the same fields, of which one is accepted,
    are both accepted; the parsers they make match the same URLs and return
    the same from every page, and [NormalizeURLs] runs alike with either
    list. *)
Theorem format_order_is_irrelevant (formats1 formats2 : string) (p1 : EbookPageParser) :
  NewEbookPageParser formats1 = inl p1 →
  (∀ t, t ∈ Split_comma formats1 ↔ t ∈ Split_comma formats2) →
  ∃ p2, NewEbookPageParser formats2 = inl p2
    ∧ (∀ h, urlMatches p1 h = urlMatches p2 h)
    ∧ (∀ r, EbookPageParser_Parse p1 r = EbookPageParser_Parse p2 r)
    ∧ ∀ rawURLs d w,
        NormalizeURLs StandardEbooksMainURL rawURLs formats1 d w
        = NormalizeURLs StandardEbooksMainURL rawURLs formats2 d w.
Proof.
  intros Hp1 Hfields.
  destruct (same_fields_same_matches _ _ _ Hp1 Hfields) as (p2 & Hp2 & Hm).
  exists p2. split; [done|]. split; [done|].
  assert (∀ r, EbookPageParser_Parse p1 r = EbookPageParser_Parse p2 r) as Hext
    by (intros r; by apply EbookPageParser_Parse_ext).
  split; [done|]. intros rawURLs d w. unfold NormalizeURLs. rewrite Hp1, Hp2.
  by apply urlsLoop_ext.
Qed.

(** X8. A format list with a field that is no supported name: the run ends
    before any request.  [NormalizeURLs] returns the empty set and the
    error of the constructor, which quotes an unsupported field of the list,
    and leaves the timer and the trace as they were; [main] ends the
    process with this error right after it made the timer. *)
Theorem unsupported_format_ends_before_any_request (rawURLs : list string)
    (formats : string) (d : Z) (createFails : string → option string) (w : World) :
  (∃ t, t ∈ Split_comma formats ∧ ¬ supported t) →
  ∃ ext, ext ∈ Split_comma formats ∧ ¬ supported ext
    ∧ NormalizeURLs StandardEbooksMainURL rawURLs formats d w
      = (Done (NewURLSet, Some ("while creating EbookPageParser: " +:+ unsupportedError ext)), w)
    ∧ mainFromTimer StandardEbooksMainURL rawURLs formats d createFails w
      = (Fatal ("while creating EbookPageParser: " +:+ unsupportedError ext), NewTimer 0 w).
Proof.
  intros (t & Ht & Hno).
  assert (∃ ext, ext ∈ Split_comma formats ∧ ¬ supported ext
                 ∧ NewEbookPageParser formats = inr (unsupportedError ext)) as (ext & Hin & Hext & Hp).
  { unfold NewEbookPageParser.
    pose proof (collectTesters_spec (Split_comma formats) []) as Hspec.
    destruct (collectTesters (Split_comma formats) []) as [ts|msg].
    - exfalso. destruct Hspec as (fs & _ & Hfs).
      apply list_elem_of_lookup in Ht as [i Hi].
      destruct (Forall2_lookup_l _ _ _ _ _ Hfs Hi) as (f & _ & Hf).
      apply Hno. exists f. exact Hf.
    - destruct Hspec as (before & ext & after & E & _ & Hext & ->).
      exists ext. split; [rewrite E; set_solver|]. split; [|done].
      intros [f Hf].
      assert (Some f = None) as [=]
        by (transitivity (FormatsTesters !! ext); [symmetry; exact Hf|exact Hext]). }
  exists ext. split; [done|]. split; [done|].
  unfold mainFromTimer, NormalizeURLs, mbind, Run_bind. rewrite Hp. done.
Qed.

(** X9. A raw URL is handled once, at its first place: the run on a list of
    raw URLs is the run on the list without its repeats, and appending URLs
    that the list already holds changes nothing, neither the result nor the
    requests made. *)
Theorem repeated_urls_are_handled_once (rawURLs again : list string) (formats : string)
    (d : Z) :
  Forall (λ u, u ∈ rawURLs) again →
  NormalizeURLs StandardEbooksMainURL (rawURLs ++ again) formats d
  = NormalizeURLs StandardEbooksMainURL rawURLs formats d
  ∧ NormalizeURLs StandardEbooksMainURL (RemoveStringDuplicates rawURLs) formats d
    = NormalizeURLs StandardEbooksMainURL rawURLs formats d.
Proof.
  intros Hagain. unfold NormalizeURLs. split.
  - rewrite RemoveStringDuplicates_app.
    assert (filter (λ x, x ∉ rawURLs) (RemoveStringDuplicates again) = []) as ->;
      [|by rewrite app_nil_r].
    assert (Forall (λ u, u ∈ rawURLs) (RemoveStringDuplicates again)) as Hall.
    { apply Forall_forall. intros u Hu. apply (proj1 (RemoveStringDuplicates_elem _ _)) in Hu.
      rewrite Forall_forall in Hagain. by apply Hagain. }
    induction Hall as [|x l Hx _ IH]; [done|]. rewrite filter_cons_False by (intros Hn; by apply Hn). exact IH.
  - by rewrite (RemoveStringDuplicates_fixed _ (RemoveStringDuplicates_NoDup rawURLs)).
Qed.

End MoreOrchestratorProofs.

Section ProvenanceProofs.
Context `{U : UrlPkg} `{H : HtmlPkg} `{C : !HttpPkg}.
Variable StandardEbooksMainURL : URL.

Lemma fromPageOf_extend p from tr more u :
  fromPageOf p from tr u → fromPageOf p from (tr ++ more) u.
Proof.
  intros (i & url & t & body & doc & h & Hi & Hfrom & Hget & Hrest).
  exists i, url, t, body, doc, h. split; [by apply lookup_app_l_Some|]. split; [done|].
  split; [|done]. apply lookup_lt_Some in Hi. rewrite take_app_le by lia. done.
Qed.

Lemma gathered_extend p from s w w' more :
  trace w' = trace w ++ more → gathered p from s w → gathered p from s w'.
Proof.
  intros Htr Hg k u Hku. destruct (Hg k u Hku) as [Hk Hu]. split; [done|].
  rewrite Htr. by apply fromPageOf_extend.
Qed.

Lemma Add_lookup_inv (s : URLSet) us k u :
  set (Add s us) !! k = Some u → (u ∈ us ∧ URL_String u = k) ∨ set s !! k = Some u.
Proof.
  rewrite Add_lookup. destruct (last (filter _ us)) as [v|] eqn:El; [|by right].
  intros [= ->]. left. apply last_Some_elem_of, list_elem_of_filter in El. tauto.
Qed.

(** The step the ebook branch and the book pages share: the page at [url]
    is requested and its file links are added. *)
Lemma fetched_links_gathered p from s w f url body urls t1 t2 d more :
  gathered p from s w → from ≤ length (trace w) →
  Get_result (trace w ++ [EvWait f]) url = inl body →
  EbookPageParser_Parse p body = (urls, None) →
  gathered p from (Add s urls)
    {| now := t2; timerC := d;
       trace := ((trace w ++ [EvWait f]) ++ [EvGet url t1]) ++ more |}.
Proof.
  intros Hg Hfrom Hget HP k u Hku. apply Add_lookup_inv in Hku as [[Hu Hk]|Hku].
  - split; [done|]. simpl. apply fromPageOf_extend.
    unfold EbookPageParser_Parse in HP.
    destruct (html_Parse body) as [doc|e] eqn:Hdoc; [|done].
    destruct (EbookPageParser_Parse_walked p body doc Hdoc) as (st' & fl & HP' & Hw).
    unfold EbookPageParser_Parse in HP'. rewrite Hdoc in HP'. rewrite HP' in HP.
    injection HP as <- _.
    destruct (walked_sound _ _ _ _ _ Hw eq_refl Hu) as (h & Hh & Hp).
    apply list_elem_of_filter in Hh as [Hm Hh].
    exists (length (trace w ++ [EvWait f])), url, t1, body, doc, h.
    split; [by rewrite lookup_app_r, Nat.sub_diag by lia|].
    split; [rewrite length_app; lia|].
    split; [by rewrite take_app_length|done].
  - destruct (Hg k u Hku) as [Hk Hu]. split; [done|]. simpl.
    rewrite <- !app_assoc. by apply fromPageOf_extend.
Qed.

Lemma ebookBranch_keeps p d from rawURL s w :
  gathered p from s w → from ≤ length (trace w) →
  keeps p from (ebookBranch p d rawURL s w).
Proof.
  intros Hg Hfrom. unfold ebookBranch, keeps. run_steps.
  destruct (timerC w) as [f|]; [simpl|done].
  destruct (Get_result _ rawURL) as [body|e] eqn:Hget; simpl.
  2:{ split; [|rewrite !length_app; lia].
      eapply gathered_extend; [|done]. simpl. rewrite <- app_assoc. reflexivity. }
  destruct (EbookPageParser_Parse p body) as [urls [e|]] eqn:HP; simpl.
  - split; [|rewrite !length_app; lia].
    eapply gathered_extend; [|done]. simpl. rewrite <- !app_assoc. reflexivity.
  - split; [|rewrite !length_app; lia].
    rewrite <- (app_assoc _ _ [EvReset _ _]).
    by eapply fetched_links_gathered.
Qed.

Lemma bookPage_keeps role p d from rawURL bookURL s w :
  gathered p from s w → from ≤ length (trace w) →
  keeps p from (bookPage StandardEbooksMainURL role p d rawURL bookURL s w).
Proof.
  intros Hg Hfrom. unfold bookPage, keeps. run_steps.
  destruct (timerC w) as [f|]; [simpl|done].
  destruct (Get_result _ _) as [body|e] eqn:Hget; simpl.
  2:{ split; [|rewrite !length_app; lia].
      eapply gathered_extend; [|done]. simpl. rewrite <- app_assoc. reflexivity. }
  destruct (EbookPageParser_Parse p body) as [urls [e|]] eqn:HP; simpl.
  - split; [|rewrite !length_app; lia].
    eapply gathered_extend; [|done]. simpl. rewrite <- !app_assoc. reflexivity.
  - split; [|rewrite !length_app; lia].
    rewrite <- (app_assoc _ _ [EvReset _ _]).
    by eapply fetched_links_gathered.
Qed.

Lemma booksLoop_keeps role p d from rawURL booksURLs :
  ∀ s w, gathered p from s w → from ≤ length (trace w) →
         keeps p from (booksLoop StandardEbooksMainURL role p d rawURL booksURLs s w).
Proof.
  induction booksURLs as [|bookURL rest IH]; intros s w Hg Hfrom; simpl.
  - unfold keeps. simpl. done.
  - pose proof (bookPage_keeps role p d from rawURL bookURL s w Hg Hfrom) as Hb.
    unfold mbind, Run_bind.
    destruct (bookPage _ _ _ _ _ _ _ w) as [[[s1 [e|]]| | |] w1]; simpl in *; try done.
    destruct Hb as (Hg1 & Hfrom1). by apply IH.
Qed.

Lemma listingBranch_keeps role pageParse p d from rawURL s w :
  gathered p from s w → from ≤ length (trace w) →
  keeps p from (listingBranch StandardEbooksMainURL role pageParse p d rawURL s w).
Proof.
  intros Hg Hfrom. unfold listingBranch. run_steps.
  destruct (timerC w) as [f|]; [simpl|done].
  destruct (Get_result _ rawURL) as [body|e] eqn:Hget; simpl.
  2:{ split; [|rewrite !length_app; lia].
      eapply gathered_extend; [|done]. simpl. rewrite <- app_assoc. reflexivity. }
  destruct (pageParse body) as [[booksURLs [e|]]| | |]; simpl; try done.
  - split; [|rewrite !length_app; lia].
    eapply gathered_extend; [|done]. simpl. rewrite <- !app_assoc. reflexivity.
  - match goal with |- context [booksLoop _ _ _ _ _ _ _ ?w1] =>
      pose proof (booksLoop_keeps role p d from rawURL booksURLs s w1) as Hb
    end.
    apply Hb.
    + eapply gathered_extend; [|done]. simpl. rewrite <- !app_assoc. reflexivity.
    + simpl. rewrite !length_app. lia.
Qed.

Lemma oneURL_keeps p d from rawURL s w :
  gathered p from s w → from ≤ length (trace w) →
  keeps p from (oneURL StandardEbooksMainURL p d rawURL s w).
Proof.
  intros Hg Hfrom. unfold oneURL. destruct (classify rawURL) as [[| |]|e].
  - by apply ebookBranch_keeps.
  - by apply listingBranch_keeps.
  - by apply listingBranch_keeps.
  - simpl. done.
Qed.

Lemma urlsLoop_keeps p d from rawURLs :
  ∀ s w, gathered p from s w → from ≤ length (trace w) →
         keeps p from (urlsLoop StandardEbooksMainURL p d rawURLs s w).
Proof.
  induction rawURLs as [|rawURL rest IH]; intros s w Hg Hfrom; simpl.
  - unfold keeps. simpl. done.
  - pose proof (oneURL_keeps p d from rawURL s w Hg Hfrom) as Hb.
    unfold mbind, Run_bind.
    destruct (oneURL _ _ _ _ _ w) as [[[s1 [e|]]| | |] w1]; simpl in *; try done.
    destruct Hb as (Hg1 & Hfrom1). by apply IH.
Qed.

(** X10. Where the file links come from.  Every URL of the set that
    [NormalizeURLs] returns (with an error or without) was parsed from an
    href that an active format accepts, on an anchor of a page that this
    run requested and that parsed to a document; and no two URLs of the set
    have the same string form. *)
Theorem NormalizeURLs_returns_links_of_fetched_pages (rawURLs : list string)
    (formats : string) (d : Z) (w w' : World) (ebookParser : EbookPageParser)
    (fs : URLSet) (e : option string) :
  NewEbookPageParser formats = inl ebookParser →
  NormalizeURLs StandardEbooksMainURL rawURLs formats d w = (Done (fs, e), w') →
  NoDup (URL_String <$> ToSlice fs)
  ∧ Forall (fromPageOf ebookParser (length (trace w)) (trace w')) (ToSlice fs).
Proof.
  intros Hp Hrun. unfold NormalizeURLs in Hrun. rewrite Hp in Hrun.
  pose proof (urlsLoop_keeps ebookParser d (length (trace w))
                (RemoveStringDuplicates rawURLs) NewURLSet w) as Hk.
  rewrite Hrun in Hk. destruct Hk as (Hg & _); [|done|].
  { intros k u Hku. unfold NewURLSet in Hku. simpl in Hku. by rewrite lookup_empty in Hku. }
  split.
  - apply ToSlice_NoDup. intros k u Hku. by destruct (Hg k u Hku).
  - apply Forall_forall. intros u Hu. unfold ToSlice in Hu.
    apply list_elem_of_fmap in Hu as ([k u'] & -> & Hku).
    apply elem_of_map_to_list in Hku. by destruct (Hg k u' Hku).
Qed.

(** X11. The timer must be running when [NormalizeURLs] is called, as its
    comment asks: with a timer that will not send, a call whose first raw
    URL is the URL of a page blocks for ever, before any request. *)
Theorem unarmed_timer_blocks (rawURL : string) (rest : list string) (formats : string)
    (ebookParser : EbookPageParser) (kind : PageKind) (d : Z) (w : World) :
  NewEbookPageParser formats = inl ebookParser →
  classify rawURL = inl kind →
  timerC w = None →
  NormalizeURLs StandardEbooksMainURL (rawURL :: rest) formats d w = (Blocked, w).
Proof.
  intros Hp Hkind Ht. unfold NormalizeURLs. rewrite Hp, RemoveStringDuplicates_cons.
  cbn [urlsLoop]. unfold mbind, Run_bind, oneURL. rewrite Hkind.
  destruct kind; unfold ebookBranch, listingBranch; run_steps; by rewrite Ht.
Qed.

(** ** The downloads *)

(** X12. The files are requested in the order of the slice, each at the
    URL resolved against the main URL: the requests of the loop of [main]
    are those of the first [k] URLs of the slice, all of them when the loop
    comes to its end. *)
Theorem downloads_in_order (d : Z) (createFails : string → option string)
    (urls : list URL) (w : World) :
  let run := downloads StandardEbooksMainURL d createFails urls w in
  ∃ k, k ≤ length urls
    ∧ requested (trace run.2)
      = requested (trace w)
        ++ ((λ u, URL_String (ResolveReference StandardEbooksMainURL u)) <$> take k urls)
    ∧ (run.1 = Done () → k = length urls).
Proof.
  revert w. induction urls as [|u rest IH]; intros w; simpl.
  - exists 0. simpl. rewrite app_nil_r. done.
  - unfold mbind, Run_bind, download.
    destruct (createFails _) as [e|]; simpl.
    { exists 0. simpl. rewrite app_nil_r. split; [lia|done]. }
    run_steps. destruct (timerC w) as [f|]; simpl.
    2:{ exists 0. simpl. rewrite app_nil_r. split; [lia|done]. }
    destruct (Get_result _ _) as [body|e]; simpl.
    2:{ exists 1. simpl. split; [lia|]. split; [|done].
        rewrite !requested_app. simpl. by rewrite app_nil_r. }
    destruct (Copy_error body) as [e|]; simpl.
    all: match goal with |- context [downloads _ _ _ _ ?w1] =>
           destruct (IH w1) as (k & Hk & Hreq & Hdone)
         end.
    all: exists (S k); split; [lia|]; split; [|intros Hd; f_equal; by apply Hdone].
    all: rewrite Hreq; simpl; rewrite !requested_app; simpl.
    all: rewrite ?app_nil_r, <- ?app_assoc; done.
Qed.

End ProvenanceProofs.

(** ** The time a run takes *)

Lemma getTimes_app tr1 tr2 : getTimes (tr1 ++ tr2) = getTimes tr1 ++ getTimes tr2.
Proof. apply omap_app. Qed.

Lemma Rounds_gaps cut d f n tr :
  Rounds cut d f n tr →
  (∀ i t, getTimes tr !! i = Some t →
     (t + Z.of_nat (length (getTimes tr) - i) * d ≤ f)%Z)
  ∧ (∀ i j ti tj, i ≤ j → getTimes tr !! i = Some ti → getTimes tr !! j = Some tj →
       (ti + Z.of_nat (j - i) * d ≤ tj)%Z).
Proof.
  induction 1 as [|f n tr tw url tg tb ts Hr [IH1 IH2] Hf Hn Hwg Hgb Hbs
                  |f n tr tw url tg ts Hr [IH1 IH2] Hcut Hf Hn Hwg Hgs].
  - split; [intros i t Hi|intros i j ti tj _ Hi _];
      change (getTimes []) with (@nil Z) in Hi; by rewrite lookup_nil in Hi.
  - rewrite getTimes_app. simpl. rewrite length_app. simpl.
    set (len := length (getTimes tr)) in *. split.
    + intros i t Hi. apply lookup_app_Some in Hi as [Hi|[Hge Hi]].
      * specialize (IH1 i t Hi). apply lookup_lt_Some in Hi. fold len in Hi.
        replace (Z.of_nat (len + 1 - i)) with (Z.of_nat (len - i) + 1)%Z by lia.
        rewrite Z.mul_add_distr_r. lia.
      * fold len in Hge, Hi. destruct (i - len) as [|k] eqn:E; [|by destruct k].
        injection Hi as <-. replace (Z.of_nat (len + 1 - i)) with 1%Z by lia. lia.
    + intros i j ti tj Hij Hi Hj. apply lookup_app_Some in Hj as [Hj|[Hge Hj]].
      * apply lookup_lt_Some in Hj as Hlt. fold len in Hlt.
        rewrite lookup_app_l in Hi by (fold len; lia). by apply IH2.
      * fold len in Hge, Hj. destruct (j - len) as [|k] eqn:E; [|by destruct k].
        injection Hj as <-. apply lookup_app_Some in Hi as [Hi|[Hge' Hi]].
        -- specialize (IH1 i ti Hi). replace (j - i) with (len - i) by lia. lia.
        -- fold len in Hge', Hi. destruct (i - len) as [|k] eqn:E'; [|by destruct k].
           injection Hi as <-. replace (j - i) with 0 by lia. lia.
  - rewrite getTimes_app. simpl. rewrite length_app. simpl.
    set (len := length (getTimes tr)) in *. split.
    + intros i t Hi. apply lookup_app_Some in Hi as [Hi|[Hge Hi]].
      * specialize (IH1 i t Hi). apply lookup_lt_Some in Hi. fold len in Hi.
        replace (Z.of_nat (len + 1 - i)) with (Z.of_nat (len - i) + 1)%Z by lia.
        rewrite Z.mul_add_distr_r. lia.
      * fold len in Hge, Hi. destruct (i - len) as [|k] eqn:E; [|by destruct k].
        injection Hi as <-. replace (Z.of_nat (len + 1 - i)) with 1%Z by lia. lia.
    + intros i j ti tj Hij Hi Hj. apply lookup_app_Some in Hj as [Hj|[Hge Hj]].
      * apply lookup_lt_Some in Hj as Hlt. fold len in Hlt.
        rewrite lookup_app_l in Hi by (fold len; lia). by apply IH2.
      * fold len in Hge, Hj. destruct (j - len) as [|k] eqn:E; [|by destruct k].
        injection Hj as <-. apply lookup_app_Some in Hi as [Hi|[Hge' Hi]].
        -- specialize (IH1 i ti Hi). replace (j - i) with (len - i) by lia. lia.
        -- fold len in Hge', Hi. destruct (i - len) as [|k] eqn:E'; [|by destruct k].
           injection Hi as <-. replace (j - i) with 0 by lia. lia.
Qed.

Lemma Paced_gaps cut d tr :
  Paced cut d tr →
  ∀ i j ti tj, i ≤ j → getTimes tr !! i = Some ti → getTimes tr !! j = Some tj →
    (ti + Z.of_nat (j - i) * d ≤ tj)%Z.
Proof.
  intros (f & n & rounds & last & -> & Hr & Hlast).
  destruct (Rounds_gaps cut d f n rounds Hr) as [IH1 IH2].
  assert (∀ tw url tg more, (f ≤ tw)%Z → (tw ≤ tg)%Z → getTimes more = [] →
            ∀ i j ti tj, i ≤ j →
              getTimes (rounds ++ EvWait tw :: EvGet url tg :: more) !! i = Some ti →
              getTimes (rounds ++ EvWait tw :: EvGet url tg :: more) !! j = Some tj →
              (ti + Z.of_nat (j - i) * d ≤ tj)%Z) as Hstep.
  { intros tw url tg more Hf Hwg Hmore i j ti tj Hij. rewrite getTimes_app. simpl.
    fold (getTimes more). rewrite Hmore.
    set (len := length (getTimes rounds)) in *. intros Hi Hj.
    apply lookup_app_Some in Hj as [Hj|[Hge Hj]].
    - apply lookup_lt_Some in Hj as Hlt. fold len in Hlt.
      rewrite lookup_app_l in Hi by (fold len; lia). by apply IH2.
    - fold len in Hge, Hj. destruct (j - len) as [|k] eqn:E; [|by destruct k].
      injection Hj as <-. apply lookup_app_Some in Hi as [Hi|[Hge' Hi]].
      + specialize (IH1 i ti Hi). fold len in IH1.
        replace (j - i) with (len - i) by lia. lia.
      + fold len in Hge', Hi. destruct (i - len) as [|k] eqn:E'; [|by destruct k].
        injection Hi as <-. replace (j - i) with 0 by lia. lia. }
  destruct Hlast as [|tw url tg Hf Hn Hwg|tw url tg tb Hf Hn Hwg Hgb].
  - rewrite app_nil_r. exact IH2.
  - by apply Hstep.
  - by apply Hstep.
Qed.

Section TimeProofs.
Context `{U : UrlPkg} `{H : HtmlPkg} `{C : !HttpPkg}.
Variable StandardEbooksMainURL : URL.

(** X13. The time a run of [main] takes: of two requests, the later one
    is made at least as many intervals after the earlier one as there are
    requests from the one to the other; [n] requests take [n - 1] intervals
    or more. *)
Theorem requests_take_their_time (urlsToProcess : list string) (extensions : string)
    (duration : Z) (createFails : string → option string) (t0 : Z) (i j : nat) (ti tj : Z) :
  let run := mainFromTimer StandardEbooksMainURL urlsToProcess extensions duration createFails
               {| now := t0; timerC := None; trace := [] |} in
  i ≤ j →
  getTimes (trace run.2) !! i = Some ti →
  getTimes (trace run.2) !! j = Some tj →
  (ti + Z.of_nat (j - i) * duration ≤ tj)%Z.
Proof.
  intros run. apply (Paced_gaps copyFails).
  apply (mainFromTimer_Paced StandardEbooksMainURL).
Qed.

End TimeProofs.

(** ** The interval *)

(** X14. The interval [main] makes of [-connection-wait]: a negative value
    ends the process with code 2; a value up to 9223372036 seconds gives
    that many seconds, in nanoseconds; beyond it the multiplication leaves
    the range of [int64] and the interval is not the one asked for, for
    9223372037 seconds a negative one. *)
Theorem connection_wait_interval (connectionWait : Z) :
  (- 2 ^ 63 ≤ connectionWait < 2 ^ 63)%Z →
  ((connectionWait < 0)%Z → durationOf connectionWait = inr 2%Z)
  ∧ ((0 ≤ connectionWait ≤ 9223372036)%Z →
       durationOf connectionWait = inl (connectionWait * Second)%Z)
  ∧ ((9223372036 < connectionWait)%Z →
       ∃ d, durationOf connectionWait = inl d ∧ d ≠ (connectionWait * Second)%Z
            ∧ (- 2 ^ 63 ≤ d < 2 ^ 63)%Z)
  ∧ durationOf 9223372037 = inl (-9223372036709551616)%Z.
Proof.
  intros Hrange. unfold durationOf, wrap64, Second. split; [|split; [|split]].
  - intros Hneg. by rewrite (proj2 (Z.ltb_lt _ _) Hneg).
  - intros Hok. rewrite (proj2 (Z.ltb_ge _ _)) by lia. f_equal.
    rewrite Z.mod_small by lia. lia.
  - intros Hbig. rewrite (proj2 (Z.ltb_ge _ _)) by lia. eexists. split; [reflexivity|].
    pose proof (Z.mod_pos_bound (connectionWait * 1000000000 + 2 ^ 63) (2 ^ 64)) as Hb.
    split; lia.
  - reflexivity.
Qed.

(** The default of the flag: one second. *)
Lemma connection_wait_default : durationOf 1 = inl 1000000000%Z.
Proof.
  destruct (connection_wait_interval 1) as (_ & Hok & _); [lia|].
  rewrite Hok by lia. reflexivity.
Defined.

(** ** The older test of a URL, and the names of the files *)

Lemma string_take_app p s : string_take (String.length p) (p +:+ s) = p.
Proof. induction p as [|c p IH]; [done|]. rewrite string_app_cons. simpl. by rewrite IH. Qed.

Lemma TrimSuffix_app p suffix : TrimSuffix (p +:+ suffix) suffix = p.
Proof.
  unfold TrimSuffix. rewrite HasSuffix_app, string_length_app.
  replace (String.length p + String.length suffix - String.length suffix)
    with (String.length p) by lia.
  apply string_take_app.
Qed.

Lemma SplitOn_app sep p rest :
  SplitOn sep (p +:+ String sep rest) = SplitOn sep p ++ SplitOn sep rest.
Proof.
  induction p as [|c p IH]; simpl.
  - by rewrite Ascii.eqb_refl.
  - rewrite IH. destruct (Ascii.eqb c sep); [done|].
    pose proof (SplitOn_nonempty sep p) as Hne.
    by destruct (SplitOn sep p) as [|t ts].
Qed.

Lemma last_app_nonempty (l1 l2 : list string) d :
  l2 ≠ [] → List.last (l1 ++ l2) d = List.last l2 d.
Proof.
  intros Hne. induction l1 as [|x l1 IH]; [done|]. simpl.
  destruct (l1 ++ l2) eqn:E; [|done]. apply app_eq_nil in E as [_ ->]. done.
Qed.

Lemma stripTrailingSlashes_file dir name :
  noByte "/" name = true → name ≠ EmptyString →
  Legacy.stripTrailingSlashes (dir +:+ name) = dir +:+ name.
Proof.
  intros Hname Hne. induction dir as [|c dir IH].
  - rewrite string_app_nil_l. clear -Hname Hne.
    induction name as [|c name IH]; [done|]. simpl in *.
    apply andb_true_iff in Hname as [Hc Hname]. apply negb_true_iff in Hc.
    destruct name as [|c' name]; simpl.
    + by rewrite Hc.
    + simpl in IH. rewrite IH by done. done.
  - rewrite string_app_cons. simpl. rewrite IH.
    destruct (dir +:+ name) eqn:E; [|done].
    apply string_app_eq_nil in E as [_ ->]. done.
Qed.

(** [path.Base] of a path that ends in a file name. *)
Lemma Base_file dir name :
  noByte "/" name = true → name ≠ EmptyString →
  Legacy.Base (dir +:+ "/" +:+ name) = name ∧ Legacy.Base name = name.
Proof.
  intros Hname Hne.
  assert (String.eqb name EmptyString = false) as Hnb by by apply String.eqb_neq.
  assert (∀ p, String.eqb (p +:+ name) EmptyString = false) as Hpb.
  { intros p. apply String.eqb_neq. by intros [_ ?]%string_app_eq_nil. }
  split.
  - unfold Legacy.Base. rewrite <- string_app_assoc, Hpb.
    rewrite stripTrailingSlashes_file by done.
    rewrite string_app_assoc. change ("/" +:+ name) with (String "/" name).
    rewrite SplitOn_app, last_app_nonempty by apply SplitOn_nonempty.
    rewrite SplitOn_single by done. simpl. by rewrite Hnb.
  - pose proof (stripTrailingSlashes_file EmptyString name Hname Hne) as Hs.
    rewrite !string_app_nil_l in Hs.
    unfold Legacy.Base. rewrite Hnb, Hs, SplitOn_single by done. simpl. by rewrite Hnb.
Qed.

Lemma Join_dot_SplitOn s : Legacy.Join_dot (SplitOn "." s) = s.
Proof.
  rewrite <- (Join_SplitOn "." s) at 2.
  induction (SplitOn "."%char s) as [|t ts IH]; [done|].
  destruct ts as [|t' ts]; [done|]. simpl in *. by rewrite IH.
Qed.

Lemma noByte_app sep s t : noByte sep (s +:+ t) = noByte sep s && noByte sep t.
Proof. apply string_forall_app. Qed.

Lemma legacy_urlMatches_name ebookParser stem ext :
  noByte "." stem = true →
  let exts := SplitOn "." (stem +:+ "." +:+ ext) in
  (if length exts <? 2 then false
   else if 2 <? length exts then
     Legacy.IsIn ("." +:+ Legacy.Join_dot (drop 1 exts)) (Legacy.extensions ebookParser)
   else Legacy.IsIn ("." +:+ default EmptyString (exts !! 1)) (Legacy.extensions ebookParser))
  = Legacy.IsIn ("." +:+ ext) (Legacy.extensions ebookParser).
Proof.
  intros Hstem. change ("." +:+ ext) with (String "." ext) at 1.
  rewrite SplitOn_field by done. cbv zeta.
  pose proof (Join_dot_SplitOn ext) as Hj.
  pose proof (SplitOn_nonempty "." ext) as Hne.
  destruct (SplitOn "."%char ext) as [|e1 [|e2 es]]; [done| |].
  - simpl in *. by rewrite Hj.
  - cbn [length drop Nat.ltb Nat.leb]. by rewrite Hj.
Qed.

(** X15. The older [urlMatches] looks at the last element of the URL and
    at what follows its first dot: the URL matches exactly when this, with
    the dot, is one of the parser's suffixes; a last element without a dot
    does not match.  So it takes [b_advanced.epub] for a plain epub. *)
Theorem legacy_urlMatches_after_first_dot (ebookParser : Legacy.EbookPageParser)
    (dir stem ext : string) :
  noByte "/" stem = true → noByte "." stem = true → noByte "/" ext = true →
  Legacy.urlMatches ebookParser (dir +:+ "/" +:+ stem +:+ "." +:+ ext)
    = Legacy.IsIn ("." +:+ ext) (Legacy.extensions ebookParser)
  ∧ Legacy.urlMatches ebookParser (stem +:+ "." +:+ ext)
    = Legacy.IsIn ("." +:+ ext) (Legacy.extensions ebookParser)
  ∧ (stem ≠ EmptyString → Legacy.urlMatches ebookParser (dir +:+ "/" +:+ stem) = false).
Proof.
  intros Hs1 Hs2 He.
  assert (noByte "/" (stem +:+ "." +:+ ext) = true) as Hname.
  { rewrite !noByte_app, Hs1, He. reflexivity. }
  assert (stem +:+ "." +:+ ext ≠ EmptyString) as Hne.
  { intros [_ [=]]%string_app_eq_nil. }
  destruct (Base_file dir _ Hname Hne) as [Hb1 Hb2].
  unfold Legacy.urlMatches. rewrite Hb1, Hb2.
  split; [by apply legacy_urlMatches_name|]. split; [by apply legacy_urlMatches_name|].
  intros Hstem. destruct (Base_file dir stem Hs1 Hstem) as [-> _].
  by rewrite SplitOn_single.
Qed.

(** X16. The name a file is saved under is the last element of its URL;
    with [-trim-kepub], a name that ends in [.kepub.epub] loses its
    [.epub], and every other name stays. *)
Theorem download_file_names (trimKepub : bool) (dir name : string) :
  noByte "/" name = true → name ≠ EmptyString →
  downloadName false (dir +:+ "/" +:+ name) = name
  ∧ (HasSuffix name ".kepub.epub" = false →
       downloadName trimKepub (dir +:+ "/" +:+ name) = name)
  ∧ (∀ stem, name = stem +:+ ".kepub.epub" →
       downloadName true (dir +:+ "/" +:+ name) = stem +:+ ".kepub").
Proof.
  intros Hname Hne. destruct (Base_file dir name Hname Hne) as [Hb _].
  unfold downloadName. rewrite Hb. split; [done|]. split.
  - intros ->. by rewrite andb_false_r.
  - intros stem ->. rewrite HasSuffix_app. simpl.
    change (stem +:+ ".kepub.epub") with (stem +:+ ".kepub" +:+ ".epub").
    rewrite <- string_app_assoc. apply TrimSuffix_app.
Qed.

(** ** The dot of the host name *)

(** X17. The dot of [standardebooks.org] is not escaped in the patterns, and
    the patterns are not anchored at the start: with any byte but a newline
    at the place of the dot, and after any text, a URL of the ebook shape
    takes the ebook branch. *)
Theorem any_byte_for_the_dot (junk : string) (c : ascii) (slug rest : string) :
  c ≠ newline → slug ≠ EmptyString → slugBytes slug = true → noNewline rest = true →
  classify (junk +:+ "https://standardebooks" +:+ String c "org/ebooks/" +:+ slug
              +:+ "/" +:+ rest) = inl Ebook.
Proof.
  intros Hc Hne Hslug Hrest. unfold classify.
  assert (MatchString StandardEbooksMainRegex
            (junk +:+ "https://standardebooks" +:+ String c "org/ebooks/" +:+ slug
               +:+ "/" +:+ rest) = true) as ->.
  { apply MatchString_app_l, MatchString_complete.
    change StandardEbooksMainRegex with
      (lit "https://standardebooks" (Cat AnyNotNL (lit "org/" tailRegex))).
    change (String c "org/ebooks/" +:+ slug +:+ "/" +:+ rest) with
      (String c EmptyString +:+ "org/" +:+ "ebooks/" +:+ slug +:+ "/" +:+ rest).
    apply Matches_lit. constructor; [by constructor|].
    apply Matches_lit, Matches_tail. unfold noNewline in *.
    rewrite !string_forall_app. fold (noNewline slug).
    rewrite (slugBytes_noNewline slug Hslug), Hrest. reflexivity. }
  assert (MatchString EbookURLRegex
            (junk +:+ "https://standardebooks" +:+ String c "org/ebooks/" +:+ slug
               +:+ "/" +:+ rest) = true) as ->.
  { apply MatchString_app_l, MatchString_complete.
    change EbookURLRegex with
      (lit "https://standardebooks" (Cat AnyNotNL (lit "org/ebooks/"
         (Cat (Plus slugClass) (Cat (Chr "/") tailRegex))))).
    change (String c "org/ebooks/" +:+ slug +:+ "/" +:+ rest) with
      (String c EmptyString +:+ "org/ebooks/" +:+ slug +:+ "/" +:+ rest).
    apply Matches_lit. constructor; [by constructor|].
    apply Matches_lit. constructor; [by apply Matches_slug|].
    constructor; [constructor|]. by apply Matches_tail. }
  done.
Qed.

(** ** Regular expressions: a match found is a match *)

Lemma nullable_sound b r :
  nullable b r = true →
  ∀ rest, (b = true → rest = EmptyString) → Matches r EmptyString rest.
Proof.
  induction r as [| | | | | |r1 IH1 r2 IH2|r1 IH1 r2 IH2|r IH]; simpl; intros Hn rest Hb;
    try done.
  - constructor.
  - rewrite Hb by done. constructor.
  - apply andb_true_iff in Hn as [H1 H2].
    change EmptyString with (EmptyString +:+ EmptyString) at 1.
    constructor; [by apply IH1|by apply IH2].
  - apply orb_true_iff in Hn as [H1|H2]; [apply M_AltL; by apply IH1|apply M_AltR; by apply IH2].
  - constructor.
Qed.

Lemma Matches_Cat_inv a b w rest :
  Matches (Cat a b) w rest →
  ∃ w1 w2, w = w1 +:+ w2 ∧ Matches a w1 (w2 +:+ rest) ∧ Matches b w2 rest.
Proof. inversion 1; subst. by eexists _, _. Qed.

Lemma Matches_Alt_inv a b w rest :
  Matches (Alt a b) w rest → Matches a w rest ∨ Matches b w rest.
Proof. inversion 1; subst; [by left|by right]. Qed.

Lemma Matches_Chr_inv c w rest : Matches (Chr c) w rest → w = String c EmptyString.
Proof. by inversion 1. Qed.

Lemma Matches_Eps_inv w rest : Matches Eps w rest → w = EmptyString.
Proof. by inversion 1. Qed.

Lemma Matches_Any_inv w rest :
  Matches AnyNotNL w rest → ∃ c, w = String c EmptyString ∧ c ≠ newline.
Proof. inversion 1; subst. by eexists. Qed.

Lemma Matches_Class_inv ranges w rest :
  Matches (Class ranges) w rest → ∃ c, w = String c EmptyString ∧ inClass c ranges = true.
Proof. inversion 1; subst. by eexists. Qed.

Lemma deriv_sound r :
  ∀ c w rest, Matches (deriv c r) w rest → Matches r (String c w) rest.
Proof.
  induction r as [| |d| |ranges| |r1 IH1 r2 IH2|r1 IH1 r2 IH2|r IH]; simpl;
    intros c w rest Hm.
  - inversion Hm.
  - inversion Hm.
  - destruct (Ascii.eqb_spec c d) as [->|Hne]; [|inversion Hm].
    apply Matches_Eps_inv in Hm as ->. constructor.
  - destruct (Ascii.eqb_spec c newline) as [->|Hne]; [inversion Hm|].
    apply Matches_Eps_inv in Hm as ->. by constructor.
  - destruct (inClass c ranges) eqn:E; [|inversion Hm].
    apply Matches_Eps_inv in Hm as ->. by constructor.
  - inversion Hm.
  - assert (Matches (Cat (deriv c r1) r2) w rest → Matches (Cat r1 r2) (String c w) rest)
      as Hcat.
    { intros (w1 & w2 & -> & Ha & Hb)%Matches_Cat_inv.
      change (String c (w1 +:+ w2)) with (String c w1 +:+ w2).
      constructor; [by apply IH1|done]. }
    destruct (nullable false r1) eqn:En; [|by apply Hcat].
    apply Matches_Alt_inv in Hm as [Hm|Hm]; [by apply Hcat|].
    change (String c w) with (EmptyString +:+ String c w).
    constructor; [|by apply IH2]. by apply (nullable_sound false).
  - apply Matches_Alt_inv in Hm as [Hm|Hm]; [apply M_AltL; by apply IH1|apply M_AltR; by apply IH2].
  - apply Matches_Cat_inv in Hm as (w1 & w2 & -> & Ha & Hb).
    change (String c (w1 +:+ w2)) with (String c w1 +:+ w2).
    constructor; [by apply IH|done].
Qed.

Lemma matchHere_sound s :
  ∀ r, matchHere r s = true → ∃ w rest, s = w +:+ rest ∧ Matches r w rest.
Proof.
  induction s as [|c s IH]; intros r; simpl.
  - intros Hn. exists EmptyString, EmptyString. split; [done|].
    by apply (nullable_sound true).
  - intros [Hn|Hm]%orb_true_iff.
    + exists EmptyString, (String c s). split; [done|]. by apply (nullable_sound false).
    + destruct (IH _ Hm) as (w & rest & -> & Hw).
      exists (String c w), rest. split; [done|]. by apply deriv_sound.
Qed.

Lemma MatchString_sound re s :
  MatchString re s = true →
  ∃ pre w rest, s = pre +:+ w +:+ rest ∧ Matches re w rest.
Proof.
  induction s as [|c s IH]; cbn [MatchString]; intros [Hm|Hm]%orb_true_iff.
  - apply matchHere_sound in Hm as (w & rest & E & Hw). by exists EmptyString, w, rest.
  - done.
  - apply matchHere_sound in Hm as (w & rest & E & Hw). by exists EmptyString, w, rest.
  - destruct (IH Hm) as (pre & w & rest & -> & Hw). by exists (String c pre), w, rest.
Qed.

Lemma Matches_lit_inv s k :
  ∀ w rest, Matches (lit s k) w rest → ∃ w', w = s +:+ w' ∧ Matches k w' rest.
Proof.
  induction s as [|c s IH]; simpl; intros w rest Hm.
  - by exists w.
  - apply Matches_Cat_inv in Hm as (w1 & w2 & -> & Hc & Hk).
    apply Matches_Chr_inv in Hc as ->. destruct (IH _ _ Hk) as (w' & -> & Hw').
    by exists w'.
Qed.

(** ** Where a match of the patterns can start *)

Lemma split_at_unique c a b a' b' :
  a +:+ String c b = a' +:+ String c b' →
  noByte c a = true → noByte c b = true → a = a' ∧ b = b'.
Proof.
  unfold noByte. revert a'. induction a as [|x a IH]; intros [|x' a']; simpl; intros E Ha Hb.
  - by injection E.
  - exfalso. injection E as <- ->. rewrite string_forall_app in Hb. simpl in Hb.
    rewrite Ascii.eqb_refl in Hb. simpl in Hb. by rewrite andb_false_r in Hb.
  - exfalso. injection E as -> _. by rewrite Ascii.eqb_refl in Ha.
  - injection E as -> E. apply andb_true_iff in Ha as [_ Ha].
    destruct (IH _ E Ha Hb) as [-> ->]. done.
Qed.

(** The four patterns begin with the address of the site, which holds a
    colon: in a text whose only colon is that of [https:], a match starts
    at the head. *)
Lemma site_match_at_head k t :
  MatchString (lit "https://standardebooks" k) ("https://standardebooks" +:+ t) = true →
  noByte ":" t = true →
  ∃ w rest, t = w +:+ rest ∧ Matches k w rest.
Proof.
  intros (pre & w & rest & E & Hm)%MatchString_sound Ht.
  apply Matches_lit_inv in Hm as (w' & -> & Hk).
  exists w', rest. split; [|done].
  change ("https://standardebooks" +:+ t)
    with ("https" +:+ String ":" ("//standardebooks" +:+ t)) in E.
  replace (pre +:+ ("https://standardebooks" +:+ w') +:+ rest)
    with ((pre +:+ "https") +:+ String ":" ("//standardebooks" +:+ w' +:+ rest)) in E.
  2:{ rewrite !string_app_assoc. reflexivity. }
  apply split_at_unique in E as [_ E]; [| reflexivity |].
  - by injection E.
  - rewrite noByte_app, Ht. reflexivity.
Qed.

Lemma site_no_match k s :
  noByte ":" s = true → MatchString (lit "https://standardebooks" k) s = false.
Proof.
  intros Hs. destruct (MatchString _ s) eqn:Hm; [exfalso|done].
  apply MatchString_sound in Hm as (pre & w & rest & -> & Hm).
  apply Matches_lit_inv in Hm as (w' & -> & _).
  unfold noByte in Hs. rewrite !string_forall_app in Hs. simpl in Hs.
  by rewrite !andb_false_r in Hs.
Qed.

Lemma slugBytes_app s t : slugBytes (s +:+ t) = slugBytes s && slugBytes t.
Proof. apply string_forall_app. Qed.

Lemma slugBytes_noColon s : slugBytes s = true → noByte ":" s = true.
Proof.
  unfold slugBytes, noByte. induction s as [|c s IH]; [done|]. simpl.
  intros [Hc Hs]%andb_true_iff. rewrite IH by done. rewrite andb_true_r.
  apply negb_true_iff, Ascii.eqb_neq. intros ->. done.
Qed.

Lemma noNewline_app s t : noNewline (s +:+ t) = noNewline s && noNewline t.
Proof. apply string_forall_app. Qed.

(** X18. A URL [https://standardebooks.org/ebooks/<slug>], the slug made of
    letters and dashes and nothing after it, takes the author branch: the
    ebook pattern asks for a slash after the slug and the collection
    pattern for another path. *)
Theorem author_shape (slug : string) :
  slug ≠ EmptyString → slugBytes slug = true →
  classify ("https://standardebooks.org/ebooks/" +:+ slug) = inl Author
  ∧ MatchString EbookURLRegex ("https://standardebooks.org/ebooks/" +:+ slug) = false
  ∧ MatchString CollectionURLRegex ("https://standardebooks.org/ebooks/" +:+ slug) = false.
Proof.
  intros Hne Hslug.
  assert (noByte ":" (".org/ebooks/" +:+ slug) = true) as Hcolon.
  { rewrite noByte_app, (slugBytes_noColon slug Hslug). reflexivity. }
  assert (MatchString EbookURLRegex ("https://standardebooks.org/ebooks/" +:+ slug) = false)
    as Hebook.
  { destruct (MatchString EbookURLRegex _) eqn:Hm; [exfalso|done].
    change EbookURLRegex with
      (lit "https://standardebooks" (Cat AnyNotNL (lit "org/ebooks/"
         (Cat (Plus slugClass) (Cat (Chr "/") tailRegex))))) in Hm.
    apply (site_match_at_head _ (".org/ebooks/" +:+ slug)) in Hm as (w & rest & E & Hm);
      [|done].
    apply Matches_Cat_inv in Hm as (w1 & w2 & -> & (c & -> & _)%Matches_Any_inv & Hm).
    apply Matches_lit_inv in Hm as (w3 & -> & Hm).
    apply Matches_Cat_inv in Hm as (sl & w4 & -> & _ & Hm).
    apply Matches_Cat_inv in Hm as (w5 & w6 & -> & ->%Matches_Chr_inv & _).
    injection E as _ E. rewrite !string_app_nil_l in E. rewrite E in Hslug.
    unfold slugBytes in Hslug. rewrite !string_forall_app in Hslug. simpl in Hslug.
    by rewrite !andb_false_r in Hslug. }
  assert (MatchString CollectionURLRegex ("https://standardebooks.org/ebooks/" +:+ slug)
          = false) as Hcoll.
  { destruct (MatchString CollectionURLRegex _) eqn:Hm; [exfalso|done].
    change CollectionURLRegex with
      (lit "https://standardebooks" (Cat AnyNotNL (lit "org/collections/" tailRegex))) in Hm.
    apply (site_match_at_head _ (".org/ebooks/" +:+ slug)) in Hm as (w & rest & E & Hm);
      [|done].
    apply Matches_Cat_inv in Hm as (w1 & w2 & -> & (c & -> & _)%Matches_Any_inv & Hm).
    apply Matches_lit_inv in Hm as (w3 & -> & Hm). discriminate E. }
  split; [|done]. unfold classify. rewrite Hebook, Hcoll.
  assert (MatchString StandardEbooksMainRegex ("https://standardebooks.org/ebooks/" +:+ slug)
          = true) as ->.
  { apply MatchString_complete.
    change StandardEbooksMainRegex with
      (lit "https://standardebooks" (Cat AnyNotNL (lit "org/" tailRegex))).
    change ("https://standardebooks.org/ebooks/" +:+ slug) with
      ("https://standardebooks" +:+ "." +:+ "org/" +:+ "ebooks/" +:+ slug).
    apply Matches_lit. constructor; [by constructor|].
    apply Matches_lit, Matches_tail. rewrite noNewline_app.
    rewrite (slugBytes_noNewline slug Hslug). reflexivity. }
  assert (MatchString AuthorURLRegex ("https://standardebooks.org/ebooks/" +:+ slug)
          = true) as ->.
  { apply MatchString_complete.
    change AuthorURLRegex with
      (lit "https://standardebooks" (Cat AnyNotNL (lit "org/ebooks/"
         (Cat (Plus slugClass) (Cat (Quest (Class [("/", "/")%char])) EndText))))).
    change ("https://standardebooks.org/ebooks/" +:+ slug) with
      ("https://standardebooks" +:+ "." +:+ "org/ebooks/" +:+ slug).
    apply Matches_lit. constructor; [by constructor|].
    apply Matches_lit. rewrite <- (string_app_nil_r slug).
    constructor; [rewrite string_app_nil_l; by apply Matches_slug|].
    change EmptyString with (EmptyString +:+ EmptyString) at 1.
    constructor; [apply M_AltR; constructor|constructor]. }
  reflexivity.
Qed.

(** X19. A URL [https://standardebooks.org/collections/<name>], without a
    newline or a colon in the name, takes the collection branch. *)
Theorem collection_shape (name : string) :
  noNewline name = true → noByte ":" name = true →
  classify ("https://standardebooks.org/collections/" +:+ name) = inl Collection
  ∧ MatchString EbookURLRegex ("https://standardebooks.org/collections/" +:+ name) = false.
Proof.
  intros Hnl Hname.
  assert (noByte ":" (".org/collections/" +:+ name) = true) as Hcolon.
  { rewrite noByte_app, Hname. reflexivity. }
  assert (MatchString EbookURLRegex ("https://standardebooks.org/collections/" +:+ name)
          = false) as Hebook.
  { destruct (MatchString EbookURLRegex _) eqn:Hm; [exfalso|done].
    change EbookURLRegex with
      (lit "https://standardebooks" (Cat AnyNotNL (lit "org/ebooks/"
         (Cat (Plus slugClass) (Cat (Chr "/") tailRegex))))) in Hm.
    apply (site_match_at_head _ (".org/collections/" +:+ name)) in Hm
      as (w & rest & E & Hm); [|done].
    apply Matches_Cat_inv in Hm as (w1 & w2 & -> & (c & -> & _)%Matches_Any_inv & Hm).
    apply Matches_lit_inv in Hm as (w3 & -> & Hm). discriminate E. }
  split; [|done]. unfold classify. rewrite Hebook.
  assert (MatchString StandardEbooksMainRegex
            ("https://standardebooks.org/collections/" +:+ name) = true) as ->.
  { apply MatchString_complete.
    change StandardEbooksMainRegex with
      (lit "https://standardebooks" (Cat AnyNotNL (lit "org/" tailRegex))).
    change ("https://standardebooks.org/collections/" +:+ name) with
      ("https://standardebooks" +:+ "." +:+ "org/" +:+ "collections/" +:+ name).
    apply Matches_lit. constructor; [by constructor|].
    apply Matches_lit, Matches_tail. rewrite noNewline_app, Hnl. reflexivity. }
  assert (MatchString CollectionURLRegex
            ("https://standardebooks.org/collections/" +:+ name) = true) as ->.
  { apply MatchString_complete.
    change CollectionURLRegex with
      (lit "https://standardebooks" (Cat AnyNotNL (lit "org/collections/" tailRegex))).
    change ("https://standardebooks.org/collections/" +:+ name) with
      ("https://standardebooks" +:+ "." +:+ "org/collections/" +:+ name).
    apply Matches_lit. constructor; [by constructor|].
    by apply Matches_lit, Matches_tail. }
  reflexivity.
Qed.

Lemma no_colon_no_site s pre post :
  noByte ":" s = true → s ≠ pre +:+ "https://standardebooks" +:+ post.
Proof.
  intros Hs ->. unfold noByte in Hs. rewrite !string_forall_app in Hs. simpl in Hs.
  by rewrite !andb_false_r in Hs.
Qed.

(** X20. A raw URL that does not hold the address [https://standardebooks]
    anywhere is no URL of the site: it is refused with the first error of
    the classification, whatever else it holds. *)
Theorem foreign_url_is_refused (rawURL : string) :
  (∀ pre post, rawURL ≠ pre +:+ "https://standardebooks" +:+ post) →
  classify rawURL = inr (rawURL +:+ " is not a valid StandardEbook book").
Proof.
  intros Hforeign. unfold classify.
  destruct (MatchString StandardEbooksMainRegex rawURL) eqn:Hm; [exfalso|done].
  change StandardEbooksMainRegex with
    (lit "https://standardebooks" (Cat AnyNotNL (lit "org/" tailRegex))) in Hm.
  apply MatchString_sound in Hm as (pre & w & rest & -> & Hm).
  apply Matches_lit_inv in Hm as (w' & -> & _).
  apply (Hforeign pre (w' +:+ rest)). by rewrite !string_app_assoc.
Qed.

(** X21. A URL of the site whose path is neither under [ebooks/] nor under
    [collections/] (the path without newline and colon) passes the test of
    the site and is refused with the second error: it is not recognized. *)
Theorem unknown_path_is_not_recognized (path : string) :
  noNewline path = true → noByte ":" path = true →
  String.prefix "ebooks/" path = false → String.prefix "collections/" path = false →
  classify ("https://standardebooks.org/" +:+ path)
  = inr ("https://standardebooks.org/" +:+ path +:+ " was not recognized as a valid URL format").
Proof.
  intros Hnl Hpath Hebooks Hcolls.
  assert (noByte ":" (".org/" +:+ path) = true) as Hcolon.
  { rewrite noByte_app, Hpath. reflexivity. }
  assert (∀ seg k, String.prefix seg path = false →
            MatchString (lit "https://standardebooks" (Cat AnyNotNL (lit "org/" (lit seg k))))
              ("https://standardebooks.org/" +:+ path) = false) as Hno.
  { intros seg k Hseg. destruct (MatchString _ _) eqn:Hm; [exfalso|done].
    apply (site_match_at_head _ (".org/" +:+ path)) in Hm as (w & rest & E & Hm); [|done].
    apply Matches_Cat_inv in Hm as (w1 & w2 & -> & (c & -> & _)%Matches_Any_inv & Hm).
    apply Matches_lit_inv in Hm as (w3 & -> & Hm).
    apply Matches_lit_inv in Hm as (w4 & -> & Hm).
    injection E as _ E. rewrite !string_app_nil_l in E. rewrite E in Hseg.
    assert (String.prefix seg ((seg +:+ w4) +:+ rest) = true) as Hp.
    { clear. induction seg as [|x seg IH]; simpl; [by destruct (_ +:+ _)|].
      destruct (ascii_dec x x); [exact IH|done]. }
    congruence. }
  unfold classify.
  assert (MatchString StandardEbooksMainRegex ("https://standardebooks.org/" +:+ path)
          = true) as ->.
  { apply MatchString_complete.
    change StandardEbooksMainRegex with
      (lit "https://standardebooks" (Cat AnyNotNL (lit "org/" tailRegex))).
    change ("https://standardebooks.org/" +:+ path) with
      ("https://standardebooks" +:+ "." +:+ "org/" +:+ path).
    apply Matches_lit. constructor; [by constructor|].
    by apply Matches_lit, Matches_tail. }
  change EbookURLRegex with
    (lit "https://standardebooks" (Cat AnyNotNL (lit "org/" (lit "ebooks/"
       (Cat (Plus slugClass) (Cat (Chr "/") tailRegex)))))).
  change CollectionURLRegex with
    (lit "https://standardebooks" (Cat AnyNotNL (lit "org/" (lit "collections/" tailRegex)))).
  change AuthorURLRegex with
    (lit "https://standardebooks" (Cat AnyNotNL (lit "org/" (lit "ebooks/"
       (Cat (Plus slugClass) (Cat (Quest (Class [("/", "/")%char])) EndText)))))).
  rewrite !Hno by done. reflexivity.
Qed.

(** ** The pages a run asks for *)

Section KnownPagesProofs.
Context `{U : UrlPkg} `{H : HtmlPkg} `{C : !HttpPkg}.
Variable StandardEbooksMainURL : URL.













(** X24. The book pages of a collection or author page are requested in the
    order of the links, each at its URL resolved against the main URL, and
    as often as the page names it: the requests of the loop are those for
    the first [k] links, all of them when no book page fails. *)
Theorem book_pages_in_order (role : string) (p : EbookPageParser) (d : Z) (rawURL : string)
    (booksURLs : list URL) (s : URLSet) (w : World) :
  let run := booksLoop StandardEbooksMainURL role p d rawURL booksURLs s w in
  ∃ k, k ≤ length booksURLs
    ∧ requested (trace run.2)
      = requested (trace w)
        ++ ((λ b, URL_String (ResolveReference StandardEbooksMainURL b)) <$> take k booksURLs)
    ∧ (∀ s', run.1 = Done (s', None) → k = length booksURLs).
Proof.
  revert s w. induction booksURLs as [|b rest IH]; intros s w; simpl.
  - exists 0. simpl. rewrite app_nil_r. done.
  - unfold mbind, Run_bind, bookPage. run_steps.
    destruct (timerC w) as [f|]; simpl.
    2:{ exists 0. simpl. rewrite app_nil_r. split; [lia|done]. }
    destruct (Get_result _ _) as [body|e]; simpl.
    2:{ exists 1. simpl. split; [lia|]. split; [|done].
        rewrite !requested_app. simpl. by rewrite app_nil_r. }
    destruct (EbookPageParser_Parse p body) as [urls [e|]]; simpl.
    { exists 1. simpl. split; [lia|]. split; [|done].
      rewrite !requested_app. simpl. destruct (html_Parse body); simpl; by rewrite !app_nil_r. }
    match goal with |- context [booksLoop _ _ _ _ _ _ ?s1 ?w1] =>
      destruct (IH s1 w1) as (k & Hk & Hreq & Hdone)
    end.
    exists (S k). split; [lia|]. split.
    + rewrite Hreq. simpl. rewrite !requested_app. simpl.
      destruct (html_Parse body); simpl; rewrite !app_nil_r, <- app_assoc; done.
    + intros s' Hd. f_equal. by apply (Hdone s').
Qed.

End KnownPagesProofs.

(** ** A run without a failure *)

Lemma Forall2_functional {A B} (P : A → B → Prop) l l1 l2 :
  (∀ a b1 b2, P a b1 → P a b2 → b1 = b2) →
  Forall2 P l l1 → Forall2 P l l2 → l1 = l2.
Proof.
  intros Hfun H1. revert l2. induction H1 as [|a b1 l l1 Hab1 _ IH]; intros l2 H2.
  - by apply Forall2_nil_inv_l in H2.
  - apply Forall2_cons_inv_l in H2 as (b2 & l2' & Hab2 & H2 & ->).
    f_equal; [by eapply Hfun|by apply IH].
Qed.

Section SuccessProofs.
Context `{U : UrlPkg} `{H : HtmlPkg} `{C : !HttpPkg}.
Variable StandardEbooksMainURL : URL.
Variable site : string → Reader + string.
Hypothesis stateless : ∀ tr url, Get_result tr url = site url.

Lemma parsed_unique (hs : list string) (l1 l2 : list URL) :
  Forall2 (λ h u, url_Parse h = inl u) hs l1 →
  Forall2 (λ h u, url_Parse h = inl u) hs l2 → l1 = l2.
Proof. apply Forall2_functional. intros h u1 u2 H1 H2. congruence. Qed.

Lemma EbookPageParser_Parse_success p body doc urls :
  html_Parse body = inl doc →
  Forall2 (λ h u, url_Parse h = inl u)
    (filter (λ h, urlMatches p h = true) (anchorHrefs doc)) urls →
  EbookPageParser_Parse p body = (urls, None).
Proof.
  intros Hdoc Hurls.
  destruct (EbookPageParser_Parse_walked p body doc Hdoc) as (st' & f & -> & Hw).
  destruct (walked_all_parsed _ _ _ _ Hw) as (Herr & new & Hnew & HF).
  { apply Forall_forall. intros h Hh. apply list_elem_of_lookup in Hh as [i Hi].
    destruct (Forall2_lookup_l _ _ _ _ _ Hurls Hi) as (u & _ & Hu). by exists u. }
  simpl in *. rewrite Herr, Hnew. f_equal. by apply (parsed_unique _ _ _ HF).
Qed.

Lemma CollectionPageParser_Parse_success body doc books :
  html_Parse body = inl doc → Type_ doc = DocumentNode →
  Forall2 (λ h b, url_Parse h = inl b) (selected linkGate linkWant [] doc) books →
  CollectionPageParser_Parse body = Done (books, None).
Proof.
  intros Hdoc Htype Hbooks. unfold CollectionPageParser_Parse.
  rewrite Hdoc, collectionParseF_walk.
  destruct (walkTree_returns linkGate linkWant doc [] {| finalUrls := []; err := None |})
    as [st' Hst'].
  { intros pn. by apply linkGate_document. }
  rewrite Hst'. destruct (walkTree_walked _ _ _ _ _ _ Hst') as [f Hw].
  destruct (walked_all_parsed _ _ _ _ Hw) as (Herr & new & Hnew & HF).
  { apply Forall_forall. intros h Hh. apply list_elem_of_lookup in Hh as [i Hi].
    destruct (Forall2_lookup_l _ _ _ _ _ Hbooks Hi) as (u & _ & Hu). by exists u. }
  simpl in *. rewrite Herr, Hnew. do 2 f_equal. by apply (parsed_unique _ _ _ HF).
Qed.

Lemma ebookBranch_success p d rawURL s w urls :
  armed w → fileLinks site p rawURL urls →
  ∃ w', ebookBranch p d rawURL s w = (Done (Add s urls, None), w') ∧ armed w'.
Proof.
  intros [f Hf] (body & doc & Hsite & Hdoc & Hurls). unfold ebookBranch. run_steps.
  rewrite Hf. simpl. rewrite stateless, Hsite. simpl.
  rewrite (EbookPageParser_Parse_success p body doc urls Hdoc Hurls). simpl.
  eexists. split; [reflexivity|]. by eexists.
Qed.

Lemma bookPage_success role p d rawURL bookURL s w urls :
  armed w →
  fileLinks site p (URL_String (ResolveReference StandardEbooksMainURL bookURL)) urls →
  ∃ w', bookPage StandardEbooksMainURL role p d rawURL bookURL s w
        = (Done (Add s urls, None), w') ∧ armed w'.
Proof.
  intros [f Hf] (body & doc & Hsite & Hdoc & Hurls). unfold bookPage. run_steps.
  rewrite Hf. simpl. rewrite stateless, Hsite. simpl.
  rewrite (EbookPageParser_Parse_success p body doc urls Hdoc Hurls). simpl.
  eexists. split; [reflexivity|]. by eexists.
Qed.

Lemma booksLoop_success role p d rawURL books batches :
  Forall2 (λ b urls,
             fileLinks site p (URL_String (ResolveReference StandardEbooksMainURL b)) urls)
    books batches →
  ∀ s w, armed w →
    ∃ w', booksLoop StandardEbooksMainURL role p d rawURL books s w
          = (Done (foldl Add s batches, None), w') ∧ armed w'.
Proof.
  induction 1 as [|b urls books batches Hb _ IH]; intros s w Hw; simpl.
  - by exists w.
  - destruct (bookPage_success role p d rawURL b s w urls Hw Hb) as (w1 & Hrun & Hw1).
    unfold mbind, Run_bind. rewrite Hrun. by apply IH.
Qed.

Lemma listingBranch_success role p d rawURL books batches s w :
  armed w → bookLinks site rawURL books →
  Forall2 (λ b urls,
             fileLinks site p (URL_String (ResolveReference StandardEbooksMainURL b)) urls)
    books batches →
  ∃ w', listingBranch StandardEbooksMainURL role CollectionPageParser_Parse p d rawURL s w
        = (Done (foldl Add s batches, None), w') ∧ armed w'.
Proof.
  intros [f Hf] (body & doc & Hsite & Hdoc & Htype & Hbooks) Hbatches.
  unfold listingBranch. run_steps. rewrite Hf. simpl. rewrite stateless, Hsite. simpl.
  rewrite (CollectionPageParser_Parse_success body doc books Hdoc Htype Hbooks). simpl.
  apply booksLoop_success; [done|]. by eexists.
Qed.

Lemma oneURL_success p d rawURL batches s w :
  armed w → yields site StandardEbooksMainURL p rawURL batches →
  ∃ w', oneURL StandardEbooksMainURL p d rawURL s w = (Done (foldl Add s batches, None), w')
        ∧ armed w'.
Proof.
  intros Hw. unfold yields, oneURL. destruct (classify rawURL) as [[| |]|e]; [| | |done].
  - intros (urls & Hurls & ->). by apply ebookBranch_success.
  - intros (books & Hbooks & Hbatches). by eapply listingBranch_success.
  - intros (books & Hbooks & Hbatches).
    change AuthorPageParser_Parse with CollectionPageParser_Parse.
    by eapply listingBranch_success.
Qed.

Lemma urlsLoop_success p d todo batchess :
  Forall2 (yields site StandardEbooksMainURL p) todo batchess →
  ∀ s w, armed w →
    ∃ w', urlsLoop StandardEbooksMainURL p d todo s w
          = (Done (foldl Add s (concat batchess), None), w') ∧ armed w'.
Proof.
  induction 1 as [|rawURL batches todo batchess Hy _ IH]; intros s w Hw; simpl.
  - by exists w.
  - destruct (oneURL_success p d rawURL batches s w Hw Hy) as (w1 & Hrun & Hw1).
    unfold mbind, Run_bind. rewrite Hrun, foldl_app. by apply IH.
Qed.

(** X25. A run without a failure gathers every file link.  The client
    answers a URL by what the site has for it, the timer is set, and every
    raw URL (after the repeats are removed) yields its links: an ebook page
    its file links, a collection or author page those of each of its book
    pages.  Then [NormalizeURLs] returns no error and the set of all these
    links, added page by page: its string forms are those of the links. *)
Theorem NormalizeURLs_gathers_all_links (rawURLs : list string) (formats : string)
    (ebookParser : EbookPageParser) (d : Z) (w : World) (batchess : list (list (list URL))) :
  NewEbookPageParser formats = inl ebookParser →
  is_Some (timerC w) →
  Forall2 (yields site StandardEbooksMainURL ebookParser) (RemoveStringDuplicates rawURLs)
    batchess →
  (NormalizeURLs StandardEbooksMainURL rawURLs formats d w).1
    = Done (foldl Add NewURLSet (concat batchess), None)
  ∧ (∀ k, k ∈ URL_String <$> ToSlice (foldl Add NewURLSet (concat batchess))
          ↔ k ∈ URL_String <$> concat (concat batchess)).
Proof.
  intros Hp Hw Hy. split.
  - unfold NormalizeURLs. rewrite Hp.
    destruct (urlsLoop_success ebookParser d _ _ Hy NewURLSet w Hw) as (w' & -> & _). done.
  - intros k. rewrite ToSlice_elem by apply keyed_reachable.
    by rewrite dom_reachable, elem_of_list_to_set.
Qed.

End SuccessProofs.

(** ** Concrete runs *)

Lemma ToSlice_singleton `{U : UrlPkg} (u : URL) : ToSlice (Add NewURLSet [u]) = [u].
Proof.
  unfold Add, ToSlice, NewURLSet. simpl. by rewrite insert_empty, map_to_list_singleton.
Qed.

Module Runs.
Import Sample.


(** The four links, with the default format list and with [epub] alone. *)
Lemma ebook_parser_four_formats_witness :
  ∃ all4 only,
    NewEbookPageParser "aepub,azw3,epub,kepub" = inl all4
    ∧ NewEbookPageParser "epub" = inl only
    ∧ @EbookPageParser_Parse urls readers all4 (inl fourLinks)
      = (["book.epub"; "book.kepub.epub"; "book.azw3"; "book_advanced.epub"], None)
    ∧ @EbookPageParser_Parse urls readers only (inl fourLinks) = (["book.epub"], None).
Proof.
  apply (@ebook_parser_four_formats urls readers (inl fourLinks) fourLinks
           "aepub,azw3,epub,kepub"); try reflexivity.
  apply (bool_decide_unpack _). vm_compute. exact I.
Defined.

(** C4 as stated fails: the parse goes on after the malformed href, and
    the links parsed before and after it are returned with the error. *)
Lemma parse_returns_links_with_error :
  @EbookPageParser_Parse urls readers onlyEpub (inl mixedLinks)
  = (["book.epub"; "other.epub"],
     Some ("while processing " +:+ badHref +:+ ": net/url: invalid control character in URL")).
Proof. vm_compute. reflexivity. Qed.

(** The error of the same parse names the malformed href. *)
Lemma malformed_href_witness :
  ∃ links h e,
    @EbookPageParser_Parse urls readers onlyEpub (inl mixedLinks)
      = (links, Some ("while processing " +:+ h +:+ ": " +:+ e))
    ∧ @url_Parse urls h = inr e.
Proof.
  destruct (@malformed_href_is_reported urls readers (client (λ _, inr "no route"))
              "https://standardebooks.org" onlyEpub (inl mixedLinks) mixedLinks
              eq_refl eq_refl) as [Hebook _].
  destruct Hebook as (links & h & e & Hp & _ & _ & He & _).
  { exists badHref, "net/url: invalid control character in URL".
    split; [|split; reflexivity]. vm_compute. right. left. }
  by exists links, h, e.
Defined.

Lemma classify_goodPage : classify goodPage = inl Ebook.
Proof. vm_compute. reflexivity. Qed.

Lemma classify_foreignPage :
  classify foreignPage = inr "https://example.org/x is not a valid StandardEbook book".
Proof. vm_compute. reflexivity. Qed.

(** The run on the good page alone: one round, and its file link in the set. *)
Lemma goodPage_goes_through :
  @urlsLoop urls readers (client site) "https://standardebooks.org" onlyEpub 1
    [goodPage] NewURLSet start
  = (Done (@Add urls NewURLSet ["/ebooks/a/b/downloads/b.epub"], None),
     {| now := 0; timerC := Some 1%Z;
        trace := [EvWait 0; EvGet goodPage 0; EvBodyRead 0; EvReset 0 1] |}).
Proof.
  cbn [urlsLoop]. unfold oneURL. rewrite classify_goodPage.
  unfold ebookBranch, mbind, Run_bind, mret, Run_ret, timer_wait, client_Get, readByParse,
    timer_Reset, start, NewTimer.
  cbn -[Add NewURLSet]. reflexivity.
Qed.

Lemma classify_shelfPage : classify shelfPage = inl Collection.
Proof. vm_compute. reflexivity. Qed.

Lemma classify_missingPage : classify missingPage = inl Ebook.
Proof. vm_compute. reflexivity. Qed.

Lemma classify_brokenPage : classify brokenPage = inl Ebook.
Proof. vm_compute. reflexivity. Qed.

(** The run of the library on the good page alone. *)
Lemma library_goodPage :
  @urlsLoop urls readers (client library) "https://standardebooks.org" onlyEpub 1
    [goodPage] NewURLSet start
  = (Done (@Add urls NewURLSet ["/ebooks/a/b/downloads/b.epub"], None),
     {| now := 0; timerC := Some 1%Z;
        trace := [EvWait 0; EvGet goodPage 0; EvBodyRead 0; EvReset 0 1] |}).
Proof.
  cbn [urlsLoop]. unfold oneURL. rewrite classify_goodPage.
  unfold ebookBranch, mbind, Run_bind, mret, Run_ret, timer_wait, client_Get, readByParse,
    timer_Reset, start, NewTimer.
  cbn -[Add NewURLSet]. reflexivity.
Qed.

(** The second book of the collection is missing: the run ends at the request
    for it, after the good page, the collection page and the first book;
    the third book and the last raw URL are not asked for.  A page that is
    not of the site, a missing page and a page with a malformed href among
    the raw URLs end the run in the same way. *)
Lemma first_failure_witness :
  @NormalizeURLs urls readers (client library) "https://standardebooks.org"
    [goodPage; shelfPage; brokenPage] "epub" 1 start
  = (Done (@Add urls (@Add urls NewURLSet ["/ebooks/a/b/downloads/b.epub"])
             ["/ebooks/a/b/downloads/b.epub"],
           Some ("while getting /ebooks/c/d (collection: "
                   +:+ "https://standardebooks.org/collections/shelf): "
                   +:+ "dial tcp: connection refused")),
     {| now := 3; timerC := None;
        trace := [EvWait 0; EvGet goodPage 0; EvBodyRead 0; EvReset 0 1;
                  EvWait 1; EvGet shelfPage 1; EvBodyRead 1; EvReset 1 1;
                  EvWait 2; EvGet goodPage 2; EvBodyRead 2; EvReset 2 1;
                  EvWait 3; EvGet missingPage 3] |})
  ∧ (@NormalizeURLs urls readers (client library) "https://standardebooks.org"
       [goodPage; foreignPage; shelfPage] "epub" 1 start).1
    = Done (@Add urls NewURLSet ["/ebooks/a/b/downloads/b.epub"],
            Some "https://example.org/x is not a valid StandardEbook book")
  ∧ (@NormalizeURLs urls readers (client library) "https://standardebooks.org"
       [goodPage; missingPage; shelfPage] "epub" 1 start).1
    = Done (@Add urls NewURLSet ["/ebooks/a/b/downloads/b.epub"],
            Some ("while getting https://standardebooks.org/ebooks/c/d: "
                    +:+ "dial tcp: connection refused"))
  ∧ (@NormalizeURLs urls readers (client library) "https://standardebooks.org"
       [goodPage; brokenPage; shelfPage] "epub" 1 start).1
    = Done (@Add urls NewURLSet ["/ebooks/a/b/downloads/b.epub"],
            Some ("while parsing https://standardebooks.org/ebooks/x/y: "
                    +:+ "while processing " +:+ badHref
                    +:+ ": net/url: invalid control character in URL")).
Proof.
  set (w1 := {| now := 0; timerC := Some 1%Z;
                trace := [EvWait 0; EvGet goodPage 0; EvBodyRead 0; EvReset 0 1] |}).
  set (fs1 := @Add urls NewURLSet ["/ebooks/a/b/downloads/b.epub"]).
  pose proof (λ rawURL after
                (Hdup : RemoveStringDuplicates ([goodPage; rawURL] ++ after)
                        = [goodPage] ++ rawURL :: after),
      @first_failure_aborts urls readers (client library) "https://standardebooks.org"
        ([goodPage; rawURL] ++ after) "epub" 1 onlyEpub [goodPage] after rawURL
        start w1 fs1 eq_refl Hdup library_goodPage) as Hat.
  split; [|split; [|split]].
  - destruct (Hat shelfPage [brokenPage]) as (_ & _ & Hbook); [by vm_compute|].
    set (w2 := {| now := 2; timerC := Some 3%Z;
                  trace := [EvWait 0; EvGet goodPage 0; EvBodyRead 0; EvReset 0 1;
                            EvWait 1; EvGet shelfPage 1; EvBodyRead 1; EvReset 1 1;
                            EvWait 2; EvGet goodPage 2; EvBodyRead 2; EvReset 2 1] |}).
    destruct (Hbook Collection "collection" 1%Z (inl shelf) ["/ebooks/a/b"] "/ebooks/c/d"
                ["/ebooks/e/f"] (@Add urls fs1 ["/ebooks/a/b/downloads/b.epub"]) w2
                "getting" "dial tcp: connection refused"
                (@afterGet readers (client library) missingPage w2))
      as [[Hn _] _].
    + exact classify_shelfPage.
    + reflexivity.
    + reflexivity.
    + reflexivity.
    + vm_compute. reflexivity.
    + cbn [booksLoop]. 
      unfold bookPage, afterReset, mbind, Run_bind, mret, Run_ret, timer_wait, client_Get,
        readByParse, timer_Reset, w1.
      cbn -[Add NewURLSet fs1]. reflexivity.
    + apply (@getFails urls readers (client library) _ missingPage w2 3%Z); reflexivity.
    + exact Hn.
  - destruct (Hat foreignPage [shelfPage]) as (Hclass & _); [by vm_compute|].
    destruct (Hclass _ classify_foreignPage) as [Hn _].
    change ([goodPage; foreignPage] ++ [shelfPage]) with [goodPage; foreignPage; shelfPage]
      in Hn.
    by rewrite Hn.
  - destruct (Hat missingPage [shelfPage]) as (_ & Hpage & _); [by vm_compute|].
    destruct (Hpage Ebook "getting" "dial tcp: connection refused"
                (@afterGet readers (client library) missingPage w1) classify_missingPage)
      as [[Hn _] _].
    { apply (@getFails urls readers (client library) _ missingPage w1 1%Z); reflexivity. }
    change ([goodPage; missingPage] ++ [shelfPage]) with [goodPage; missingPage; shelfPage]
      in Hn.
    by rewrite Hn.
  - destruct (Hat brokenPage [shelfPage]) as (_ & Hpage & _); [by vm_compute|].
    destruct (Hpage Ebook "parsing"
                ("while processing " +:+ badHref
                   +:+ ": net/url: invalid control character in URL")
                (@afterRead readers (client library) brokenPage (inl mixedLinks) w1)
                classify_brokenPage)
      as [[Hn _] _].
    { apply (@parseFails urls readers (client library) _ brokenPage w1 1%Z (inl mixedLinks)
               ["book.epub"; "other.epub"]); [reflexivity..|].
      vm_compute. reflexivity. }
    change ([goodPage; brokenPage] ++ [shelfPage]) with [goodPage; brokenPage; shelfPage]
      in Hn.
    by rewrite Hn.
Defined.

(** C6 as stated fails for an answer with a status other than 2xx: a page
    the site does not have is answered with the status 404, [client.Get]
    returns no error, the page is parsed as any other, and the run goes on
    with the next raw URL. *)
Lemma not_found_is_no_failure :
  @Get_status readers (answeringClient site) [EvWait 0] missingPage = 404%Z
  ∧ @NormalizeURLs urls readers (answeringClient site) "https://standardebooks.org"
      [missingPage; goodPage] "epub" 1 start
    = (Done (@Add urls (@Add urls NewURLSet []) ["/ebooks/a/b/downloads/b.epub"], None),
       {| now := 1; timerC := Some 2%Z;
          trace := [EvWait 0; EvGet missingPage 0; EvBodyRead 0; EvReset 0 1;
                    EvWait 1; EvGet goodPage 1; EvBodyRead 1; EvReset 1 1] |}).
Proof.
  split; [reflexivity|].
  unfold NormalizeURLs.
  assert (RemoveStringDuplicates [missingPage; goodPage] = [missingPage; goodPage]) as ->
    by (by vm_compute).
  change (NewEbookPageParser "epub") with
    (inl {| extensionsTesters := [test_epub] |} : EbookPageParser + string).
  cbn [urlsLoop]. unfold oneURL. rewrite classify_missingPage, classify_goodPage.
  unfold ebookBranch, mbind, Run_bind, mret, Run_ret, timer_wait, client_Get, readByParse,
    timer_Reset, start, NewTimer.
  cbn -[Add NewURLSet]. reflexivity.
Qed.

(** The run of a client no copy of which comes to its end, on the good page. *)
Lemma cutClient_goodPage :
  @NormalizeURLs urls readers (cutClient library) "https://standardebooks.org" [goodPage]
    "epub" 1 start
  = (Done (@Add urls NewURLSet ["/ebooks/a/b/downloads/b.epub"], None),
     {| now := 0; timerC := Some 1%Z;
        trace := [EvWait 0; EvGet goodPage 0; EvBodyRead 0; EvReset 0 1] |}).
Proof.
  unfold NormalizeURLs. rewrite RemoveStringDuplicates_singleton.
  change (NewEbookPageParser "epub") with
    (inl {| extensionsTesters := [test_epub] |} : EbookPageParser + string).
  cbn [urlsLoop]. unfold oneURL. rewrite classify_goodPage.
  unfold ebookBranch, mbind, Run_bind, mret, Run_ret, timer_wait, client_Get, readByParse,
    timer_Reset, start, NewTimer.
  cbn -[Add NewURLSet]. reflexivity.
Qed.

(** C7 as stated fails: the copy of the file of the good page stops at an
    error, [main] resets the timer all the same, right after the request,
    and the body was not read to its end. *)
Lemma reset_without_read :
  @mainFromTimer urls readers (cutClient library) "https://standardebooks.org" [goodPage]
    "epub" 1 (λ _, None) {| now := 0; timerC := None; trace := [] |}
  = (Done (),
     {| now := 1; timerC := Some 2%Z;
        trace := [EvWait 0; EvGet goodPage 0; EvBodyRead 0; EvReset 0 1;
                  EvWait 1; EvGet goodFile 1; EvReset 1 1] |})
  ∧ ¬ resetAfterRead 1 [EvWait 0; EvGet goodPage 0; EvBodyRead 0; EvReset 0 1;
                        EvWait 1; EvGet goodFile 1; EvReset 1 1].
Proof.
  split.
  - unfold mainFromTimer, mbind, Run_bind.
    change (NewTimer 0 {| now := 0; timerC := None; trace := [] |}) with start.
    rewrite cutClient_goodPage, (@ToSlice_singleton urls). reflexivity.
  - intros Hr. destruct (Hr 6 1%Z 1%Z eq_refl) as (_ & j & tb & [= <-] & Hj & _).
    discriminate Hj.
Qed.

(** A run of [main] in which every copy comes to its end: the good page,
    then its file. *)
Lemma paced_run_witness :
  resetAfterRead 1
    (trace (@mainFromTimer urls readers (client library) "https://standardebooks.org"
              [goodPage] "epub" 1 (λ _, None)
              {| now := 0; timerC := None; trace := [] |}).2)
  ∧ spaced 1
      (trace (@mainFromTimer urls readers (client library) "https://standardebooks.org"
                [goodPage] "epub" 1 (λ _, None)
                {| now := 0; timerC := None; trace := [] |}).2).
Proof.
  destruct (@requests_are_paced urls readers (client library) "https://standardebooks.org"
              [goodPage] "epub" 1 (λ _, None) 0) as (_ & _ & _ & _ & _ & _ & Hall).
  apply Hall. intros body. reflexivity.
Defined.

(** C5 as stated fails for a slug with an underscore or with a digit: the
    URL has the shape of an ebook page, and it is not recognised at all. *)
Lemma slug_with_other_bytes :
  classify ("https://standardebooks.org/ebooks/" +:+ "a_b" +:+ "/" +:+ "c")
  = inr ("https://standardebooks.org/ebooks/a_b/c"
         +:+ " was not recognized as a valid URL format")
  ∧ classify ("https://standardebooks.org/ebooks/" +:+ "h-g-wells2" +:+ "/" +:+ "x")
    = inr ("https://standardebooks.org/ebooks/h-g-wells2/x"
           +:+ " was not recognized as a valid URL format").
Proof. split; vm_compute; reflexivity. Qed.

End Runs.

(** ** More concrete runs *)

Module MoreRuns.
Import Sample.

(** The two format lists name the same formats. *)
Lemma format_order_witness :
  ∃ p2, NewEbookPageParser "kepub,epub,epub" = inl p2
    ∧ (∀ h, urlMatches {| extensionsTesters := [test_epub; test_kepub] |} h = urlMatches p2 h)
    ∧ (∀ r, @EbookPageParser_Parse urls readers {| extensionsTesters := [test_epub; test_kepub] |} r
            = @EbookPageParser_Parse urls readers p2 r)
    ∧ ∀ rawURLs d w,
        @NormalizeURLs urls readers (client site) "https://standardebooks.org" rawURLs
          "epub,kepub" d w
        = @NormalizeURLs urls readers (client site) "https://standardebooks.org" rawURLs
            "kepub,epub,epub" d w.
Proof.
  apply (@format_order_is_irrelevant urls readers (client site) "https://standardebooks.org"
           "epub,kepub" "kepub,epub,epub" {| extensionsTesters := [test_epub; test_kepub] |});
    [reflexivity|].
  intros t. change (Split_comma "epub,kepub") with ["epub"; "kepub"].
  change (Split_comma "kepub,epub,epub") with ["kepub"; "epub"; "epub"].
  rewrite !elem_of_cons, !elem_of_nil. tauto.
Defined.

(** The format [mobi] is not supported. *)
Lemma unsupported_format_witness :
  ∃ ext, ext ∈ Split_comma "epub,mobi" ∧ ¬ supported ext
    ∧ @NormalizeURLs urls readers (client site) "https://standardebooks.org" [goodPage]
        "epub,mobi" 1 start
      = (Done (NewURLSet, Some ("while creating EbookPageParser: " +:+ unsupportedError ext)),
         start)
    ∧ @mainFromTimer urls readers (client site) "https://standardebooks.org" [goodPage]
        "epub,mobi" 1 (λ _, None) start
      = (Fatal ("while creating EbookPageParser: " +:+ unsupportedError ext), NewTimer 0 start).
Proof.
  apply (@unsupported_format_ends_before_any_request urls readers (client site)
           "https://standardebooks.org" [goodPage] "epub,mobi" 1 (λ _, None) start).
  exists "mobi". split.
  - change (Split_comma "epub,mobi") with ["epub"; "mobi"].
    apply list_elem_of_further, list_elem_of_here.
  - intros [f Hf]. vm_compute in Hf. discriminate Hf.
Defined.

(** The good page given twice. *)
Lemma repeated_urls_witness :
  @NormalizeURLs urls readers (client site) "https://standardebooks.org"
    ([goodPage; foreignPage] ++ [goodPage]) "epub" 1
  = @NormalizeURLs urls readers (client site) "https://standardebooks.org"
      [goodPage; foreignPage] "epub" 1
  ∧ @NormalizeURLs urls readers (client site) "https://standardebooks.org"
      (RemoveStringDuplicates [goodPage; foreignPage]) "epub" 1
    = @NormalizeURLs urls readers (client site) "https://standardebooks.org"
        [goodPage; foreignPage] "epub" 1.
Proof.
  apply (@repeated_urls_are_handled_once urls readers (client site)
           "https://standardebooks.org" [goodPage; foreignPage] [goodPage] "epub" 1).
  constructor; [apply list_elem_of_here|constructor].
Defined.

(** The run of [NormalizeURLs] on the good page. *)
Lemma NormalizeURLs_goodPage :
  @NormalizeURLs urls readers (client site) "https://standardebooks.org" [goodPage] "epub" 1
    start
  = (Done (@Add urls NewURLSet ["/ebooks/a/b/downloads/b.epub"], None),
     {| now := 0; timerC := Some 1%Z;
        trace := [EvWait 0; EvGet goodPage 0; EvBodyRead 0; EvReset 0 1] |}).
Proof.
  unfold NormalizeURLs. rewrite RemoveStringDuplicates_singleton.
  change (NewEbookPageParser "epub") with
    (inl {| extensionsTesters := [test_epub] |} : EbookPageParser + string).
  exact Runs.goodPage_goes_through.
Qed.

(** The link of the good page comes from the good page. *)
Lemma links_of_fetched_pages_witness :
  NoDup (@URL_String urls <$> ToSlice (@Add urls NewURLSet ["/ebooks/a/b/downloads/b.epub"]))
  ∧ Forall (@fromPageOf urls readers (client site) onlyEpub (length (trace start))
              [EvWait 0; EvGet goodPage 0; EvBodyRead 0; EvReset 0 1])
      (ToSlice (@Add urls NewURLSet ["/ebooks/a/b/downloads/b.epub"])).
Proof.
  apply (@NormalizeURLs_returns_links_of_fetched_pages urls readers (client site)
           "https://standardebooks.org" [goodPage] "epub" 1 start
           {| now := 0; timerC := Some 1%Z;
              trace := [EvWait 0; EvGet goodPage 0; EvBodyRead 0; EvReset 0 1] |}
           onlyEpub (@Add urls NewURLSet ["/ebooks/a/b/downloads/b.epub"]) None).
  - reflexivity.
  - exact NormalizeURLs_goodPage.
Defined.

(** A timer whose channel is empty and that is not running. *)
Lemma unarmed_timer_witness :
  @NormalizeURLs urls readers (client site) "https://standardebooks.org" [goodPage] "epub" 1
    {| now := 0; timerC := None; trace := [] |}
  = (Blocked, {| now := 0; timerC := None; trace := [] |}).
Proof.
  apply (@unarmed_timer_blocks urls readers (client site) "https://standardebooks.org"
           goodPage [] "epub" onlyEpub Ebook 1 {| now := 0; timerC := None; trace := [] |}).
  - reflexivity.
  - exact Runs.classify_goodPage.
  - reflexivity.
Defined.

(** The slice of a set with one member. *)
(** The run of [main] on the good page: the page, then its file, which the
    site does not have. *)
Lemma main_goodPage :
  @mainFromTimer urls readers (client site) "https://standardebooks.org" [goodPage] "epub" 1
    (λ _, None) {| now := 0; timerC := None; trace := [] |}
  = (Fatal "dial tcp: connection refused",
     {| now := 1; timerC := None;
        trace := [EvWait 0; EvGet goodPage 0; EvBodyRead 0; EvReset 0 1; EvWait 1;
                  EvGet "https://standardebooks.org/ebooks/a/b/downloads/b.epub" 1] |}).
Proof.
  unfold mainFromTimer, mbind, Run_bind.
  change (NewTimer 0 {| now := 0; timerC := None; trace := [] |}) with start.
  rewrite NormalizeURLs_goodPage, (@ToSlice_singleton urls). reflexivity.
Qed.

(** Two requests, one interval apart. *)
Lemma requests_take_their_time_witness :
  getTimes (trace (@mainFromTimer urls readers (client site) "https://standardebooks.org"
                     [goodPage] "epub" 1 (λ _, None)
                     {| now := 0; timerC := None; trace := [] |}).2) = [0; 1]%Z
  ∧ (0 + Z.of_nat (1 - 0) * 1 ≤ 1)%Z.
Proof.
  split; [by rewrite main_goodPage|].
  apply (@requests_take_their_time urls readers (client site) "https://standardebooks.org"
           [goodPage] "epub" 1 (λ _, None) 0 0 1 0 1); [lia|..]; by rewrite main_goodPage.
Defined.

(** The older parser and an advanced epub. *)
Lemma legacy_urlMatches_witness :
  Legacy.urlMatches {| Legacy.extensions := [".epub"] |}
    ("/ebooks/a/b/downloads" +:+ "/" +:+ "b_advanced" +:+ "." +:+ "epub") = true.
Proof.
  destruct (legacy_urlMatches_after_first_dot {| Legacy.extensions := [".epub"] |}
              "/ebooks/a/b/downloads" "b_advanced" "epub") as [Hm _]; [reflexivity..|].
  rewrite Hm. reflexivity.
Defined.

(** A kepub with and without the flag. *)
Lemma download_file_names_witness :
  downloadName true ("https://standardebooks.org/ebooks/a/b/downloads" +:+ "/" +:+ "b.kepub.epub")
    = "b.kepub"
  ∧ downloadName false
      ("https://standardebooks.org/ebooks/a/b/downloads" +:+ "/" +:+ "b.kepub.epub")
    = "b.kepub.epub".
Proof.
  destruct (download_file_names true "https://standardebooks.org/ebooks/a/b/downloads"
              "b.kepub.epub") as (Hplain & _ & Htrim); [reflexivity|discriminate|].
  split; [exact (Htrim "b" eq_refl)|exact Hplain].
Defined.

(** A host name with a letter at the place of the dot. *)
Lemma any_byte_for_the_dot_witness :
  classify (EmptyString +:+ "https://standardebooks" +:+ String "X" "org/ebooks/"
              +:+ "jane-austen" +:+ "/" +:+ "emma") = inl Ebook.
Proof.
  apply (any_byte_for_the_dot EmptyString "X" "jane-austen" "emma");
    [discriminate|discriminate|reflexivity..].
Defined.

(** The page of an author. *)
Lemma author_shape_witness :
  classify ("https://standardebooks.org/ebooks/" +:+ "jane-austen") = inl Author.
Proof.
  destruct (author_shape "jane-austen") as [Hc _]; [discriminate|reflexivity|exact Hc].
Defined.

(** The page of a collection. *)
Lemma collection_shape_witness :
  classify ("https://standardebooks.org/collections/" +:+ "the-guardian") = inl Collection.
Proof.
  destruct (collection_shape "the-guardian") as [Hc _]; [reflexivity..|exact Hc].
Defined.

(** The address of a page without its scheme. *)
Lemma foreign_url_witness :
  classify "standardebooks.org/ebooks/a/b"
  = inr ("standardebooks.org/ebooks/a/b" +:+ " is not a valid StandardEbook book").
Proof.
  apply (foreign_url_is_refused "standardebooks.org/ebooks/a/b").
  intros pre post. by apply no_colon_no_site.
Defined.

(** A page of the site that is no ebook, author or collection. *)
Lemma unknown_path_witness :
  classify ("https://standardebooks.org/" +:+ "about")
  = inr ("https://standardebooks.org/" +:+ "about"
         +:+ " was not recognized as a valid URL format").
Proof.
  apply (unknown_path_is_not_recognized "about"); reflexivity.
Defined.


(** What the good page yields. *)
Lemma goodPage_yields :
  @yields urls readers site "https://standardebooks.org" onlyEpub goodPage
    [["/ebooks/a/b/downloads/b.epub"]].
Proof.
  unfold yields. rewrite Runs.classify_goodPage.
  exists ["/ebooks/a/b/downloads/b.epub"]. split; [|done].
  exists (inl (page [a_href "/ebooks/a/b/downloads/b.epub"])),
    (page [a_href "/ebooks/a/b/downloads/b.epub"]).
  split; [reflexivity|]. split; [reflexivity|].
  change (filter _ (anchorHrefs _)) with ["/ebooks/a/b/downloads/b.epub"].
  by repeat constructor.
Qed.

(** The site with the good page. *)
Lemma NormalizeURLs_gathers_all_links_witness :
  (@NormalizeURLs urls readers (client site) "https://standardebooks.org" [goodPage] "epub" 1
     start).1
  = Done (foldl (@Add urls) NewURLSet (concat [[["/ebooks/a/b/downloads/b.epub"]]]), None)
  ∧ (∀ k, k ∈ @URL_String urls
              <$> ToSlice (foldl (@Add urls) NewURLSet
                             (concat [[["/ebooks/a/b/downloads/b.epub"]]]))
          ↔ k ∈ @URL_String urls <$> concat (concat [[["/ebooks/a/b/downloads/b.epub"]]])).
Proof.
  apply (@NormalizeURLs_gathers_all_links urls readers (client site)
           "https://standardebooks.org" site (λ _ _, eq_refl) [goodPage] "epub" onlyEpub 1
           start [[["/ebooks/a/b/downloads/b.epub"]]]).
  - reflexivity.
  - by eexists.
  - rewrite RemoveStringDuplicates_singleton.
    constructor; [exact goodPage_yields|constructor].
Defined.

End MoreRuns.
